(** * Time-stepping core of the Navier-Stokes example (main.cpp)

    A shallow embedding of [main.cpp]: the tunable constants, the boundary
    markers and boundary-condition callbacks, the weak-form kernels, the
    registration of the weak form and the main time loop.

    Conventions.
    - [double] is IEEE 754 binary64, with the operations of the Standard
      Library's specification of floating-point arithmetic ([SpecFloat]):
      the constants of the program, the global time, the coordinates
      handed to the boundary-value callback and everything main.cpp
      computes from them are doubles, rounded as the machine rounds them.
    - [scalar], the number type of the finite-element library, is
      modelled by the exact rationals [Qc] (canonical fractions, so
      equality is Leibniz equality): the library is modelled from its
      design specification, in the ideal arithmetic of that
      specification, and a double enters it with its exact value
      ([ideal]).
    - [int] is modelled by [Z]; the one place where the program converts a
      [double] to an [int] is guarded by the range of a 32-bit [int], and
      so is the loop counter.  DOF counts and indices are unbounded.
    - The finite-element library called by [main.cpp] (spaces, assembler,
      solution decoding) is not part of the translated file; its
      components are modelled from the design specification and marked as
      such.  The sparse linear solve is a parameter of the development. *)

From Stdlib Require Import ZArith QArith Qcanon Qround Lia SpecFloat.
From stdpp Require Import base list numbers.

Local Open Scope Z_scope.
Local Open Scope Qc_scope.

(** ** Scalars *)

Abbreviation scalar := Qc (only parsing).

(** Integer and fraction literals of the source, as scalars. *)
Definition qz (z : Z) : scalar := Qc_of_Z z.
Definition qfrac (n : Z) (d : positive) : scalar := Q2Qc (n # d).

Definition Qcmin (a b : scalar) : scalar := if decide (a <= b) then a else b.

(** Rounding a scalar down and up to an integer. *)
Definition floor (q : scalar) : Z := Qfloor q.
Definition ceiling (q : scalar) : Z := Qceiling q.
Arguments floor q%_Qc.
Arguments ceiling q%_Qc.

(** ** Doubles

    The values of [spec_float] are the zeros, the infinities, not-a-number
    and the finite numbers [(-1)^s * m * 2^e]; at precision 53 and maximal
    exponent 1024 the operations are those of binary64: each rounds its
    exact result to the nearest double, ties to even, overflows to an
    infinity and propagates not-a-number. *)

Abbreviation double := spec_float (only parsing).

Definition double_prec : Z := 53.
Definition double_emax : Z := 1024.

Definition dadd (a b : double) : double := SFadd double_prec double_emax a b.
Definition dsub (a b : double) : double := SFsub double_prec double_emax a b.
Definition dmul (a b : double) : double := SFmul double_prec double_emax a b.
Definition ddiv (a b : double) : double := SFdiv double_prec double_emax a b.

(** [a <= b] and [a < b]: false as soon as one side is not a number. *)
Definition dle (a b : double) : bool := SFleb a b.
Definition dlt (a b : double) : bool := SFltb a b.

(** The values of [spec_float] that are doubles: the mantissa has at most
    53 bits and the exponent is the one binary64 gives it. *)
Definition is_double (d : double) : bool :=
  valid_binary double_prec double_emax d.

Definition is_finite (d : double) : bool :=
  match d with
  | S754_zero _ | S754_finite _ _ _ => true
  | S754_infinity _ | S754_nan => false
  end.

Arguments dadd : simpl never.
Arguments dsub : simpl never.
Arguments dmul : simpl never.
Arguments ddiv : simpl never.

Definition dzero : double := S754_zero false.

(** The doubles that are a zero or not a number. *)
Definition zero_or_nan (d : double) : bool :=
  match d with
  | S754_zero _ | S754_nan => true
  | S754_infinity _ | S754_finite _ _ _ => false
  end.

(** The doubles that are a zero. *)
Definition is_zero (d : double) : bool :=
  match d with
  | S754_zero _ => true
  | _ => false
  end.

(** An integer literal of the source, converted to [double]. *)
Definition double_of_Z (z : Z) : double :=
  binary_normalize double_prec double_emax z 0 false.

(** A decimal literal of the source with the value [n / d]: the double
    nearest to that fraction. *)
Definition double_lit (n : Z) (d : positive) : double :=
  ddiv (double_of_Z n) (double_of_Z (Zpos d)).

(** The exact value of a finite double.  The scalars have no infinity and
    no not-a-number: these are sent to zero, and [is_finite] tells them
    from the doubles that are zero. *)
Definition ideal (d : double) : scalar :=
  match d with
  | S754_finite s m e =>
      let z := if s then Zneg m else Zpos m in
      match e with
      | Zneg k => Q2Qc (z # Pos.pow 2 k)
      | _ => qz (z * 2 ^ e)
      end
  | _ => 0
  end.

(** The double [r] is exactly the number [v]: it is finite, and nothing
    was lost when it was rounded. *)
Definition exactly (r : double) (v : scalar) : Prop :=
  is_finite r = true /\ ideal r = v.

(** The unit of the exponent [e]: the number [2^e]. *)
Definition pow2 (e : Z) : scalar := ideal (S754_finite false 1 e).

(** The number of units of the exponent [e0] in a finite double whose
    exponent is not below [e0]. *)
Definition scaled (e0 : Z) (d : double) : Z :=
  match d with
  | S754_finite s m e => (if s then Zneg m else Zpos m) * 2 ^ (e - e0)
  | _ => 0
  end.

(** * The finite-element library, as far as [main.cpp] uses it

    None of this is in main.cpp: every definition of this module is
    modelled from the design specification. *)

Module Hermes2d.

(** Modelled from the spec: the boundary classification of the library
    ("essential/Dirichlet ..., or natural/none for do-nothing outflow"),
    with the names main.cpp uses. *)
Inductive BCType : Type := BC_ESSENTIAL | BC_NATURAL | BC_NONE.

(** ** Tabulated functions and quadrature

    Modelled from the spec: the shape-function evaluation and the
    quadrature integrals of the finite-element library ([RealFunction],
    [RefMap], [int_u_v], [int_grad_u_grad_v], [int_w_nabla_u_v],
    [int_u_dvdx], [int_u_dvdy]) are not in main.cpp.  Following the
    kernel contract of the specification ("a pure function of trial basis
    value/gradient, test basis value/gradient, geometric mapping, frozen
    dependency-field values at the evaluation point", evaluated "via
    numerical quadrature"), a function on the active element is tabulated
    by its value and gradient at the quadrature points, and the geometric
    mapping by the weight (quadrature weight times Jacobian) of every
    point. *)

(** Modelled from the spec: "basis value/gradient ... at the evaluation
    point": the value and the two partial derivatives of a function at one
    quadrature point. *)
Record Sample : Type := { val : scalar; dx : scalar; dy : scalar }.

Definition zero_sample : Sample := {| val := 0; dx := 0; dy := 0 |}.

Abbreviation RealFunction := (list Sample) (only parsing).
Abbreviation RefMap := (list scalar) (only parsing).

(** Modelled from the spec: the "frozen dependency-field values at the
    evaluation point": a solution activated on an element is a function
    that knows the reference map of that element, which main.cpp reads
    with [get_refmap]. *)
Record ActiveSolution : Type := {
  as_fn :> RealFunction;
  get_refmap : RefMap
}.

(** Modelled from the spec: "numerical quadrature", the weighted sum of
    an integrand over the quadrature points. *)
Fixpoint quad (w : RefMap) (f : list scalar) : scalar :=
  match w, f with
  | wi :: w', fi :: f' => wi * fi + quad w' f'
  | _, _ => 0
  end.

(** Modelled from the spec: the integrals called by the kernels of
    main.cpp, absent from it; each is the quadrature of the integrand its
    name spells: [u v], [grad u . grad v], [u dv/dx], [u dv/dy]. *)
Definition int_u_v (fu fv : RealFunction) (ru rv : RefMap) : scalar :=
  quad ru (zip_with (fun u v => val u * val v) fu fv).

Definition int_grad_u_grad_v (fu fv : RealFunction) (ru rv : RefMap) : scalar :=
  quad ru (zip_with (fun u v => dx u * dx v + dy u * dy v) fu fv).

Definition int_u_dvdx (fu fv : RealFunction) (ru rv : RefMap) : scalar :=
  quad ru (zip_with (fun u v => val u * dx v) fu fv).

Definition int_u_dvdy (fu fv : RealFunction) (ru rv : RefMap) : scalar :=
  quad ru (zip_with (fun u v => val u * dy v) fu fv).

(** Modelled from the spec: the convective integrand [(w . nabla) u v]
    with the frozen velocity [w = (w1, w2)], the "convective term" whose
    "linearization anchor" is the previous step's velocity. *)
Definition int_w_nabla_u_v (w1 w2 fu fv : RealFunction) (ru rv : RefMap) : scalar :=
  quad ru (zip_with (fun wu v => wu * val v)
             (zip_with (fun w u => val (fst w) * dx u + val (snd w) * dy u)
                (zip w1 w2) fu)
             fv).

(** ** Kernel signatures

    Modelled from the spec: a kernel is "a pure function of (trial basis
    value/gradient, test basis value/gradient, geometric mapping, frozen
    dependency-field values at the evaluation point) returning a scalar".
    In main.cpp the dependency fields are the global solutions [xprev] and
    [yprev]; the assembler activates them on the current element before it
    calls a kernel, and [KernelEnv] is what a kernel then sees of them. *)

(** Modelled from the spec: the dependency fields as a kernel of
    main.cpp sees them. *)
Record KernelEnv : Type := {
  env_xprev : ActiveSolution;
  env_yprev : ActiveSolution
}.

Definition BiFormFn : Type :=
  KernelEnv -> RealFunction -> RealFunction -> RefMap -> RefMap -> scalar.
Definition LiFormFn : Type :=
  KernelEnv -> RealFunction -> RefMap -> scalar.

(** ** Weak-form registry

    Modelled from the spec: [WeakForm], [add_biform] and [add_liform] are
    not in main.cpp.  A bilinear term is {row_field, col_field, kernel,
    symmetry_tag, read-only dependency fields}, a linear term is
    {row_field, kernel, dependency fields}; the weak form is the ordered
    set of terms for a fixed number of fields. *)

(** Modelled from the spec: "symmetry_tag in {symmetric, unsymmetric,
    antisymmetric}", with the names main.cpp uses. *)
Inductive SymFlag : Type := UNSYM | SYM | ANTISYM.

(** Modelled from the spec: the "read-only dependency fields" a term
    may register; in main.cpp they are [&xprev] and [&yprev]. *)
Inductive ExtFn : Type := Xprev | Yprev.

Record BiForm : Type := {
  bf_i : nat;
  bf_j : nat;
  bf_fn : BiFormFn;
  bf_sym : SymFlag;
  bf_ext : list ExtFn
}.

Record LiForm : Type := {
  lf_i : nat;
  lf_fn : LiFormFn;
  lf_ext : list ExtFn
}.

(** Modelled from the spec: "the complete ordered set of terms ...;
    number of fields fixed". *)
Record WeakForm : Type := {
  wf_neq : nat;
  wf_biforms : list BiForm;
  wf_liforms : list LiForm
}.

Definition WeakForm_new (neq : nat) : WeakForm :=
  {| wf_neq := neq; wf_biforms := []; wf_liforms := [] |}.

(** Modelled from the spec: [add_bilinear_term(row, col, kernel,
    symmetry_tag, deps)] and [add_linear_term(row, kernel, deps)] append a
    term to the registry. *)
Definition add_biform (i j : nat) (fn : BiFormFn) (sym : SymFlag)
    (ext : list ExtFn) (wf : WeakForm) : WeakForm :=
  {| wf_neq := wf_neq wf;
     wf_biforms := wf_biforms wf ++
       [{| bf_i := i; bf_j := j; bf_fn := fn; bf_sym := sym; bf_ext := ext |}];
     wf_liforms := wf_liforms wf |}.

Definition add_liform (i : nat) (fn : LiFormFn) (ext : list ExtFn)
    (wf : WeakForm) : WeakForm :=
  {| wf_neq := wf_neq wf;
     wf_biforms := wf_biforms wf;
     wf_liforms := wf_liforms wf ++
       [{| lf_i := i; lf_fn := fn; lf_ext := ext |}] |}.

(** ** Mesh

    Modelled from the spec: the mesh and the shapesets are external; the
    core "only needs element iteration and boundary-marker lookup".  An
    element carries its reference map and, for every basis family and
    polynomial order, its local shape functions, each attached to a DOF
    carrier (vertex, edge or interior of an element) of the mesh.  A
    carrier on the boundary knows the marker of that boundary part. *)

(** Modelled from the spec: the "basis family" of a space; the two
    families main.cpp instantiates. *)
Inductive ShapesetKind : Type := H1ShapesetBeuchler | L2Shapeset.

(** Modelled from the spec: a DOF carrier with the "boundary-marker
    lookup" the core needs and the coordinates handed to the
    essential-value function. *)
Record Node : Type := {
  node_marker : option Z;
  node_x : double;
  node_y : double
}.

(** A local shape function: the index of its carrier and its table. *)
Abbreviation Shape := (nat * RealFunction)%type (only parsing).

Record Element : Type := {
  el_refmap : RefMap;
  el_shapes : ShapesetKind -> nat -> list Shape
}.

(** Modelled from the spec: "Mesh (external): ... core only needs
    element iteration and boundary-marker lookup". *)
Record Mesh : Type := {
  elements : list Element;
  carriers : ShapesetKind -> nat -> list Node
}.

(** ** Function spaces and DOF assignment

    Modelled from the spec: [H1Space], [L2Space], [set_bc_types],
    [set_bc_values], [set_uniform_order] and [assign_dofs] are not in
    main.cpp.  A space is {mesh reference, basis family, polynomial order,
    boundary classifier, essential-value function, DOF numbering};
    [assign_dofs(start_index)] renumbers the space from [start_index],
    re-evaluates the essential boundary values and returns the number of
    degrees of freedom.  The value callback is the function of main.cpp:
    it takes a marker and two [double] coordinates and returns a [double];
    it reads the global time, which is its first argument here.  The
    value it returns enters the numbering with its exact value. *)

Inductive DofRef : Type :=
| Free (k : Z)              (* an unknown, with its global index *)
| Essential (g : scalar).   (* a coefficient fixed by an essential condition *)

(** Modelled from the spec: "FunctionSpace: {mesh reference, basis
    family, polynomial order, boundary classifier, essential-value
    function, DOF numbering}". *)
Record Space : Type := {
  sp_mesh : Mesh;
  sp_shapeset : ShapesetKind;
  sp_order : nat;
  sp_bc_type : Z -> BCType;
  sp_bc_value : double -> Z -> double -> double -> double;
  sp_first_dof : Z;
  sp_ndofs : Z;
  sp_dofs : list DofRef       (* one entry per carrier, once assigned *)
}.

(** Modelled from the spec: [create(mesh, basis_family, order)]; a new
    space has no essential values and no numbering yet. *)
Definition Space_new (mesh : Mesh) (shapeset : ShapesetKind) : Space :=
  {| sp_mesh := mesh; sp_shapeset := shapeset; sp_order := 1;
     sp_bc_type := fun _ => BC_NATURAL;
     sp_bc_value := fun _ _ _ _ => dzero;
     sp_first_dof := 0; sp_ndofs := 0; sp_dofs := [] |}.

Definition H1Space (mesh : Mesh) (shapeset : ShapesetKind) : Space :=
  Space_new mesh shapeset.
Definition L2Space (mesh : Mesh) (shapeset : ShapesetKind) : Space :=
  Space_new mesh shapeset.

Definition set_bc_types (f : Z -> BCType) (sp : Space) : Space :=
  {| sp_mesh := sp_mesh sp; sp_shapeset := sp_shapeset sp;
     sp_order := sp_order sp; sp_bc_type := f;
     sp_bc_value := sp_bc_value sp; sp_first_dof := sp_first_dof sp;
     sp_ndofs := sp_ndofs sp; sp_dofs := sp_dofs sp |}.

Definition set_bc_values (f : double -> Z -> double -> double -> double)
    (sp : Space) : Space :=
  {| sp_mesh := sp_mesh sp; sp_shapeset := sp_shapeset sp;
     sp_order := sp_order sp; sp_bc_type := sp_bc_type sp;
     sp_bc_value := f; sp_first_dof := sp_first_dof sp;
     sp_ndofs := sp_ndofs sp; sp_dofs := sp_dofs sp |}.

Definition set_uniform_order (order : nat) (sp : Space) : Space :=
  {| sp_mesh := sp_mesh sp; sp_shapeset := sp_shapeset sp;
     sp_order := order; sp_bc_type := sp_bc_type sp;
     sp_bc_value := sp_bc_value sp; sp_first_dof := sp_first_dof sp;
     sp_ndofs := sp_ndofs sp; sp_dofs := sp_dofs sp |}.

(** The essential value of a carrier, if its boundary part is classified
    essential. *)
Definition essential_value (bc_type : Z -> BCType)
    (bc_value : Z -> double -> double -> double) (n : Node) : option scalar :=
  match node_marker n with
  | Some m =>
      match bc_type m with
      | BC_ESSENTIAL => Some (ideal (bc_value m (node_x n) (node_y n)))
      | _ => None
      end
  | None => None
  end.

(** Modelled from the spec: the "DOF numbering", "deterministic and
    stable across repeated calls": the carriers are numbered in mesh
    order, starting at [next]; a carrier on an essential boundary part
    gets its boundary value instead of an index.  Returns the numbering
    and the first unused index. *)
Fixpoint number_dofs (bc_type : Z -> BCType)
    (bc_value : Z -> double -> double -> double)
    (next : Z) (ns : list Node) : list DofRef * Z :=
  match ns with
  | [] => ([], next)
  | n :: ns' =>
      match essential_value bc_type bc_value n with
      | Some g =>
          let '(ds, next') := number_dofs bc_type bc_value next ns' in
          (Essential g :: ds, next')
      | None =>
          let '(ds, next') := number_dofs bc_type bc_value (next + 1)%Z ns' in
          (Free next :: ds, next')
      end
  end.

(** Modelled from the spec: "assign_dofs(start_index) -> count",
    "mutates the space's internal DOF map"; the essential values are
    recomputed with the time of the call. *)
Definition assign_dofs (TIME : double) (sp : Space) (first_dof : Z)
    : Space * Z :=
  let '(dofs, next_dof) :=
    number_dofs (sp_bc_type sp) (sp_bc_value sp TIME) first_dof
      (carriers (sp_mesh sp) (sp_shapeset sp) (sp_order sp)) in
  ({| sp_mesh := sp_mesh sp; sp_shapeset := sp_shapeset sp;
      sp_order := sp_order sp; sp_bc_type := sp_bc_type sp;
      sp_bc_value := sp_bc_value sp; sp_first_dof := first_dof;
      sp_ndofs := (next_dof - first_dof)%Z; sp_dofs := dofs |},
   (next_dof - first_dof)%Z).

(** The numbering entry of a carrier ([None] before any assignment). *)
Definition dof_of (sp : Space) (c : nat) : option DofRef := sp_dofs sp !! c.

(** The global indices a space uses, in carrier order. *)
Definition free_dofs (ds : list DofRef) : list Z :=
  omap (fun d => match d with Free k => Some k | Essential _ => None end) ds.

(** ** Solution fields

    Modelled from the spec: [Solution::set_zero] and
    [Solution::set_fe_solution] are not in main.cpp.  A solution field is
    the coefficient vector of its space seen as a function on the mesh: it
    is kept as one tabulated function per element.  Decoding slices the
    flat vector with the numbering of the space: a free coefficient is the
    vector entry at its global index, an essential one is the boundary
    value. *)

Abbreviation Vec := (Z -> scalar) (only parsing).

Abbreviation Solution := (list ActiveSolution) (only parsing).

Definition zero_fn (npts : nat) : RealFunction := replicate npts zero_sample.

(** Modelled from the spec: "set_zero(mesh) creates an all-zero
    coefficient field (initial condition)". *)
Definition set_zero (mesh : Mesh) : Solution :=
  map (fun e => {| as_fn := zero_fn (length (el_refmap e));
                   get_refmap := el_refmap e |})
      (elements mesh).

(** Modelled from the spec: the coefficient of a shape function in the
    decoded field, "using each field's own space/order to slice the
    correct coefficient window". *)
Definition coef (X : Vec) (d : option DofRef) : scalar :=
  match d with
  | Some (Free k) => X k
  | Some (Essential g) => g
  | None => 0
  end.

Definition sample_axpy (a : scalar) (s acc : Sample) : Sample :=
  {| val := a * val s + val acc;
     dx := a * dx s + dx acc;
     dy := a * dy s + dy acc |}.

(** Value of the decoded field at quadrature point [q] of an element. *)
Definition eval_at (sp : Space) (X : Vec) (shapes : list Shape) (q : nat)
    : Sample :=
  foldr (fun sh acc =>
           sample_axpy (coef X (dof_of sp (fst sh)))
                       (nth q (snd sh) zero_sample) acc)
        zero_sample shapes.

(** Modelled from the spec: "set_from_coefficients(space, coefficients)
    binds a flat numeric slice into a field usable by subsequent kernel
    evaluations". *)
Definition set_fe_solution (sp : Space) (pss : ShapesetKind) (X : Vec)
    : Solution :=
  map (fun e =>
         {| as_fn := map (eval_at sp X (el_shapes e pss (sp_order sp)))
                         (seq 0 (length (el_refmap e)));
            get_refmap := el_refmap e |})
      (elements (sp_mesh sp)).

(** ** Assembler

    Modelled from the spec: [LinSystem::assemble], [get_matrix] and
    [get_rhs] are not in main.cpp.  "For every mesh element and every
    declared term, computes the local contribution via numerical
    quadrature and scatter-adds it into the global matrix/RHS at the
    global row/column determined by each field's DOF offsets";
    "contributions accumulate additively; symmetric terms compute one
    triangular block and mirror it exactly; antisymmetric terms compute
    both blocks with exactly opposite sign".  The system has dimension
    "total DOFs".  A trial function fixed by an essential condition is not
    an unknown: its column, times the boundary value, moves to the
    right-hand side; a test function fixed by an essential condition has
    no row.  The storage layout of the sparse matrix is not modelled: the
    matrix is its entry function. *)

(** Modelled from the spec: "LinearSystem: {sparse matrix of dimension
    = total DOFs, RHS vector of same length}". *)
Record LinSystem : Type := {
  ls_n : Z;
  ls_A : Z -> Z -> scalar;
  ls_rhs : Vec
}.

(** Modelled from the spec: "duplicate (row,col) contributions ... are
    additive, never overwritten". *)
Definition mat_add (r c : Z) (v : scalar) (A : Z -> Z -> scalar)
    : Z -> Z -> scalar :=
  fun i j => if decide (i = r /\ j = c) then A i j + v else A i j.

Definition vec_add (r : Z) (v : scalar) (b : Vec) : Vec :=
  fun i => if decide (i = r) then b i + v else b i.

Definition zero_system (n : Z) : LinSystem :=
  {| ls_n := n; ls_A := fun _ _ => 0; ls_rhs := fun _ => 0 |}.

(** Modelled from the spec: the scatter-add of one local value at
    (row, col). *)
Definition scatter (row col : option DofRef) (v : scalar) (s : LinSystem)
    : LinSystem :=
  match row, col with
  | Some (Free r), Some (Free c) =>
      {| ls_n := ls_n s; ls_A := mat_add r c v (ls_A s); ls_rhs := ls_rhs s |}
  | Some (Free r), Some (Essential g) =>
      {| ls_n := ls_n s; ls_A := ls_A s;
         ls_rhs := vec_add r (- (v * g)) (ls_rhs s) |}
  | _, _ => s
  end.

(** Modelled from the spec: how the mirrored entry of a local value is
    obtained: not at all, "mirror it exactly", or "with exactly opposite
    sign". *)
Inductive Mirror : Type := NoMirror | MirrorSame | MirrorNegated.

(** A local value to compute: test shape, trial shape, mirroring. *)
Abbreviation LocalPair := (Shape * Shape * Mirror)%type (only parsing).

Definition all_pairs (mirror : Mirror) (tests trials : list Shape)
    : list LocalPair :=
  flat_map (fun t => map (fun u => (t, u, mirror)) trials) tests.

(** Modelled from the spec: the "one triangular block" of a symmetric
    term: every shape with itself and with the shapes before it. *)
Fixpoint triangle (l : list Shape) : list LocalPair :=
  match l with
  | [] => []
  | x :: l' =>
      (x, x, NoMirror) :: map (fun y => (y, x, MirrorSame)) l' ++ triangle l'
  end.

(** Modelled from the spec: the local values a term computes on an
    element, by its symmetry tag. *)
Definition term_pairs (t : BiForm) (tests trials : list Shape)
    : list LocalPair :=
  match bf_sym t with
  | UNSYM => all_pairs NoMirror tests trials
  | ANTISYM => all_pairs MirrorNegated tests trials
  | SYM =>
      if decide (bf_i t = bf_j t) then triangle tests
      else all_pairs MirrorSame tests trials
  end.

(** Modelled from the spec: one kernel evaluation (trial function, test
    function, geometric mapping) and its scatter-add, with the mirrored
    entry when the tag asks for one. *)
Definition add_pair (env : KernelEnv) (t : BiForm) (e : Element)
    (spm spn : Space) (s : LinSystem) (pr : LocalPair) : LinSystem :=
  let '(test, trial, mirror) := pr in
  let v := bf_fn t env (snd trial) (snd test) (el_refmap e) (el_refmap e) in
  let s := scatter (dof_of spm (fst test)) (dof_of spn (fst trial)) v s in
  match mirror with
  | NoMirror => s
  | MirrorSame =>
      scatter (dof_of spn (fst trial)) (dof_of spm (fst test)) v s
  | MirrorNegated =>
      scatter (dof_of spn (fst trial)) (dof_of spm (fst test)) (- v) s
  end.

(** The shapes of field [i] on an element. *)
Definition shapes_on (spaces : list Space) (pss : list ShapesetKind)
    (i : nat) (e : Element) : list Shape :=
  match spaces !! i, pss !! i with
  | Some sp, Some ps => el_shapes e ps (sp_order sp)
  | _, _ => []
  end.

(** Modelled from the spec: the contribution of one bilinear term on
    one element. *)
Definition assemble_biform (spaces : list Space) (pss : list ShapesetKind)
    (env : KernelEnv) (e : Element) (s : LinSystem) (t : BiForm)
    : LinSystem :=
  match spaces !! bf_i t, spaces !! bf_j t with
  | Some spm, Some spn =>
      fold_left (add_pair env t e spm spn)
        (term_pairs t (shapes_on spaces pss (bf_i t) e)
                      (shapes_on spaces pss (bf_j t) e))
        s
  | _, _ => s
  end.

(** Modelled from the spec: the contribution of one linear term for one
    test function. *)
Definition add_load (env : KernelEnv) (t : LiForm) (e : Element)
    (spm : Space) (s : LinSystem) (test : Shape) : LinSystem :=
  match dof_of spm (fst test) with
  | Some (Free r) =>
      {| ls_n := ls_n s; ls_A := ls_A s;
         ls_rhs := vec_add r (lf_fn t env (snd test) (el_refmap e)) (ls_rhs s) |}
  | _ => s
  end.

Definition assemble_liform (spaces : list Space) (pss : list ShapesetKind)
    (env : KernelEnv) (e : Element) (s : LinSystem) (t : LiForm)
    : LinSystem :=
  match spaces !! lf_i t with
  | Some spm =>
      fold_left (add_load env t e spm) (shapes_on spaces pss (lf_i t) e) s
  | None => s
  end.

(** Modelled from the spec: the "frozen dependency snapshot" on element
    number [k]. *)
Definition activate (sln : Solution) (k : nat) (e : Element) : ActiveSolution :=
  default {| as_fn := zero_fn (length (el_refmap e));
             get_refmap := el_refmap e |}
          (sln !! k).

(** Modelled from the spec: all terms on one element, the bilinear ones
    first. *)
Definition assemble_element (wf : WeakForm) (spaces : list Space)
    (pss : list ShapesetKind) (xprev yprev : Solution)
    (s : LinSystem) (ke : nat * Element) : LinSystem :=
  let '(k, e) := ke in
  let env := {| env_xprev := activate xprev k e;
                env_yprev := activate yprev k e |} in
  let s := fold_left (assemble_biform spaces pss env e) (wf_biforms wf) s in
  fold_left (assemble_liform spaces pss env e) (wf_liforms wf) s.

(** Modelled from the spec: "for every mesh element": the mesh the
    system iterates over is the mesh of its spaces. *)
Definition system_elements (spaces : list Space) : list Element :=
  match spaces with
  | sp :: _ => elements (sp_mesh sp)
  | [] => []
  end.

(** Modelled from the spec: "total system dimension = sum of per-field
    DOF counts". *)
Definition total_dofs (spaces : list Space) : Z :=
  foldr (fun sp n => (sp_ndofs sp + n)%Z) 0%Z spaces.

(** Modelled from the spec: "assemble(weak_form, spaces,
    previous_snapshot) -> LinearSystem". *)
Definition assemble (wf : WeakForm) (spaces : list Space)
    (pss : list ShapesetKind) (xprev yprev : Solution) : LinSystem :=
  let els := system_elements spaces in
  fold_left (assemble_element wf spaces pss xprev yprev)
    (zip (seq 0 (length els)) els)
    (zero_system (total_dofs spaces)).

End Hermes2d.

Import Hermes2d.

(** * The program: main.cpp *)

(** ** The tunable constants (main.cpp, lines 32-43)

    The source declares them as global constants "that can be played
    with"; they are collected in a record so that properties can be stated
    for every choice, and [source_params] holds the values of the file. *)

Record Params : Type := {
  RE : double;                (* Reynolds number *)
  VEL_INLET : double;         (* inlet velocity (reached after STARTUP_TIME) *)
  STARTUP_TIME : double;      (* ramp-up duration *)
  TAU : double;               (* time step *)
  FINAL_TIME : double;        (* length of time interval *)
  P_INIT_VEL : nat;           (* polynomial degree for velocity components *)
  P_INIT_PRESSURE : nat;      (* polynomial degree for pressure *)
  H : double                  (* domain height *)
}.

Definition source_params : Params := {|
  RE := double_of_Z 1000;           (* 1000.0 *)
  VEL_INLET := double_of_Z 1;       (* 1.0 *)
  STARTUP_TIME := double_of_Z 1;    (* 1.0 *)
  TAU := double_lit 5 10;           (* 0.5 *)
  FINAL_TIME := double_of_Z 3000;   (* 3000.0 *)
  P_INIT_VEL := 2;
  P_INIT_PRESSURE := 1;
  H := double_of_Z 10               (* 10 *)
|}.

(** ** Boundary markers (main.cpp, lines 46-50) *)

Definition marker_bottom : Z := 1.
Definition marker_right : Z := 2.
Definition marker_top : Z := 3.
Definition marker_left : Z := 4.
Definition marker_obstacle : Z := 5.

(** ** Boundary conditions (main.cpp, lines 56-78) *)

Definition xvel_bc_type (marker : Z) : BCType :=
  if decide (marker = marker_right) then BC_NONE else BC_ESSENTIAL.

Definition yvel_bc_type (marker : Z) : BCType :=
  if decide (marker = marker_right) then BC_NONE else BC_ESSENTIAL.

Definition press_bc_type (marker : Z) : BCType := BC_NONE.

(** The local [val_y] of [xvel_bc_value] (main.cpp, line 73):
    [VEL_INLET * y*(H-y) / (H/2.)/(H/2.)], evaluated from left to right. *)
Definition val_y (p : Params) (y : double) : double :=
  ddiv (ddiv (dmul (dmul (VEL_INLET p) y) (dsub (H p) y))
             (ddiv (H p) (double_of_Z 2)))
       (ddiv (H p) (double_of_Z 2)).

(** [xvel_bc_value] reads the global [TIME]; the global is an explicit
    argument here.  Its result type [scalar] is [double] in the source. *)
Definition xvel_bc_value (p : Params) (TIME : double)
    (marker : Z) (x y : double) : double :=
  if decide (marker = marker_left) then
    let val_y := val_y p y in
    if dle TIME (STARTUP_TIME p) then ddiv (dmul val_y TIME) (STARTUP_TIME p)
    else val_y
  else dzero.

(** The steady inlet profile as the specification writes it, in exact
    arithmetic: [inlet_velocity * y*(H-y) / (H/2)^2]. *)
Definition profile (p : Params) (y : scalar) : scalar :=
  ideal (VEL_INLET p) * (y * (ideal (H p) - y)) / ((ideal (H p) / 2) ^ 2).

(** ** Weak-form kernels (main.cpp, lines 80-100)

    The kernels read the global solutions [xprev] and [yprev]; they see
    them through the [KernelEnv] the assembler passes.  They compute with
    the scalars of the library, into which [RE] and [TAU] enter with their
    exact values. *)

Definition bilinear_form_sym_0_0_1_1 (p : Params) : BiFormFn :=
  fun env fu fv ru rv =>
    int_grad_u_grad_v fu fv ru rv / ideal (RE p)
    + int_u_v fu fv ru rv / ideal (TAU p).

Definition bilinear_form_unsym_0_0_1_1 : BiFormFn :=
  fun env fu fv ru rv =>
    int_w_nabla_u_v (env_xprev env) (env_yprev env) fu fv ru rv.

Definition bilinear_form_unsym_0_2 : BiFormFn :=
  fun env fp fv rp rv => - int_u_dvdx fp fv rp rv.

Definition bilinear_form_unsym_1_2 : BiFormFn :=
  fun env fp fv rp rv => - int_u_dvdy fp fv rp rv.

Definition linear_form_0 (p : Params) : LiFormFn :=
  fun env fv rv =>
    int_u_v (env_xprev env) fv (get_refmap (env_xprev env)) rv
    / ideal (TAU p).

Definition linear_form_1 (p : Params) : LiFormFn :=
  fun env fv rv =>
    int_u_v (env_yprev env) fv (get_refmap (env_yprev env)) rv
    / ideal (TAU p).

(** The weak formulation set up by [main] (main.cpp, lines 163-171). *)
Definition main_weak_form (p : Params) : WeakForm :=
  let wf := WeakForm_new 3 in
  let wf := add_biform 0 0 (bilinear_form_sym_0_0_1_1 p) SYM [] wf in
  let wf := add_biform 0 0 bilinear_form_unsym_0_0_1_1 UNSYM [Xprev; Yprev] wf in
  let wf := add_biform 1 1 (bilinear_form_sym_0_0_1_1 p) SYM [] wf in
  let wf := add_biform 1 1 bilinear_form_unsym_0_0_1_1 UNSYM [Xprev; Yprev] wf in
  let wf := add_biform 0 2 bilinear_form_unsym_0_2 ANTISYM [] wf in
  let wf := add_biform 1 2 bilinear_form_unsym_1_2 ANTISYM [] wf in
  let wf := add_liform 0 (linear_form_0 p) [Xprev] wf in
  let wf := add_liform 1 (linear_form_1 p) [Yprev] wf in
  wf.

(** ** The external linear solve

    main.cpp hands the matrix and the right-hand side to an embedded
    interpreter ([cmd("x = spsolve(A, rhs)")]) and reads the symbol [x]
    back.  [cmd] returns nothing, so whether the solve succeeded is not
    visible to [main]: [solve_x] is the array the symbol [x] refers to
    after the command, [solve_ok] tells whether it is a solution. *)

Record SolveResult : Type := {
  solve_ok : bool;
  solve_x : Vec
}.

(** ** Program state and observable calls *)

Inductive SpaceId : Type := Xvel | Yvel | Press.

(** The calls of one run, in program order, each with what it reads of
    the globals: the [info] line of a time step, a DOF assignment (which
    evaluates the boundary values at the global time), an assembly (which
    reads the global time and the two previous-step fields), a solve, and
    the decoding of a field. *)
Inductive Event : Type :=
| EvInfo (i : Z) (time : double)
| EvAssignDofs (sp : SpaceId) (first_dof : Z) (time : double)
| EvAssemble (time : double) (anchor_x anchor_y : Solution)
| EvSolve (ok : bool)
| EvDecode (sp : SpaceId) (sln : Solution).

(** The globals [TIME], [xprev], [yprev] and the objects of [main] that
    are mutated through pointers: the three spaces and the linear system.
    [trace] records the calls made so far. *)
Record World : Type := {
  TIME : double;
  xprev : Solution;
  yprev : Solution;
  xvel : Space;
  yvel : Space;
  press : Space;
  sys : LinSystem;
  trace : list Event
}.

Definition set_TIME (t : double) (w : World) : World :=
  {| TIME := t; xprev := xprev w; yprev := yprev w; xvel := xvel w;
     yvel := yvel w; press := press w; sys := sys w; trace := trace w |}.

Definition set_xprev (s : Solution) (w : World) : World :=
  {| TIME := TIME w; xprev := s; yprev := yprev w; xvel := xvel w;
     yvel := yvel w; press := press w; sys := sys w; trace := trace w |}.

Definition set_yprev (s : Solution) (w : World) : World :=
  {| TIME := TIME w; xprev := xprev w; yprev := s; xvel := xvel w;
     yvel := yvel w; press := press w; sys := sys w; trace := trace w |}.

Definition get_space (id : SpaceId) (w : World) : Space :=
  match id with Xvel => xvel w | Yvel => yvel w | Press => press w end.

Definition set_space (id : SpaceId) (sp : Space) (w : World) : World :=
  {| TIME := TIME w; xprev := xprev w; yprev := yprev w;
     xvel := match id with Xvel => sp | _ => xvel w end;
     yvel := match id with Yvel => sp | _ => yvel w end;
     press := match id with Press => sp | _ => press w end;
     sys := sys w; trace := trace w |}.

Definition set_sys (s : LinSystem) (w : World) : World :=
  {| TIME := TIME w; xprev := xprev w; yprev := yprev w; xvel := xvel w;
     yvel := yvel w; press := press w; sys := s; trace := trace w |}.

Definition log (ev : Event) (w : World) : World :=
  {| TIME := TIME w; xprev := xprev w; yprev := yprev w; xvel := xvel w;
     yvel := yvel w; press := press w; sys := sys w;
     trace := trace w ++ [ev] |}.

(** A state monad over the program state. *)
Definition M (A : Type) : Type := World -> A * World.

Definition ret {A : Type} (a : A) : M A := fun w => (a, w).

Definition bind {A B : Type} (c : M A) (k : A -> M B) : M B :=
  fun w => let '(a, w') := c w in k a w'.

Notation "x <- c ;; k" := (bind c (fun x => k))
  (at level 100, c at next level, right associativity).
Notation "c ;; k" := (bind c (fun _ => k))
  (at level 100, right associativity).

Definition modify (f : World -> World) : M unit := fun w => (tt, f w).

Definition exec {A : Type} (c : M A) (w : World) : World := snd (c w).

(** [for (int i = first; ...; i++) body], run [count] times. *)
Fixpoint for_loop (count : nat) (i : Z) (body : Z -> M unit) : M unit :=
  match count with
  | O => ret tt
  | S count' => body i ;; for_loop count' (i + 1)%Z body
  end.

(** ** Conversion of the step count (main.cpp, line 197)

    [int num_time_steps = FINAL_TIME / TAU;] divides in binary64 and
    truncates the rounded quotient toward zero.  The conversion is
    undefined when the truncated value is not an [int], and when the
    quotient is an infinity or not a number (as it is when [TAU] is
    zero). *)

Definition INT_MIN : Z := (- 2 ^ 31)%Z.
Definition INT_MAX : Z := (2 ^ 31 - 1)%Z.

Definition truncate (q : scalar) : Z := (Qnum q ÷ Zpos (Qden q))%Z.

Definition double_to_int (d : double) : option Z :=
  if is_finite d then
    let z := truncate (ideal d) in
    if decide (INT_MIN <= z <= INT_MAX)%Z then Some z else None
  else None.

Definition num_time_steps (p : Params) : option Z :=
  double_to_int (ddiv (FINAL_TIME p) (TAU p)).

(** ** The program (main.cpp, lines 103-263) *)

Section Main.

Variable p : Params.
Variable spsolve : LinSystem -> SolveResult.

(** [TIME += TAU;] *)
Definition advance_time : M unit :=
  modify (fun w => set_TIME (dadd (TIME w) (TAU p)) w).

(** [info("---- Time step %d, time = %g ...", i, TIME);] *)
Definition info (i : Z) : M unit :=
  modify (fun w => log (EvInfo i (TIME w)) w).

(** [space.assign_dofs(first_dof)]: the boundary-value callback of the
    space reads the global [TIME] during the call. *)
Definition space_assign_dofs (id : SpaceId) (first_dof : Z) : M Z :=
  fun w =>
    let '(sp, n) := assign_dofs (TIME w) (get_space id w) first_dof in
    (n, log (EvAssignDofs id first_dof (TIME w)) (set_space id sp w)).

(** [ndofs = 0; ndofs += xvel.assign_dofs(ndofs); ...] *)
Definition assign_all_dofs : M Z :=
  let ndofs := 0%Z in
  n <- space_assign_dofs Xvel ndofs ;;
  let ndofs := (ndofs + n)%Z in
  n <- space_assign_dofs Yvel ndofs ;;
  let ndofs := (ndofs + n)%Z in
  n <- space_assign_dofs Press ndofs ;;
  let ndofs := (ndofs + n)%Z in
  ret ndofs.

(** [sys.set_spaces(3, &xvel, &yvel, &press)] and
    [sys.set_pss(3, &pss_h1, &pss_h1, &pss_l2)]: the system holds
    pointers, so it sees the spaces as they are when it assembles. *)
Definition sys_spaces (w : World) : list Space := [xvel w; yvel w; press w].
Definition sys_pss : list ShapesetKind :=
  [H1ShapesetBeuchler; H1ShapesetBeuchler; L2Shapeset].

(** [sys.assemble();] the weak form holds pointers to the globals
    [xprev] and [yprev]. *)
Definition sys_assemble : M unit :=
  modify (fun w =>
    log (EvAssemble (TIME w) (xprev w) (yprev w))
      (set_sys (assemble (main_weak_form p) (sys_spaces w) sys_pss
                  (xprev w) (yprev w)) w)).

(** [sys.get_matrix], [sys.get_rhs], the [insert_*_array] calls,
    [cmd("x = spsolve(A, rhs)")] and the read-back of [x]. *)
Definition python_solve : M Vec :=
  fun w =>
    let r := spsolve (sys w) in
    (solve_x r, log (EvSolve (solve_ok r)) w).

(** [sln.set_fe_solution(sys.get_space(k), sys.get_pss(k), X);] *)
Definition decode (id : SpaceId) (pss : ShapesetKind) (X : Vec)
    : M Solution :=
  fun w =>
    let sln := set_fe_solution (get_space id w) pss X in
    (sln, log (EvDecode id sln) w).

(** The body of the main loop (main.cpp, lines 199-260).  The three
    local solutions are written by [set_fe_solution] before they are
    read, so [psln.set_zero(&mesh)] leaves no trace; the calls that only
    plot the fields have no effect on the state. *)
Definition time_step (i : Z) : M unit :=
  advance_time ;;
  info i ;;
  ndofs <- assign_all_dofs ;;
  sys_assemble ;;
  X <- python_solve ;;
  xsln <- decode Xvel H1ShapesetBeuchler X ;;
  ysln <- decode Yvel H1ShapesetBeuchler X ;;
  psln <- decode Press L2Shapeset X ;;
  modify (set_xprev xsln) ;;
  modify (set_yprev ysln).

(** The state when the loop is entered (main.cpp, lines 113-187); the
    argument is the mesh after loading and refinement. *)
Definition init (mesh : Mesh) : World :=
  let xvel := H1Space mesh H1ShapesetBeuchler in
  let yvel := H1Space mesh H1ShapesetBeuchler in
  let press := L2Space mesh L2Shapeset in
  let xvel := set_bc_types xvel_bc_type xvel in
  let xvel := set_bc_values (xvel_bc_value p) xvel in
  let yvel := set_bc_types yvel_bc_type yvel in
  let press := set_bc_types press_bc_type press in
  let xvel := set_uniform_order (P_INIT_VEL p) xvel in
  let yvel := set_uniform_order (P_INIT_VEL p) yvel in
  let press := set_uniform_order (P_INIT_PRESSURE p) press in
  let w := {| TIME := dzero; xprev := []; yprev := [];
              xvel := xvel; yvel := yvel; press := press;
              sys := zero_system 0; trace := [] |} in
  let w := exec assign_all_dofs w in
  let w := set_xprev (set_zero mesh) w in
  let w := set_yprev (set_zero mesh) w in
  w.

(** The main loop, run for a given number of steps. *)
Definition main_loop (steps : Z) : M unit :=
  for_loop (Z.to_nat steps) 1%Z time_step.

(** The whole program.  [None] stands for undefined behaviour: the
    step count is not an [int], or it is [INT_MAX] and the loop counter
    overflows. *)
Definition main (mesh : Mesh) : option World :=
  match num_time_steps p with
  | Some steps =>
      if decide (steps < INT_MAX)%Z
      then Some (exec (main_loop steps) (init mesh))
      else None
  | None => None
  end.

End Main.

(** ** Observations on a run *)

Definition is_info (ev : Event) : bool :=
  match ev with EvInfo _ _ => true | _ => false end.
Definition is_assemble (ev : Event) : bool :=
  match ev with EvAssemble _ _ _ => true | _ => false end.
Definition is_solve (ev : Event) : bool :=
  match ev with EvSolve _ => true | _ => false end.
Definition same_space (a b : SpaceId) : bool :=
  match a, b with
  | Xvel, Xvel | Yvel, Yvel | Press, Press => true
  | _, _ => false
  end.
Definition is_decode (id : SpaceId) (ev : Event) : bool :=
  match ev with EvDecode id' _ => same_space id id' | _ => false end.

Definition count_events (f : Event -> bool) (tr : list Event) : nat :=
  length (filter (fun ev => f ev = true) tr).

(** The linearization anchors read by the successive assemblies. *)
Definition anchors (tr : list Event) : list (Solution * Solution) :=
  omap (fun ev => match ev with
                  | EvAssemble _ ax ay => Some (ax, ay)
                  | _ => None
                  end) tr.

(** The successive decoded fields of a space. *)
Definition decoded (id : SpaceId) (tr : list Event) : list Solution :=
  omap (fun ev => match ev with
                  | EvDecode id' sln =>
                      if same_space id id' then Some sln else None
                  | _ => None
                  end) tr.

(** The outcomes of the successive solves. *)
Definition solve_outcomes (tr : list Event) : list bool :=
  omap (fun ev => match ev with EvSolve ok => Some ok | _ => None end) tr.

(** The time at which a call evaluates boundary values or assembles. *)
Definition event_time (ev : Event) : option double :=
  match ev with
  | EvInfo _ t | EvAssignDofs _ _ t | EvAssemble t _ _ => Some t
  | EvSolve _ | EvDecode _ _ => None
  end.

(** ** Matrices of single terms *)

Definition symmetric (A : Z -> Z -> scalar) : Prop :=
  forall i j : Z, A i j = A j i.

Definition antisymmetric (A : Z -> Z -> scalar) : Prop :=
  forall i j : Z, A j i = - A i j.

Fixpoint Qcsum (l : list scalar) : scalar :=
  match l with
  | [] => 0
  | x :: l' => x + Qcsum l'
  end.

(** What one bilinear term alone contributes to the global matrix: the
    matrix assembled from the weak form that holds only this term. *)
Definition biform_matrix (spaces : list Space) (pss : list ShapesetKind)
    (xp yp : Solution) (t : BiForm) : Z -> Z -> scalar :=
  ls_A (assemble {| wf_neq := length spaces; wf_biforms := [t];
                    wf_liforms := [] |}
          spaces pss xp yp).

(** An assembly step is additive when it adds to every matrix entry an
    amount that does not depend on what has been accumulated. *)
Definition additive (f : LinSystem -> LinSystem) : Prop :=
  forall (s : LinSystem) (i j : Z),
    ls_A (f s) i j = ls_A s i j + ls_A (f (zero_system 0)) i j.

(** ** Vanishing data *)

(** A space all of whose essential coefficients are zero. *)
Definition zero_essential (sp : Space) : Prop :=
  forall (c : nat) (g : scalar), dof_of sp c = Some (Essential g) -> g = 0.

(** A space whose boundary-value callback gives the value zero
    everywhere, at every time. *)
Definition zero_bc (sp : Space) : Prop :=
  forall (t : double) (m : Z) (x y : double),
    ideal (sp_bc_value sp t m x y) = 0.

Definition rhs_zero (s : LinSystem) : Prop :=
  forall i : Z, ls_rhs s i = 0.

(** The rest state over a mesh: zero previous-step fields, and spaces on
    that mesh without boundary data. *)
Definition rest_state (mesh : Mesh) (w : World) : Prop :=
  xprev w = set_zero mesh /\ yprev w = set_zero mesh
  /\ sp_mesh (xvel w) = mesh /\ sp_mesh (yvel w) = mesh
  /\ sp_mesh (press w) = mesh
  /\ zero_bc (xvel w) /\ zero_bc (yvel w) /\ zero_bc (press w).

(** A matrix all of whose entries lie in the block (rows [Fm], columns
    [Fn]) or in the mirrored block. *)
Definition supported (Fm Fn : list Z) (A : Z -> Z -> scalar) : Prop :=
  forall i j : Z,
    ~ ((i ∈ Fm /\ j ∈ Fn) \/ (i ∈ Fn /\ j ∈ Fm)) -> A i j = 0.

(** ** One iteration, spelled out

    The values computed during one passage through the loop body, as
    functions of the state at the top of the loop.  They are used to state
    what [time_step] does; [time_step] itself is the definition above. *)

Section StepView.

Variable p : Params.
Variable spsolve : LinSystem -> SolveResult.

Definition step_time (w : World) : double := dadd (TIME w) (TAU p).

Definition step_xvel (w : World) : Space :=
  fst (assign_dofs (step_time w) (xvel w) 0).

Definition step_yvel (w : World) : Space :=
  fst (assign_dofs (step_time w) (yvel w) (sp_ndofs (step_xvel w))).

Definition step_press (w : World) : Space :=
  fst (assign_dofs (step_time w) (press w)
         (sp_ndofs (step_xvel w) + sp_ndofs (step_yvel w))).

Definition step_system (w : World) : LinSystem :=
  assemble (main_weak_form p) [step_xvel w; step_yvel w; step_press w]
    sys_pss (xprev w) (yprev w).

Definition step_solve (w : World) : SolveResult := spsolve (step_system w).

Definition step_xsln (w : World) : Solution :=
  set_fe_solution (step_xvel w) H1ShapesetBeuchler (solve_x (step_solve w)).
Definition step_ysln (w : World) : Solution :=
  set_fe_solution (step_yvel w) H1ShapesetBeuchler (solve_x (step_solve w)).
Definition step_psln (w : World) : Solution :=
  set_fe_solution (step_press w) L2Shapeset (solve_x (step_solve w)).

(** The calls of iteration [i] started in state [w], in order. *)
Definition step_events (i : Z) (w : World) : list Event :=
  [ EvInfo i (step_time w);
    EvAssignDofs Xvel 0 (step_time w);
    EvAssignDofs Yvel (sp_ndofs (step_xvel w)) (step_time w);
    EvAssignDofs Press (sp_ndofs (step_xvel w) + sp_ndofs (step_yvel w))
      (step_time w);
    EvAssemble (step_time w) (xprev w) (yprev w);
    EvSolve (solve_ok (step_solve w));
    EvDecode Xvel (step_xsln w);
    EvDecode Yvel (step_ysln w);
    EvDecode Press (step_psln w) ].

(** The state after [k] iterations of the loop entered in state [w]. *)
Definition run (k : nat) (w : World) : World :=
  exec (for_loop k 1%Z (time_step p spsolve)) w.

End StepView.

(** The time after [k] passages through the loop: [TAU] added [k] times
    to the initial zero, every sum rounded. *)
Definition time_after (p : Params) (k : nat) : double :=
  Nat.iter k (fun t => dadd t (TAU p)) dzero.

(** Whether [k] successive additions of [tau], starting from [t], are all
    exact. *)
Fixpoint additions_exact (tau : double) (k : nat) (t : double) : bool :=
  match k with
  | O => true
  | S k' =>
      is_finite (dadd t tau)
      && Qc_eq_bool (ideal (dadd t tau)) (ideal t + ideal tau)
      && additions_exact tau k' (dadd t tau)
  end.

(** A call with the outcome of the solve blanked out. *)
Definition forget_outcome (ev : Event) : Event :=
  match ev with
  | EvSolve _ => EvSolve true
  | _ => ev
  end.

(** Two states that differ at most in the recorded solve outcomes. *)
Definition same_but_outcomes (w1 w2 : World) : Prop :=
  TIME w1 = TIME w2 /\ xprev w1 = xprev w2 /\ yprev w1 = yprev w2
  /\ xvel w1 = xvel w2 /\ yvel w1 = yvel w2 /\ press w1 = press w2
  /\ sys w1 = sys w2
  /\ map forget_outcome (trace w1) = map forget_outcome (trace w2).

(** ** A small mesh and some solve services, for concrete runs *)

Definition smp (v a b : Z) : Sample := {| val := qz v; dx := qz a; dy := qz b |}.

(** One element with two quadrature points; three velocity carriers (on
    the inlet, inside, on the outlet) and one pressure carrier. *)
Definition toy_element : Element :=
  {| el_refmap := [qfrac 1 2; qfrac 1 2];
     el_shapes := fun ps _ =>
       match ps with
       | H1ShapesetBeuchler =>
           [(0%nat, [smp 1 (-1) 0; smp 0 (-1) 0]);
            (1%nat, [smp 0 1 (-1); smp 1 1 1]);
            (2%nat, [smp 1 0 1; smp 1 0 (-1)])]
       | L2Shapeset => [(0%nat, [smp 1 0 0; smp 1 0 0])]
       end |}.

Definition toy_mesh : Mesh :=
  {| elements := [toy_element];
     carriers := fun ps _ =>
       match ps with
       | H1ShapesetBeuchler =>
           [ {| node_marker := Some marker_left;
                node_x := dzero; node_y := double_of_Z 5 |};
             {| node_marker := None;
                node_x := double_of_Z 1; node_y := double_of_Z 5 |};
             {| node_marker := Some marker_right;
                node_x := double_of_Z 2; node_y := double_of_Z 5 |} ]
       | L2Shapeset =>
           [ {| node_marker := None;
                node_x := double_of_Z 1; node_y := double_of_Z 5 |} ]
       end |}.

(** A solve service that answers with the right-hand side (exact when the
    matrix is the identity). *)
Definition rhs_solver (s : LinSystem) : SolveResult :=
  {| solve_ok := true; solve_x := ls_rhs s |}.

(** A solve service that always fails and leaves an array of ones. *)
Definition failing_solver (s : LinSystem) : SolveResult :=
  {| solve_ok := false; solve_x := fun _ => 1 |}.

(** A solve service that reports success and leaves the same array. *)
Definition ones_solver (s : LinSystem) : SolveResult :=
  {| solve_ok := true; solve_x := fun _ => 1 |}.

(** Final time 1.0 with step 0.3: the quotient is not an integer. *)
Definition small_params : Params := {|
  RE := double_of_Z 1000; VEL_INLET := double_of_Z 1;
  STARTUP_TIME := double_of_Z 1; TAU := double_lit 3 10;
  FINAL_TIME := double_of_Z 1; P_INIT_VEL := 2; P_INIT_PRESSURE := 1;
  H := double_of_Z 10 |}.

(** Final time 1.0 with step 0.1: neither the step nor its multiples are
    doubles. *)
Definition tenth_params : Params := {|
  RE := double_of_Z 1000; VEL_INLET := double_of_Z 1;
  STARTUP_TIME := double_of_Z 1; TAU := double_lit 1 10;
  FINAL_TIME := double_of_Z 1; P_INIT_VEL := 2; P_INIT_PRESSURE := 1;
  H := double_of_Z 10 |}.

(** The source's constants with the inlet switched off. *)
Definition still_params : Params := {|
  RE := double_of_Z 1000; VEL_INLET := double_of_Z 0;
  STARTUP_TIME := double_of_Z 1; TAU := double_lit 5 10;
  FINAL_TIME := double_of_Z 2; P_INIT_VEL := 2; P_INIT_PRESSURE := 1;
  H := double_of_Z 10 |}.

(** Final time 1.0 with step 2.0: the final time is reached before the
    first step ends. *)
Definition short_params : Params := {|
  RE := double_of_Z 1000; VEL_INLET := double_of_Z 1;
  STARTUP_TIME := double_of_Z 1; TAU := double_of_Z 2;
  FINAL_TIME := double_of_Z 1; P_INIT_VEL := 2; P_INIT_PRESSURE := 1;
  H := double_of_Z 10 |}.

(** ** The spaces of [main], in closed form *)

(** Whether a carrier lies on a boundary part classified essential. *)
Definition on_essential (bc_type : Z -> BCType) (n : Node) : bool :=
  match node_marker n with
  | Some m =>
      match bc_type m with
      | BC_ESSENTIAL => true
      | _ => false
      end
  | None => false
  end.

(** The number of carriers of a list that carry an unknown. *)
Fixpoint count_unknowns (bc_type : Z -> BCType) (ns : list Node) : Z :=
  match ns with
  | [] => 0
  | n :: ns' =>
      if on_essential bc_type n then count_unknowns bc_type ns'
      else (1 + count_unknowns bc_type ns')%Z
  end.

Section Setup.

Variable p : Params.
Variable mesh : Mesh.

(** The three spaces as [main] configures them (main.cpp, lines
    137-150), before any DOF assignment. *)
Definition xvel_setup : Space :=
  set_uniform_order (P_INIT_VEL p)
    (set_bc_values (xvel_bc_value p)
       (set_bc_types xvel_bc_type (H1Space mesh H1ShapesetBeuchler))).

Definition yvel_setup : Space :=
  set_uniform_order (P_INIT_VEL p)
    (set_bc_types yvel_bc_type (H1Space mesh H1ShapesetBeuchler)).

Definition press_setup : Space :=
  set_uniform_order (P_INIT_PRESSURE p)
    (set_bc_types press_bc_type (L2Space mesh L2Shapeset)).

(** The three spaces after the assignments [ndofs = 0; ndofs +=
    xvel.assign_dofs(ndofs); ...] made at time [t]. *)
Definition xvel_at (t : double) : Space :=
  fst (assign_dofs t xvel_setup 0).

Definition yvel_at (t : double) : Space :=
  fst (assign_dofs t yvel_setup (sp_ndofs (xvel_at t))).

Definition press_at (t : double) : Space :=
  fst (assign_dofs t press_setup
         (sp_ndofs (xvel_at t) + sp_ndofs (yvel_at t))).

(** The carriers of a velocity component and of the pressure. *)
Definition vel_carriers : list Node :=
  carriers mesh H1ShapesetBeuchler (P_INIT_VEL p).

Definition press_carriers : list Node :=
  carriers mesh L2Shapeset (P_INIT_PRESSURE p).

(** The number of unknowns of one velocity component. *)
Definition vel_unknowns : Z := count_unknowns xvel_bc_type vel_carriers.

End Setup.

(** ** Comparing numberings and matrices *)

(** Two numbering entries that agree up to a shift [z] of the index:
    both are unknowns, the second index being the first plus [z], or both
    are fixed (possibly to different values), or both are absent. *)
Definition dof_shifted (z : Z) (d d' : option DofRef) : Prop :=
  match d, d' with
  | Some (Free k), Some (Free k') => k' = (k + z)%Z
  | Some (Essential _), Some (Essential _) => True
  | None, None => True
  | _, _ => False
  end.

Definition numbered_alike (z : Z) (sp sp' : Space) : Prop :=
  forall c : nat, dof_shifted z (dof_of sp c) (dof_of sp' c).

(** The second matrix is the first one moved by [z] along the
    diagonal. *)
Definition shifted (z : Z) (A A' : Z -> Z -> scalar) : Prop :=
  forall i j : Z, A' (i + z)%Z (j + z)%Z = A i j.

(** ** The terms of [main]'s weak form *)

(** The term registered for the diagonal block [(i, i)] with the kernel
    [bilinear_form_sym_0_0_1_1] (main.cpp, lines 164 and 166). *)
Definition viscous_term (p : Params) (i : nat) : BiForm :=
  {| bf_i := i; bf_j := i; bf_fn := bilinear_form_sym_0_0_1_1 p;
     bf_sym := SYM; bf_ext := [] |}.

(** The term registered for the diagonal block [(i, i)] with the kernel
    [bilinear_form_unsym_0_0_1_1] (main.cpp, lines 165 and 167). *)
Definition convective_term (i : nat) : BiForm :=
  {| bf_i := i; bf_j := i; bf_fn := bilinear_form_unsym_0_0_1_1;
     bf_sym := UNSYM; bf_ext := [Xprev; Yprev] |}.

(** The two velocity-pressure couplings (main.cpp, lines 168 and 169). *)
Definition pressure_term_x : BiForm :=
  {| bf_i := 0; bf_j := 2; bf_fn := bilinear_form_unsym_0_2;
     bf_sym := ANTISYM; bf_ext := [] |}.

Definition pressure_term_y : BiForm :=
  {| bf_i := 1; bf_j := 2; bf_fn := bilinear_form_unsym_1_2;
     bf_sym := ANTISYM; bf_ext := [] |}.

(** What the two convective terms together contribute to the matrix. *)
Definition convection_matrix (spaces : list Space) (xp yp : Solution)
    : Z -> Z -> scalar :=
  fun i j =>
    biform_matrix spaces sys_pss xp yp (convective_term 0) i j
    + biform_matrix spaces sys_pss xp yp (convective_term 1) i j.

(** The spaces the system sees after the assignments made at time [t]. *)
Definition spaces_at (p : Params) (mesh : Mesh) (t : double) : list Space :=
  [xvel_at p mesh t; yvel_at p mesh t; press_at p mesh t].

(** A solve service that answers with the right-hand side, spoiled from
    index [from] on. *)
Definition spoiled_solver (from : Z) (s : LinSystem) : SolveResult :=
  {| solve_ok := true;
     solve_x := fun i => if decide (from <= i)%Z then ls_rhs s i + 1
                         else ls_rhs s i |}.

(** A term with its symmetry tag dropped: all local values are computed,
    none is mirrored. *)
Definition untagged (t : BiForm) : BiForm :=
  {| bf_i := bf_i t; bf_j := bf_j t; bf_fn := bf_fn t; bf_sym := UNSYM;
     bf_ext := bf_ext t |}.

(** Two states with the same globals, spaces and linear system; the
    recorded calls may differ. *)
Definition same_state (w1 w2 : World) : Prop :=
  TIME w1 = TIME w2 /\ xprev w1 = xprev w2 /\ yprev w1 = yprev w2
  /\ xvel w1 = xvel w2 /\ yvel w1 = yvel w2 /\ press w1 = press w2
  /\ sys w1 = sys w2.

(** A call with the step number of the info line blanked out. *)
Definition forget_step_number (ev : Event) : Event :=
  match ev with
  | EvInfo _ t => EvInfo 0 t
  | _ => ev
  end.

(** ** The continuity rows *)

(** Row [r] of the system applied to a vector, minus the right-hand
    side: zero exactly when the vector solves that row. *)
Definition residual_upto (n : Z) (X : Vec) (r : Z) (s : LinSystem) : scalar :=
  Qcsum (map (fun c => ls_A s r c * X c) (seqZ 0 n)) - ls_rhs s r.

Definition row_residual (X : Vec) (r : Z) (s : LinSystem) : scalar :=
  residual_upto (ls_n s) X r s.

Definition solves_row (X : Vec) (r : Z) (s : LinSystem) : Prop :=
  row_residual X r s = 0.

(** The divergence of the velocity field [(u, v)] integrated against the
    pressure basis function of the unknown [r]: the sum, over the
    elements and over the pressure shapes attached to [r], of the
    quadrature of [q * (du/dx + dv/dy)]. *)
Definition weak_divergence (els : list Element) (sq : Space)
    (u v : Solution) (r : Z) : scalar :=
  Qcsum (map (fun ke : nat * Element =>
     Qcsum (map (fun q : nat * list Sample =>
        match dof_of sq (fst q) with
        | Some (Free r') =>
            if decide (r' = r) then
              int_u_dvdx (snd q) (activate u (fst ke) (snd ke))
                (el_refmap (snd ke)) (el_refmap (snd ke))
              + int_u_dvdy (snd q) (activate v (fst ke) (snd ke))
                  (el_refmap (snd ke)) (el_refmap (snd ke))
            else 0
        | _ => 0
        end)
       (el_shapes (snd ke) L2Shapeset (sp_order sq))))
    (zip (seq 0 (length els)) els)).

(** A solve service that leaves an array of halves. *)
Definition halves_solver (s : LinSystem) : SolveResult :=
  {| solve_ok := true; solve_x := fun _ => qfrac 1 2 |}.

(** ** The momentum rows *)

(** One when the numbering entry is the unknown [i], zero otherwise. *)
Definition at_row (i : Z) (d : option DofRef) : scalar :=
  match d with
  | Some (Free i') => if decide (i' = i) then 1 else 0
  | _ => 0
  end.

(** The weak form of one momentum equation of the implicit Euler step on
    one element, tested with the basis function of the unknown [i] of the
    velocity space [sv].  With [u] the new velocity component, [pr] the
    new pressure, [old] the previous value of the component, [(wx, wy)]
    the previous velocity and [int_p_dv] the integral of the pressure
    against the derivative of the test function in the direction of the
    component, it is the quadrature of
    [grad u . grad phi / RE + u phi / TAU + (w . nabla u) phi
     - pr dphi - old phi / TAU]
    over the shapes [phi] attached to [i]. *)
Definition momentum_element (p : Params)
    (int_p_dv : list Sample -> list Sample -> list scalar -> list scalar -> scalar)
    (sv : Space) (u pr old wx wy : Solution) (i : Z) (ke : nat * Element)
    : scalar :=
  Qcsum (map (fun phi : nat * list Sample =>
     at_row i (dof_of sv (fst phi))
     * (int_grad_u_grad_v (activate u (fst ke) (snd ke)) (snd phi)
          (el_refmap (snd ke)) (el_refmap (snd ke)) / ideal (RE p)
        + int_u_v (activate u (fst ke) (snd ke)) (snd phi)
            (el_refmap (snd ke)) (el_refmap (snd ke)) / ideal (TAU p)
        + int_w_nabla_u_v (activate wx (fst ke) (snd ke))
            (activate wy (fst ke) (snd ke)) (activate u (fst ke) (snd ke))
            (snd phi) (el_refmap (snd ke)) (el_refmap (snd ke))
        - int_p_dv (activate pr (fst ke) (snd ke)) (snd phi)
            (el_refmap (snd ke)) (el_refmap (snd ke))
        - int_u_v (activate old (fst ke) (snd ke)) (snd phi)
            (get_refmap (activate old (fst ke) (snd ke)))
            (el_refmap (snd ke)) / ideal (TAU p)))
    (el_shapes (snd ke) H1ShapesetBeuchler (sp_order sv))).

(** The same, summed over the elements. *)
Definition momentum_form (p : Params)
    (int_p_dv : list Sample -> list Sample -> list scalar -> list scalar -> scalar)
    (els : list Element) (sv : Space) (u pr old wx wy : Solution) (i : Z)
    : scalar :=
  Qcsum (map (momentum_element p int_p_dv sv u pr old wx wy i)
             (zip (seq 0 (length els)) els)).

(** * Properties *)

(** ** Doubles *)

Lemma qz_mul (a b : Z) : qz (a * b) = qz a * qz b.
Proof. unfold qz. apply Z2Qc_inj_mul. Qed.

Lemma qz_le (a b : Z) : qz a <= qz b <-> (a <= b)%Z.
Proof.
  unfold qz, Qcle, Qc_of_Z. cbn [this Q2Qc]. rewrite ?Qred_correct.
  rewrite <- Zle_Qle. reflexivity.
Qed.

Lemma pow2_pos (e : Z) : 0 < pow2 e.
Proof.
  unfold pow2, ideal. destruct e as [| k | k].
  - reflexivity.
  - unfold qz, Qclt, Qc_of_Z. cbn [this Q2Qc]. rewrite ?Qred_correct.
    change 0%Q with (inject_Z 0). rewrite <- Zlt_Qlt.
    rewrite Z.mul_1_l. apply Z.pow_pos_nonneg; lia.
  - unfold Qclt. cbn [this Q2Qc]. rewrite ?Qred_correct. reflexivity.
Qed.

(** A finite double is a whole number of units of every exponent that
    is not above its own. *)
Lemma ideal_scaled (s : bool) (m : positive) (e e0 : Z) :
  (e0 <= e)%Z ->
  ideal (S754_finite s m e) = qz (scaled e0 (S754_finite s m e)) * pow2 e0.
Proof.
  intros He. unfold scaled, pow2, ideal.
  set (z := if s then Z.neg m else Z.pos m).
  destruct e0 as [| k0 | k0].
  - rewrite Z.sub_0_r.
    destruct e as [| k | k]; [| | lia].
    + replace (qz (1 * 2 ^ 0)) with 1 by (apply Qc_is_canon; reflexivity). ring.
    + replace (qz (1 * 2 ^ 0)) with 1 by (apply Qc_is_canon; reflexivity). ring.
  - destruct e as [| k | k]; try lia.
    rewrite <- qz_mul. f_equal.
    rewrite Z.mul_1_l, <- Z.mul_assoc, <- Z.pow_add_r by lia.
    f_equal. f_equal. lia.
  - apply Qc_is_canon.
    destruct e as [| k | k];
      unfold Qcmult, qz, Qc_of_Z, Q2Qc; cbn [this]; rewrite ?Qred_correct;
      unfold Qeq; cbn [Qnum Qden Qmult inject_Z].
    + rewrite Pos.mul_1_l, Pos2Z.inj_pow.
      replace (0 - Z.neg k0)%Z with (Z.pos k0) by lia. cbn [Z.pow]. lia.
    + rewrite Pos.mul_1_l, Pos2Z.inj_pow.
      replace (Z.pos k - Z.neg k0)%Z with (Z.pos k + Z.pos k0)%Z by lia.
      rewrite Z.pow_add_r by lia. lia.
    + rewrite !Pos2Z.inj_mul, !Pos2Z.inj_pow.
      replace (2 ^ Z.pos k0)%Z
        with (2 ^ (Z.neg k - Z.neg k0) * 2 ^ Z.pos k)%Z
        by (rewrite <- Z.pow_add_r by lia; f_equal; lia).
      ring.
Qed.

Lemma scaled_zero (e0 : Z) (s : bool) : scaled e0 (S754_zero s) = 0%Z.
Proof. reflexivity. Qed.

(** Finite doubles compare as their numbers of units of a common
    exponent do. *)
Lemma ideal_le_scaled (a b : double) (e0 : Z) :
  match a with S754_finite _ _ e => (e0 <= e)%Z | _ => True end ->
  match b with S754_finite _ _ e => (e0 <= e)%Z | _ => True end ->
  is_finite a = true -> is_finite b = true ->
  (ideal a <= ideal b <-> (scaled e0 a <= scaled e0 b)%Z).
Proof.
  intros Ha Hb Fa Fb.
  assert (Ea : ideal a = qz (scaled e0 a) * pow2 e0).
  { destruct a as [s | s | | s m e]; try discriminate.
    - unfold ideal, scaled.
      replace (qz 0) with 0 by (apply Qc_is_canon; reflexivity). ring.
    - apply ideal_scaled. exact Ha. }
  assert (Eb : ideal b = qz (scaled e0 b) * pow2 e0).
  { destruct b as [s | s | | s m e]; try discriminate.
    - unfold ideal, scaled.
      replace (qz 0) with 0 by (apply Qc_is_canon; reflexivity). ring.
    - apply ideal_scaled. exact Hb. }
  rewrite Ea, Eb, <- qz_le.
  symmetry. apply Qcmult_le_mono_pos_r. apply pow2_pos.
Qed.

Lemma digits2_pos_bounds (m : positive) :
  (2 ^ (Z.pos (digits2_pos m) - 1) <= Z.pos m < 2 ^ Z.pos (digits2_pos m))%Z.
Proof.
  induction m as [m IH | m IH |]; cbn [digits2_pos].
  - rewrite Pos2Z.inj_succ, Z.pow_succ_r by lia.
    replace (Z.succ (Z.pos (digits2_pos m)) - 1)%Z
      with (Z.succ (Z.pos (digits2_pos m) - 1)) by lia.
    rewrite Z.pow_succ_r by lia. lia.
  - rewrite Pos2Z.inj_succ, Z.pow_succ_r by lia.
    replace (Z.succ (Z.pos (digits2_pos m)) - 1)%Z
      with (Z.succ (Z.pos (digits2_pos m) - 1)) by lia.
    rewrite Z.pow_succ_r by lia. lia.
  - cbn. lia.
Qed.

(** What being a double says of a finite value: at most 53 bits, and
    exactly 53 unless the exponent is the smallest one. *)
Lemma is_double_finite (s : bool) (m : positive) (e : Z) :
  is_double (S754_finite s m e) = true ->
  (Z.pos m < 2 ^ 53)%Z
  /\ (-1074 <= e)%Z
  /\ (e = (-1074)%Z \/ (2 ^ 52 <= Z.pos m)%Z).
Proof.
  unfold is_double, valid_binary, bounded, canonical_mantissa, fexp, emin,
    double_prec, double_emax.
  intros Hv. apply andb_prop in Hv as [Hc _]. apply Z.eqb_eq in Hc.
  pose proof (digits2_pos_bounds m) as [Hlo Hhi].
  set (d := Z.pos (digits2_pos m)) in *.
  assert (Hd : (d <= 53)%Z) by lia.
  split.
  { eapply Z.lt_le_trans; [exact Hhi |]. apply Z.pow_le_mono_r; lia. }
  split; [lia |].
  destruct (Z.eq_dec e (-1074)) as [E | N]; [left; exact E | right].
  assert (d = 53%Z) by lia.
  replace 52%Z with (d - 1)%Z by lia. exact Hlo.
Qed.

(** On doubles that are numbers, [<=] is the order of their values. *)
Lemma dle_ideal (a b : double) :
  is_double a = true -> is_double b = true ->
  is_finite a = true -> is_finite b = true ->
  (dle a b = true <-> ideal a <= ideal b).
Proof.
  intros Va Vb Fa Fb.
  destruct a as [sa | sa | | sa ma ea]; try discriminate;
    destruct b as [sb | sb | | sb mb eb]; try discriminate.
  - split; [intros _; apply Qcle_refl | reflexivity].
  - rewrite (ideal_le_scaled _ _ eb) by (cbn; first [lia | reflexivity]).
    unfold scaled. rewrite Z.sub_diag. unfold dle, SFleb, SFcompare.
    destruct sb; cbn; split; first [discriminate | lia | reflexivity].
  - rewrite (ideal_le_scaled _ _ ea) by (cbn; first [lia | reflexivity]).
    unfold scaled. rewrite Z.sub_diag. unfold dle, SFleb, SFcompare.
    destruct sa; cbn; split; first [discriminate | lia | reflexivity].
  - destruct (is_double_finite _ _ _ Va) as (Ha1 & Ha2 & Ha3).
    destruct (is_double_finite _ _ _ Vb) as (Hb1 & Hb2 & Hb3).
    rewrite (ideal_le_scaled _ _ (Z.min ea eb))
      by (cbn; first [lia | reflexivity]).
    unfold scaled, dle, SFleb, SFcompare.
    assert (Hpa : (0 < 2 ^ (ea - Z.min ea eb))%Z)
      by (apply Z.pow_pos_nonneg; lia).
    assert (Hpb : (0 < 2 ^ (eb - Z.min ea eb))%Z)
      by (apply Z.pow_pos_nonneg; lia).
    destruct (Z.compare_spec ea eb) as [E | L | G].
    + subst eb. rewrite Z.min_id, Z.sub_diag in *.
      rewrite Pos.compare_cont_spec. cbn [Pos.switch_Eq].
      destruct sa, sb; cbn [CompOpp];
        destruct (Pos.compare_spec ma mb); cbn;
        split; first [discriminate | lia | reflexivity].
    + rewrite Z.min_l, Z.sub_diag in * by lia.
      assert (H2 : (2 <= 2 ^ (eb - ea))%Z).
      { change 2%Z with (2 ^ 1)%Z at 1. apply Z.pow_le_mono_r; lia. }
      assert (Hmb : (2 ^ 52 <= Z.pos mb)%Z) by lia.
      destruct sa, sb; cbn; split; first [discriminate | nia | reflexivity].
    + rewrite Z.min_r, Z.sub_diag in * by lia.
      assert (H2 : (2 <= 2 ^ (ea - eb))%Z).
      { change 2%Z with (2 ^ 1)%Z at 1. apply Z.pow_le_mono_r; lia. }
      assert (Hma : (2 ^ 52 <= Z.pos ma)%Z) by lia.
      destruct sa, sb; cbn; split; first [discriminate | nia | reflexivity].
Qed.

(** ** Boundary values *)

Lemma Qcdiv_le_1 (t s : scalar) : 0 < s -> (t / s <= 1 <-> t <= s).
Proof.
  intros Hs.
  assert (Hne : s <> 0) by (intros ->; eapply Qclt_not_eq; [exact Hs | reflexivity]).
  rewrite (Qcmult_le_mono_pos_r (t / s) 1 s Hs).
  unfold Qcdiv. rewrite <- Qcmult_assoc, (Qcmult_comm (/ s)), Qcmult_inv_r by exact Hne.
  rewrite Qcmult_1_r, Qcmult_1_l. reflexivity.
Qed.

(** The ramp factor of the specification, by the comparison the program
    makes. *)
Lemma ramp_factor (t s : double) :
  is_double t = true -> is_finite t = true ->
  is_double s = true -> is_finite s = true -> 0 < ideal s ->
  Qcmin 1 (ideal t / ideal s)
  = if dle t s then ideal t / ideal s else 1.
Proof.
  intros Vt Ft Vs Fs Hs. unfold Qcmin.
  pose proof (dle_ideal t s Vt Vs Ft Fs) as Hle.
  destruct (dle t s);
    destruct (decide (1 <= ideal t / ideal s)) as [H1 | H1];
    try reflexivity.
  - apply Qcle_antisym; [exact H1 |].
    apply (Qcdiv_le_1 _ _ Hs). apply Hle. reflexivity.
  - exfalso. apply Qcnot_le_lt, Qclt_le_weak in H1.
    apply (Qcdiv_le_1 _ _ Hs) in H1. apply Hle in H1. discriminate H1.
Qed.

(** When none of the six operations that compute [val_y] rounds, [val_y]
    is the profile of the specification. *)
Lemma val_y_profile (p : Params) (y : double) :
  exactly (dmul (VEL_INLET p) y) (ideal (VEL_INLET p) * ideal y) ->
  exactly (dsub (H p) y) (ideal (H p) - ideal y) ->
  exactly (ddiv (H p) (double_of_Z 2)) (ideal (H p) / 2) ->
  exactly (dmul (dmul (VEL_INLET p) y) (dsub (H p) y))
          (ideal (dmul (VEL_INLET p) y) * ideal (dsub (H p) y)) ->
  exactly (ddiv (dmul (dmul (VEL_INLET p) y) (dsub (H p) y))
                (ddiv (H p) (double_of_Z 2)))
          (ideal (dmul (dmul (VEL_INLET p) y) (dsub (H p) y))
           / ideal (ddiv (H p) (double_of_Z 2))) ->
  exactly (val_y p y)
          (ideal (ddiv (dmul (dmul (VEL_INLET p) y) (dsub (H p) y))
                       (ddiv (H p) (double_of_Z 2)))
           / ideal (ddiv (H p) (double_of_Z 2))) ->
  exactly (val_y p y) (profile p (ideal y)).
Proof.
  intros [_ Ea] [_ Eb] [_ Eh] [_ Ec] [_ Ed] [Fv Ev].
  split; [exact Fv |].
  rewrite Ev, Ed, Ec, Ea, Eb, Eh. unfold profile. simpl Qcpower.
  rewrite Qcmult_1_r. unfold Qcdiv. rewrite !Qcinv_mult_distr. ring.
Qed.

Lemma xvel_bc_value_late (p : Params) (t x y : double) :
  dle t (STARTUP_TIME p) = false ->
  xvel_bc_value p t marker_left x y = val_y p y.
Proof.
  intros Ht. unfold xvel_bc_value.
  destruct (decide (marker_left = marker_left)) as [_ | N]; [| congruence].
  cbv zeta. rewrite Ht. reflexivity.
Qed.

Lemma xvel_bc_value_early (p : Params) (t x y : double) :
  dle t (STARTUP_TIME p) = true ->
  xvel_bc_value p t marker_left x y
  = ddiv (dmul (val_y p y) t) (STARTUP_TIME p).
Proof.
  intros Ht. unfold xvel_bc_value.
  destruct (decide (marker_left = marker_left)) as [_ | N]; [| congruence].
  cbv zeta. rewrite Ht. reflexivity.
Qed.

(** C1 (as amended).  At the inlet marker the essential x-velocity value
    is computed in binary64, and it is
    [profile(y) * min(1, t / ramp_time)] with
    [profile(y) = inlet_velocity * y*(H-y)/(H/2)^2] whenever none of the
    operations the program performs rounds (the time and the positive ramp
    time being numbers).  Whatever is rounded, the value does not depend
    on [x], it does not depend on the time once the comparison
    [t <= ramp_time] fails, and while the comparison holds it is the
    value after the ramp, multiplied by [t] and divided by the ramp time.
    With the constants of the source the value at [t = 0.5], [y = 5] is
    exactly [0.5], and at [y = 5] it is exactly [profile(5) = 1] after
    the ramp. *)
Theorem xvel_bc_value_ramp :
  (forall (p : Params) (t x y : double),
      is_double t = true -> is_finite t = true ->
      is_double (STARTUP_TIME p) = true ->
      is_finite (STARTUP_TIME p) = true ->
      0 < ideal (STARTUP_TIME p) ->
      exactly (dmul (VEL_INLET p) y) (ideal (VEL_INLET p) * ideal y) ->
      exactly (dsub (H p) y) (ideal (H p) - ideal y) ->
      exactly (ddiv (H p) (double_of_Z 2)) (ideal (H p) / 2) ->
      exactly (dmul (dmul (VEL_INLET p) y) (dsub (H p) y))
              (ideal (dmul (VEL_INLET p) y) * ideal (dsub (H p) y)) ->
      exactly (ddiv (dmul (dmul (VEL_INLET p) y) (dsub (H p) y))
                    (ddiv (H p) (double_of_Z 2)))
              (ideal (dmul (dmul (VEL_INLET p) y) (dsub (H p) y))
               / ideal (ddiv (H p) (double_of_Z 2))) ->
      exactly (val_y p y)
              (ideal (ddiv (dmul (dmul (VEL_INLET p) y) (dsub (H p) y))
                           (ddiv (H p) (double_of_Z 2)))
               / ideal (ddiv (H p) (double_of_Z 2))) ->
      (dle t (STARTUP_TIME p) = true ->
       exactly (dmul (val_y p y) t) (ideal (val_y p y) * ideal t)
       /\ exactly (ddiv (dmul (val_y p y) t) (STARTUP_TIME p))
                  (ideal (dmul (val_y p y) t) / ideal (STARTUP_TIME p))) ->
      exactly (xvel_bc_value p t marker_left x y)
              (profile p (ideal y)
               * Qcmin 1 (ideal t / ideal (STARTUP_TIME p))))
  /\ (forall (p : Params) (t t' x x' y : double),
        dle t (STARTUP_TIME p) = false -> dle t' (STARTUP_TIME p) = false ->
        xvel_bc_value p t marker_left x y
        = xvel_bc_value p t' marker_left x' y)
  /\ (forall (p : Params) (t t' x x' y : double),
        dle t (STARTUP_TIME p) = true -> dle t' (STARTUP_TIME p) = false ->
        xvel_bc_value p t marker_left x y
        = ddiv (dmul (xvel_bc_value p t' marker_left x' y) t)
               (STARTUP_TIME p))
  /\ (forall x : double,
        exactly (xvel_bc_value source_params (double_lit 5 10) marker_left x
                   (double_of_Z 5))
                (qfrac 1 2))
  /\ (forall t x : double,
        dle t (STARTUP_TIME source_params) = false ->
        exactly (xvel_bc_value source_params t marker_left x (double_of_Z 5))
                (profile source_params (ideal (double_of_Z 5)))
        /\ profile source_params (ideal (double_of_Z 5)) = 1).
Proof.
  split; [| split; [| split; [| split]]].
  - intros p t x y Vt Ft Vs Fs Hs Ha Hb Hh Hc Hd Hv Hramp.
    pose proof (val_y_profile p y Ha Hb Hh Hc Hd Hv) as [Fv Ev].
    rewrite (ramp_factor t (STARTUP_TIME p) Vt Ft Vs Fs Hs).
    destruct (dle t (STARTUP_TIME p)) eqn:Ht.
    + destruct (Hramp eq_refl) as [[_ Em] [Fq Eq]].
      rewrite xvel_bc_value_early by exact Ht.
      split; [exact Fq |].
      rewrite Eq, Em, Ev. unfold Qcdiv. ring.
    + rewrite xvel_bc_value_late by exact Ht.
      split; [exact Fv |]. rewrite Ev. ring.
  - intros p t t' x x' y Ht Ht'.
    rewrite !xvel_bc_value_late by assumption. reflexivity.
  - intros p t t' x x' y Ht Ht'.
    rewrite xvel_bc_value_early by exact Ht.
    rewrite xvel_bc_value_late by exact Ht'. reflexivity.
  - intros x. split; [vm_compute; reflexivity |].
    apply Qc_is_canon. vm_compute. reflexivity.
  - intros t x Ht. rewrite xvel_bc_value_late by exact Ht.
    split; [split |].
    + vm_compute. reflexivity.
    + apply Qc_is_canon. vm_compute. reflexivity.
    + apply Qc_is_canon. vm_compute. reflexivity.
Qed.

(** With the constants of the source no operation rounds at [y = 2.5]:
    the value is [profile(2.5) = 0.75] at [t = 2] and half of it at
    [t = 0.5]. *)
Lemma xvel_bc_value_ramp_witness :
  exactly (xvel_bc_value source_params (double_of_Z 2) marker_left dzero
             (double_lit 25 10))
          (profile source_params (ideal (double_lit 25 10))
           * Qcmin 1 (ideal (double_of_Z 2)
                      / ideal (STARTUP_TIME source_params)))
  /\ exactly (xvel_bc_value source_params (double_lit 5 10) marker_left dzero
                (double_lit 25 10))
             (profile source_params (ideal (double_lit 25 10))
              * Qcmin 1 (ideal (double_lit 5 10)
                         / ideal (STARTUP_TIME source_params)))
  /\ profile source_params (ideal (double_lit 25 10)) = qfrac 3 4
  /\ Qcmin 1 (ideal (double_of_Z 2) / ideal (STARTUP_TIME source_params)) = 1
  /\ Qcmin 1 (ideal (double_lit 5 10) / ideal (STARTUP_TIME source_params))
     = qfrac 1 2.
Proof.
  assert (Hex : forall (r : double) (v : scalar),
             is_finite r = true -> this (ideal r) = this v -> exactly r v).
  { intros r v Hf Hv. split; [exact Hf |].
    apply Qc_is_canon. rewrite Hv. reflexivity. }
  split; [| split; [| split; [| split]]].
  - apply (proj1 xvel_bc_value_ramp source_params (double_of_Z 2) dzero
             (double_lit 25 10));
      try (vm_compute; reflexivity);
      try (apply Hex; vm_compute; reflexivity).
    intros N. vm_compute in N. discriminate N.
  - apply (proj1 xvel_bc_value_ramp source_params (double_lit 5 10) dzero
             (double_lit 25 10));
      try (vm_compute; reflexivity);
      try (apply Hex; vm_compute; reflexivity).
    intros _. split; apply Hex; vm_compute; reflexivity.
  - apply Qc_is_canon. vm_compute. reflexivity.
  - apply Qc_is_canon. vm_compute. reflexivity.
  - apply Qc_is_canon. vm_compute. reflexivity.
Defined.

(** With the constants of the source, at [t = 7] and [y = 3] (inside
    [[0, H]]) the formula gives [21/25]; the program returns the double
    above the double nearest to [21/25]. *)
Lemma xvel_bc_value_rounds :
  let t := double_of_Z 7 in
  let y := double_of_Z 3 in
  is_double t = true /\ is_double y = true
  /\ 0 <= ideal y /\ ideal y <= ideal (H source_params)
  /\ profile source_params (ideal y)
     * Qcmin 1 (ideal t / ideal (STARTUP_TIME source_params))
     = qfrac 21 25
  /\ is_finite (xvel_bc_value source_params t marker_left dzero y) = true
  /\ ideal (xvel_bc_value source_params t marker_left dzero y)
     <> profile source_params (ideal y)
        * Qcmin 1 (ideal t / ideal (STARTUP_TIME source_params))
  /\ xvel_bc_value source_params t marker_left dzero y <> double_lit 21 25
  /\ dlt (double_lit 21 25)
         (xvel_bc_value source_params t marker_left dzero y) = true.
Proof.
  cbv zeta.
  assert (E : profile source_params (ideal (double_of_Z 3))
              * Qcmin 1 (ideal (double_of_Z 7)
                         / ideal (STARTUP_TIME source_params))
              = qfrac 21 25)
    by (apply Qc_is_canon; vm_compute; reflexivity).
  split; [vm_compute; reflexivity |].
  split; [vm_compute; reflexivity |].
  split; [vm_compute; discriminate |].
  split; [vm_compute; discriminate |].
  split; [exact E |].
  split; [vm_compute; reflexivity |].
  split.
  { rewrite E. intros N. apply (f_equal this) in N. vm_compute in N.
    discriminate N. }
  split; [vm_compute; discriminate |].
  vm_compute. reflexivity.
Qed.

(** C10. Away from the inlet marker the essential x-velocity value is
    exactly zero, at every time and every coordinate. *)
Theorem xvel_bc_value_no_slip (p : Params) (t : double) (marker : Z)
    (x y : double) :
  marker <> marker_left -> xvel_bc_value p t marker x y = dzero.
Proof.
  intros Hm. unfold xvel_bc_value.
  destruct (decide (marker = marker_left)) as [E | _]; [contradiction | reflexivity].
Qed.

Lemma xvel_bc_value_no_slip_witness :
  xvel_bc_value source_params (double_lit 5 10) marker_obstacle
    (double_of_Z 3) (double_of_Z 5) = dzero.
Proof.
  apply (xvel_bc_value_no_slip source_params (double_lit 5 10) marker_obstacle).
  unfold marker_obstacle, marker_left. lia.
Defined.

(** ** The state monad and the loop *)

Lemma exec_bind {A B : Type} (c : M A) (k : A -> M B) (w : World) :
  exec (bind c k) w = exec (k (fst (c w))) (snd (c w)).
Proof. unfold exec, bind. destruct (c w); reflexivity. Qed.

Lemma for_loop_snoc (n : nat) (i : Z) (body : Z -> M unit) (w : World) :
  exec (for_loop (S n) i body) w
  = exec (body (i + Z.of_nat n)%Z) (exec (for_loop n i body) w).
Proof.
  revert i w. induction n as [| n IH]; intros i w.
  - cbn [for_loop]. rewrite exec_bind. replace (i + Z.of_nat 0)%Z with i by lia.
    reflexivity.
  - change (for_loop (S (S n)) i body)
      with (bind (body i) (fun _ => for_loop (S n) (i + 1)%Z body)).
    rewrite exec_bind. rewrite IH.
    change (for_loop (S n) i body)
      with (bind (body i) (fun _ => for_loop n (i + 1)%Z body)).
    rewrite exec_bind.
    replace (i + 1 + Z.of_nat n)%Z with (i + Z.of_nat (S n))%Z by lia.
    reflexivity.
Qed.

Lemma assign_dofs_snd (t : double) (sp : Space) (first : Z) :
  snd (assign_dofs t sp first) = sp_ndofs (fst (assign_dofs t sp first)).
Proof. unfold assign_dofs. destruct (number_dofs _ _ _ _); reflexivity. Qed.

Lemma World_ext (w1 w2 : World) :
  TIME w1 = TIME w2 -> xprev w1 = xprev w2 -> yprev w1 = yprev w2 ->
  xvel w1 = xvel w2 -> yvel w1 = yvel w2 -> press w1 = press w2 ->
  sys w1 = sys w2 -> trace w1 = trace w2 -> w1 = w2.
Proof. destruct w1, w2. cbn. intros. congruence. Qed.

Section Steps.

Variable p : Params.
Variable spsolve : LinSystem -> SolveResult.

(** What one passage through the loop body does to the state. *)
Lemma time_step_spec (i : Z) (w : World) :
  exec (time_step p spsolve i) w
  = {| TIME := step_time p w;
       xprev := step_xsln p spsolve w;
       yprev := step_ysln p spsolve w;
       xvel := step_xvel p w;
       yvel := step_yvel p w;
       press := step_press p w;
       sys := step_system p w;
       trace := trace w ++ step_events p spsolve i w |}.
Proof.
  unfold step_events, step_xsln, step_ysln, step_psln, step_solve,
    step_system, step_press, step_yvel, step_xvel, step_time.
  rewrite <- !assign_dofs_snd.
  unfold time_step, advance_time, info, assign_all_dofs, space_assign_dofs,
    sys_assemble, python_solve, decode, modify, bind, exec, ret.
  cbn [TIME set_TIME log get_space set_space xvel yvel press].
  destruct (assign_dofs (dadd (TIME w) (TAU p)) (xvel w) 0) as [sx c0].
  cbn [TIME set_TIME log get_space set_space xvel yvel press fst snd].
  rewrite Z.add_0_l.
  destruct (assign_dofs (dadd (TIME w) (TAU p)) (yvel w) c0) as [sy c1].
  cbn [TIME set_TIME log get_space set_space xvel yvel press fst snd].
  destruct (assign_dofs (dadd (TIME w) (TAU p)) (press w) (c0 + c1))
    as [sq c2].
  apply World_ext;
    cbn [TIME xprev yprev xvel yvel press sys trace fst snd get_space
         set_yprev set_xprev set_sys log set_space set_TIME];
    try reflexivity.
  rewrite <- !app_assoc. reflexivity.
Qed.

Lemma run_S (k : nat) (w : World) :
  run p spsolve (S k) w
  = exec (time_step p spsolve (Z.of_nat (S k))) (run p spsolve k w).
Proof.
  unfold run. rewrite for_loop_snoc.
  replace (1 + Z.of_nat k)%Z with (Z.of_nat (S k)) by lia. reflexivity.
Qed.

Lemma run_0 (w : World) : run p spsolve 0 w = w.
Proof. reflexivity. Qed.

(** The time after [k] passages: [k] rounded additions of [TAU]. *)
Lemma run_TIME (k : nat) (w : World) :
  TIME (run p spsolve k w) = Nat.iter k (fun t => dadd t (TAU p)) (TIME w).
Proof.
  induction k as [| k IH].
  - rewrite run_0. reflexivity.
  - rewrite run_S, time_step_spec. cbn [TIME]. unfold step_time. rewrite IH.
    reflexivity.
Qed.

(** The calls of a run: those of its iterations, one after the other. *)
Lemma run_trace (k : nat) (w : World) :
  trace (run p spsolve k w)
  = trace w ++ concat (map (fun j => step_events p spsolve (Z.of_nat (S j))
                                       (run p spsolve j w))
                           (seq 0 k)).
Proof.
  induction k as [| k IH].
  - rewrite run_0. cbn. rewrite app_nil_r. reflexivity.
  - rewrite run_S, time_step_spec. cbn [trace]. rewrite IH.
    rewrite seq_S, map_app, concat_app. cbn [map concat Nat.add].
    rewrite app_nil_r, <- app_assoc. reflexivity.
Qed.

End Steps.

(** ** The number of iterations and the final time *)

Lemma truncate_floor (q : scalar) : 0 <= q -> truncate q = floor q.
Proof.
  destruct q as [[n d] c]. unfold truncate, floor, Qfloor, Qcle, Qle. cbn.
  change (Qred 0) with 0%Q. cbn [Qnum Qden].
  intros Hq. apply Z.quot_div_nonneg; lia.
Qed.

(** The conversion of a finite quotient within the range of [int]. *)
Lemma num_time_steps_truncate (p : Params) :
  is_finite (ddiv (FINAL_TIME p) (TAU p)) = true ->
  (INT_MIN <= truncate (ideal (ddiv (FINAL_TIME p) (TAU p))) <= INT_MAX)%Z ->
  num_time_steps p = Some (truncate (ideal (ddiv (FINAL_TIME p) (TAU p)))).
Proof.
  intros Hf Hr. unfold num_time_steps, double_to_int. rewrite Hf.
  destruct (decide (INT_MIN <= truncate (ideal (ddiv (FINAL_TIME p) (TAU p)))
                    <= INT_MAX)%Z) as [_ | N]; [reflexivity | contradiction].
Qed.

Lemma main_run (p : Params) (spsolve : LinSystem -> SolveResult)
    (mesh : Mesh) (steps : Z) :
  num_time_steps p = Some steps -> (steps < INT_MAX)%Z ->
  main p spsolve mesh
  = Some (run p spsolve (Z.to_nat steps) (init p mesh)).
Proof.
  intros E Hlt. unfold main. rewrite E.
  destruct (decide (steps < INT_MAX)%Z) as [_ | N]; [reflexivity | contradiction].
Qed.

Section Counting.

Variable p : Params.
Variable spsolve : LinSystem -> SolveResult.

Lemma count_events_app (f : Event -> bool) (l1 l2 : list Event) :
  count_events f (l1 ++ l2) = (count_events f l1 + count_events f l2)%nat.
Proof. unfold count_events. rewrite list.filter_app, length_app. reflexivity. Qed.

(** Every iteration makes [c] calls of a kind when its list of calls
    does. *)
Lemma run_count (f : Event -> bool) (c : nat) :
  (forall i w, count_events f (step_events p spsolve i w) = c) ->
  forall k w,
    count_events f (trace (run p spsolve k w))
    = (count_events f (trace w) + k * c)%nat.
Proof.
  intros Hc k w. induction k as [| k IH].
  - rewrite run_0. lia.
  - rewrite run_S, time_step_spec. cbn [trace].
    rewrite count_events_app, IH, Hc. lia.
Qed.

Lemma step_events_info i w :
  count_events is_info (step_events p spsolve i w) = 1%nat.
Proof. reflexivity. Qed.

Lemma step_events_assemble i w :
  count_events is_assemble (step_events p spsolve i w) = 1%nat.
Proof. reflexivity. Qed.

Lemma step_events_solve i w :
  count_events is_solve (step_events p spsolve i w) = 1%nat.
Proof. reflexivity. Qed.

Lemma step_events_decode id i w :
  count_events (is_decode id) (step_events p spsolve i w) = 1%nat.
Proof. destruct id; reflexivity. Qed.

(** Before the loop only the three initial DOF assignments happen. *)
Lemma init_trace (mesh : Mesh) :
  exists c0 c1,
    trace (init p mesh)
    = [EvAssignDofs Xvel 0 dzero; EvAssignDofs Yvel c0 dzero;
       EvAssignDofs Press (c0 + c1) dzero].
Proof.
  unfold init, assign_all_dofs, space_assign_dofs, bind, exec, ret.
  cbn [TIME get_space xvel yvel press].
  destruct (assign_dofs dzero _ 0) as [sx c0].
  cbn [TIME set_TIME log get_space set_space xvel yvel press fst snd].
  rewrite Z.add_0_l.
  destruct (assign_dofs dzero _ c0) as [sy c1].
  cbn [TIME set_TIME log get_space set_space xvel yvel press fst snd].
  destruct (assign_dofs dzero _ (c0 + c1)) as [sq c2].
  exists c0, c1. reflexivity.
Qed.

Lemma init_TIME (mesh : Mesh) : TIME (init p mesh) = dzero.
Proof.
  unfold init, assign_all_dofs, space_assign_dofs, bind, exec, ret.
  cbn [TIME get_space xvel yvel press].
  destruct (assign_dofs dzero _ 0) as [sx c0].
  cbn [TIME set_TIME log get_space set_space xvel yvel press fst snd].
  destruct (assign_dofs dzero _ _) as [sy c1].
  cbn [TIME set_TIME log get_space set_space xvel yvel press fst snd].
  destruct (assign_dofs dzero _ _) as [sq c2].
  reflexivity.
Qed.

Lemma run_time_after (mesh : Mesh) (k : nat) :
  TIME (run p spsolve k (init p mesh)) = time_after p k.
Proof. rewrite run_TIME, init_TIME. reflexivity. Qed.

End Counting.

Lemma qz_succ (k : nat) : qz (Z.of_nat (S k)) = qz (Z.of_nat k) + 1.
Proof.
  unfold qz. rewrite Nat2Z.inj_succ, <- Z.add_1_r, Z2Qc_inj_add, Z2Qc_inj_1.
  reflexivity.
Qed.

Lemma time_after_S (p : Params) (k : nat) :
  time_after p (S k) = dadd (time_after p k) (TAU p).
Proof. reflexivity. Qed.

(** As long as no addition rounds, [k] additions of [TAU] give
    [k * TAU]. *)
Lemma time_after_exact (p : Params) (k : nat) :
  (forall j : nat, (j < k)%nat ->
     exactly (dadd (time_after p j) (TAU p))
             (ideal (time_after p j) + ideal (TAU p))) ->
  exactly (time_after p k) (qz (Z.of_nat k) * ideal (TAU p)).
Proof.
  induction k as [| k IH]; intros Hex.
  - split; [reflexivity |]. change (ideal (time_after p 0)) with 0.
    unfold qz. change (Z.of_nat 0) with 0%Z. rewrite Z2Qc_inj_0. ring.
  - destruct (Hex k (Nat.lt_succ_diag_r k)) as [Hf He].
    destruct IH as [_ IH]; [intros j Hj; apply Hex; lia |].
    rewrite time_after_S. split; [exact Hf |].
    rewrite He, IH, qz_succ. ring.
Qed.

Lemma additions_exact_spec (tau : double) (k : nat) :
  forall t : double,
    additions_exact tau k t = true ->
    forall j : nat, (j < k)%nat ->
      exactly (dadd (Nat.iter j (fun t => dadd t tau) t) tau)
              (ideal (Nat.iter j (fun t => dadd t tau) t) + ideal tau).
Proof.
  induction k as [| k IH]; intros t Hk j Hj; [lia |].
  cbn [additions_exact] in Hk.
  apply andb_prop in Hk as [Hk Hrest]. apply andb_prop in Hk as [Hf He].
  destruct j as [| j].
  - split; [exact Hf | apply Qc_eq_bool_correct; exact He].
  - rewrite Nat.iter_succ_r. apply IH; [exact Hrest | lia].
Qed.

(** With the step [0.5] of the source none of the 6000 additions
    rounds. *)
Lemma source_additions_exact (j : nat) :
  (j < Z.to_nat 6000)%nat ->
  exactly (dadd (time_after source_params j) (TAU source_params))
          (ideal (time_after source_params j) + ideal (TAU source_params)).
Proof.
  assert (Hall : additions_exact (TAU source_params) (Z.to_nat 6000) dzero
                 = true) by (vm_compute; reflexivity).
  intros Hj. apply (additions_exact_spec _ _ _ Hall j Hj).
Qed.

Lemma floor_le (q : scalar) : qz (floor q) <= q.
Proof. unfold floor, Qcle, qz, Qc_of_Z. cbn [this]. apply Qfloor_le. Qed.

Lemma lt_floor_succ (q : scalar) : q < qz (floor q + 1).
Proof. unfold floor, Qclt, qz, Qc_of_Z. cbn [this]. apply Qlt_floor. Qed.

Lemma Qclt_ne_0 (t : scalar) : 0 < t -> t <> 0.
Proof. intros Ht ->. eapply Qclt_not_eq; [exact Ht | reflexivity]. Qed.

Lemma Qcdiv_mul_cancel (a b : scalar) : b <> 0 -> a / b * b = a.
Proof. intros Hb. field. exact Hb. Qed.

Lemma Qcdiv_nonneg (a b : scalar) : 0 <= a -> 0 < b -> 0 <= a / b.
Proof.
  intros Ha Hb. apply (Qcmult_le_mono_pos_r _ _ b Hb).
  rewrite Qcmult_0_l, Qcdiv_mul_cancel by (apply Qclt_ne_0; exact Hb).
  exact Ha.
Qed.

(** Truncating a positive quotient: the largest whole number of steps
    that fits into the final time. *)
Lemma floor_steps_bounds (F T : scalar) :
  0 < T ->
  qz (floor (F / T)) * T <= F /\ F - T < qz (floor (F / T)) * T.
Proof.
  intros HT. pose proof (Qclt_ne_0 _ HT) as HT0. split.
  - rewrite <- (Qcdiv_mul_cancel F T HT0) at 2.
    apply Qcmult_le_mono_pos_r; [exact HT | apply floor_le].
  - apply (Qcplus_lt_mono_r _ _ T).
    replace (F - T + T) with F by ring.
    rewrite <- (Qcdiv_mul_cancel F T HT0) at 1.
    replace (qz (floor (F / T)) * T + T) with (qz (floor (F / T) + 1) * T)
      by (unfold qz; rewrite Z2Qc_inj_add, Z2Qc_inj_1; ring).
    apply Qcmult_lt_mono_pos_r; [exact HT | apply lt_floor_succ].
Qed.

(** C2 (as amended).  When the binary64 quotient of the final time by
    the step size is finite and its integral part is an [int] below
    [INT_MAX], the main loop runs as many iterations as that integral part
    says (the rounded quotient is truncated toward zero: for a quotient
    that is not negative this is its floor, not its ceiling), calls
    assemble and solve once per iteration and decodes one field per space
    per iteration (the calls of the run are those of the iterations, one
    after the other, and every iteration holds exactly one of each); the
    time it ends with is the step size added that many times to zero,
    every sum rounded.  When neither the quotient nor any of these sums
    is rounded (the final time not being negative and the step being
    positive), the loop ends with the time at most one step below the
    final time, and not above it. *)
Theorem main_loop_truncated_iterations (p : Params)
    (spsolve : LinSystem -> SolveResult) (mesh : Mesh) :
  is_finite (ddiv (FINAL_TIME p) (TAU p)) = true ->
  (INT_MIN <= truncate (ideal (ddiv (FINAL_TIME p) (TAU p))) < INT_MAX)%Z ->
  let n := Z.to_nat (truncate (ideal (ddiv (FINAL_TIME p) (TAU p)))) in
  exists w : World,
    main p spsolve mesh = Some w
    /\ count_events is_info (trace w) = n
    /\ count_events is_assemble (trace w) = n
    /\ count_events is_solve (trace w) = n
    /\ (forall id : SpaceId, count_events (is_decode id) (trace w) = n)
    /\ (exists its : list (list Event),
          trace w = trace (init p mesh) ++ concat its
          /\ length its = n
          /\ Forall (fun it =>
                       count_events is_info it = 1%nat
                       /\ count_events is_assemble it = 1%nat
                       /\ count_events is_solve it = 1%nat
                       /\ forall id, count_events (is_decode id) it = 1%nat)
                    its)
    /\ TIME w = time_after p n
    /\ (0 <= ideal (ddiv (FINAL_TIME p) (TAU p)) ->
        Z.of_nat n = floor (ideal (ddiv (FINAL_TIME p) (TAU p))))
    /\ (0 <= ideal (FINAL_TIME p) -> 0 < ideal (TAU p) ->
        exactly (ddiv (FINAL_TIME p) (TAU p))
                (ideal (FINAL_TIME p) / ideal (TAU p)) ->
        (forall j : nat, (j < n)%nat ->
           exactly (dadd (time_after p j) (TAU p))
                   (ideal (time_after p j) + ideal (TAU p))) ->
        exactly (TIME w)
                (qz (floor (ideal (FINAL_TIME p) / ideal (TAU p)))
                 * ideal (TAU p))
        /\ ideal (FINAL_TIME p) - ideal (TAU p) < ideal (TIME w)
        /\ ideal (TIME w) <= ideal (FINAL_TIME p)).
Proof.
  intros Hf Hr n.
  set (z := truncate (ideal (ddiv (FINAL_TIME p) (TAU p)))) in *.
  assert (Hn : num_time_steps p = Some z).
  { apply num_time_steps_truncate; [exact Hf | fold z; lia]. }
  exists (run p spsolve n (init p mesh)).
  split; [apply main_run; [exact Hn | lia] |].
  destruct (init_trace p mesh) as (c0 & c1 & Htr).
  assert (Hcount : forall f c,
             (forall i w, count_events f (step_events p spsolve i w) = c) ->
             count_events f (trace (init p mesh)) = 0%nat ->
             count_events f (trace (run p spsolve n (init p mesh)))
             = (n * c)%nat).
  { intros f c Hc H0. rewrite (run_count p spsolve f c Hc), H0. lia. }
  assert (Hinfo := Hcount is_info 1%nat (step_events_info p spsolve)).
  assert (Hasm := Hcount is_assemble 1%nat (step_events_assemble p spsolve)).
  assert (Hsol := Hcount is_solve 1%nat (step_events_solve p spsolve)).
  assert (Hdec := fun id =>
            Hcount (is_decode id) 1%nat (step_events_decode p spsolve id)).
  rewrite Htr in Hinfo, Hasm, Hsol, Hdec.
  specialize (Hinfo eq_refl). specialize (Hasm eq_refl).
  specialize (Hsol eq_refl).
  split; [rewrite Hinfo; lia |].
  split; [rewrite Hasm; lia |].
  split; [rewrite Hsol; lia |].
  split.
  { intros id. rewrite (Hdec id); [lia |]. destruct id; reflexivity. }
  split.
  { exists (map (fun j => step_events p spsolve (Z.of_nat (S j))
                             (run p spsolve j (init p mesh)))
                (seq 0 n)).
    split; [apply run_trace |].
    split; [rewrite length_map, length_seq; reflexivity |].
    apply Forall_forall. intros it Hit.
    apply in_map_iff in Hit as (j & <- & _).
    split; [apply step_events_info |].
    split; [apply step_events_assemble |].
    split; [apply step_events_solve | intros id; apply step_events_decode]. }
  split; [apply run_time_after |].
  assert (Hfloor : 0 <= ideal (ddiv (FINAL_TIME p) (TAU p)) ->
                   Z.of_nat n = floor (ideal (ddiv (FINAL_TIME p) (TAU p)))).
  { intros Hq. unfold n. fold z.
    assert (Hz : z = floor (ideal (ddiv (FINAL_TIME p) (TAU p))))
      by (apply truncate_floor; exact Hq).
    assert (H0 : (0 <= floor (ideal (ddiv (FINAL_TIME p) (TAU p))))%Z).
    { unfold floor. change 0%Z with (Qfloor (inject_Z 0)).
      apply Qfloor_resp_le. exact Hq. }
    rewrite Z2Nat.id by lia. exact Hz. }
  split; [exact Hfloor |].
  intros HF HT [_ Eq] Hex.
  assert (Hq : 0 <= ideal (ddiv (FINAL_TIME p) (TAU p)))
    by (rewrite Eq; apply Qcdiv_nonneg; assumption).
  pose proof (time_after_exact p n Hex) as [Ft Et].
  rewrite (Hfloor Hq), Eq in Et.
  rewrite run_time_after.
  split; [split; [exact Ft | exact Et] |].
  rewrite Et.
  destruct (floor_steps_bounds (ideal (FINAL_TIME p)) (ideal (TAU p)) HT).
  split; assumption.
Qed.

(** The constants of the source: [3000.0 / 0.5] is [6000.0], the loop
    runs 6000 times and ends with the time at exactly [3000.0]. *)
Lemma main_loop_truncated_iterations_witness :
  exists w : World,
    main source_params rhs_solver toy_mesh = Some w
    /\ count_events is_info (trace w) = Z.to_nat 6000
    /\ count_events is_assemble (trace w) = Z.to_nat 6000
    /\ count_events is_solve (trace w) = Z.to_nat 6000
    /\ (forall id : SpaceId,
          count_events (is_decode id) (trace w) = Z.to_nat 6000)
    /\ TIME w = FINAL_TIME source_params
    /\ ideal (FINAL_TIME source_params) - ideal (TAU source_params)
       < ideal (TIME w)
    /\ ideal (TIME w) <= ideal (FINAL_TIME source_params).
Proof.
  assert (E : truncate (ideal (ddiv (FINAL_TIME source_params)
                                    (TAU source_params))) = 6000%Z)
    by (vm_compute; reflexivity).
  destruct (main_loop_truncated_iterations source_params rhs_solver toy_mesh)
    as (w & Hmain & Hn & Hasm & Hsol & Hdec & _ & Htime & _ & Hend).
  - vm_compute. reflexivity.
  - rewrite E. vm_compute. split; [discriminate | reflexivity].
  - rewrite E in *. exists w.
    repeat (split; [assumption |]).
    split; [rewrite Htime; vm_compute; reflexivity |].
    apply Hend.
    + vm_compute. discriminate.
    + vm_compute. reflexivity.
    + split; [vm_compute; reflexivity |].
      apply Qc_is_canon. vm_compute. reflexivity.
    + intros j Hj. apply source_additions_exact. exact Hj.
Defined.

(** With final time [1.0] and step [0.3], both positive, the exact
    quotient of the two doubles rounds up to 4, but the loop runs three
    times. *)
Lemma ceil_iterations_counterexample :
  dlt dzero (FINAL_TIME small_params) = true
  /\ dlt dzero (TAU small_params) = true
  /\ ceiling (ideal (FINAL_TIME small_params) / ideal (TAU small_params))
     = 4%Z
  /\ exists w : World,
       main small_params rhs_solver toy_mesh = Some w
       /\ count_events is_info (trace w) = 3%nat
       /\ count_events is_assemble (trace w) = 3%nat
       /\ count_events is_solve (trace w) = 3%nat.
Proof.
  split; [vm_compute; reflexivity |]. split; [vm_compute; reflexivity |].
  split; [vm_compute; reflexivity |].
  exists (run small_params rhs_solver 3 (init small_params toy_mesh)).
  split.
  { apply (main_run small_params rhs_solver toy_mesh 3);
      vm_compute; reflexivity. }
  split; [vm_compute; reflexivity |].
  split; vm_compute; reflexivity.
Qed.

(** Nor is the number of iterations the floor of the exact quotient of
    the two doubles: with final time [1.0] and step [0.1] that floor is 9,
    the binary64 quotient is [10.0], and the loop runs ten times, ending
    with the time below [1.0]. *)
Lemma floor_of_exact_quotient_differs :
  floor (ideal (FINAL_TIME tenth_params) / ideal (TAU tenth_params)) = 9%Z
  /\ ddiv (FINAL_TIME tenth_params) (TAU tenth_params) = double_of_Z 10
  /\ main tenth_params rhs_solver toy_mesh
     = Some (run tenth_params rhs_solver 10 (init tenth_params toy_mesh))
  /\ dlt (TIME (run tenth_params rhs_solver 10 (init tenth_params toy_mesh)))
         (FINAL_TIME tenth_params) = true.
Proof.
  split; [vm_compute; reflexivity |].
  split; [vm_compute; reflexivity |].
  split.
  { apply (main_run tenth_params rhs_solver toy_mesh 10);
      vm_compute; reflexivity. }
  rewrite run_time_after. vm_compute. reflexivity.
Qed.

(** ** Time *)

Lemma step_events_time (p : Params) (spsolve : LinSystem -> SolveResult)
    (i : Z) (w : World) :
  Forall (fun ev => forall t, event_time ev = Some t -> t = step_time p w)
         (step_events p spsolve i w).
Proof.
  unfold step_events.
  repeat (constructor; [cbn [event_time]; intros t E; congruence |]).
  constructor.
Qed.




(** ** The linearization anchor *)

Ltac unfold_init :=
  unfold init, assign_all_dofs, space_assign_dofs, bind, exec, ret;
  cbn [TIME get_space xvel yvel press];
  destruct (assign_dofs dzero _ 0) as [?sx ?c0];
  cbn [TIME set_TIME log get_space set_space xvel yvel press fst snd];
  destruct (assign_dofs dzero _ _) as [?sy ?c1];
  cbn [TIME set_TIME log get_space set_space xvel yvel press fst snd];
  destruct (assign_dofs dzero _ _) as [?sq ?c2].

Lemma init_prev (p : Params) (mesh : Mesh) :
  xprev (init p mesh) = set_zero mesh /\ yprev (init p mesh) = set_zero mesh.
Proof. unfold_init. split; reflexivity. Qed.

Lemma anchors_step (p : Params) (spsolve : LinSystem -> SolveResult)
    (i : Z) (w : World) :
  anchors (step_events p spsolve i w) = [(xprev w, yprev w)].
Proof. reflexivity. Qed.

Lemma decoded_step (p : Params) (spsolve : LinSystem -> SolveResult)
    (i : Z) (w : World) :
  decoded Xvel (step_events p spsolve i w) = [step_xsln p spsolve w]
  /\ decoded Yvel (step_events p spsolve i w) = [step_ysln p spsolve w]
  /\ decoded Press (step_events p spsolve i w) = [step_psln p spsolve w].
Proof. repeat split; reflexivity. Qed.

Section Anchor.

Variable p : Params.
Variable spsolve : LinSystem -> SolveResult.
Variable mesh : Mesh.

Lemma run_anchors (k : nat) :
  let w := run p spsolve k (init p mesh) in
  map fst (anchors (trace w)) ++ [xprev w]
  = set_zero mesh :: decoded Xvel (trace w)
  /\ map snd (anchors (trace w)) ++ [yprev w]
     = set_zero mesh :: decoded Yvel (trace w)
  /\ length (anchors (trace w)) = k.
Proof.
  induction k as [| k IH]; cbv zeta.
  - rewrite run_0. destruct (init_prev p mesh) as [-> ->].
    destruct (init_trace p mesh) as (c0 & c1 & ->).
    repeat split; reflexivity.
  - cbv zeta in IH. destruct IH as (IHx & IHy & IHn).
    rewrite run_S, time_step_spec. cbn [trace xprev yprev].
    unfold anchors, decoded in *. rewrite !omap_app.
    fold (anchors (step_events p spsolve (Z.of_nat (S k))
                     (run p spsolve k (init p mesh)))).
    fold (decoded Xvel (step_events p spsolve (Z.of_nat (S k))
                          (run p spsolve k (init p mesh)))).
    fold (decoded Yvel (step_events p spsolve (Z.of_nat (S k))
                          (run p spsolve k (init p mesh)))).
    rewrite anchors_step.
    destruct (decoded_step p spsolve (Z.of_nat (S k))
                (run p spsolve k (init p mesh))) as (-> & -> & _).
    rewrite !map_app, length_app. cbn [map fst snd length].
    rewrite IHx, IHy, IHn. split; [reflexivity |]. split; [reflexivity | lia].
Qed.

End Anchor.

(** ** DOF ranges *)

Lemma fold_left_invariant {A B : Type} (P : A -> Prop) (f : A -> B -> A)
    (l : list B) (a : A) :
  (forall a x, x ∈ l -> P a -> P (f a x)) -> P a -> P (fold_left f l a).
Proof.
  revert a. induction l as [| x l IH]; intros a Hf Ha; [exact Ha |].
  cbn [fold_left]. apply IH.
  - intros a' y Hy. apply Hf. right. exact Hy.
  - apply Hf; [left | exact Ha].
Qed.

Lemma number_dofs_range (bc_type : Z -> BCType)
    (bc_value : Z -> double -> double -> double) (ns : list Node) (next : Z) :
  (next <= snd (number_dofs bc_type bc_value next ns))%Z
  /\ free_dofs (fst (number_dofs bc_type bc_value next ns))
     = seqZ next (snd (number_dofs bc_type bc_value next ns) - next).
Proof.
  revert next. induction ns as [| n ns IH]; intros next.
  - cbn. rewrite Z.sub_diag. split; [lia | reflexivity].
  - cbn [number_dofs]. destruct (essential_value bc_type bc_value n) as [g |].
    + specialize (IH next).
      destruct (number_dofs bc_type bc_value next ns) as [ds next'].
      cbn [fst snd] in *.
      change (free_dofs (Essential g :: ds)) with (free_dofs ds). exact IH.
    + specialize (IH (next + 1)%Z).
      destruct (number_dofs bc_type bc_value (next + 1) ns) as [ds next'].
      cbn [fst snd] in *. destruct IH as [Hle IH]. split; [lia |].
      change (free_dofs (Free next :: ds)) with (next :: free_dofs ds).
      rewrite IH, (seqZ_cons next) by lia. f_equal. f_equal; lia.
Qed.

(** After [assign_dofs(first)] the space uses exactly the indices
    [first, first + 1, ..., first + count - 1]. *)
Lemma assign_dofs_range (t : double) (sp : Space) (first : Z) :
  let sp' := fst (assign_dofs t sp first) in
  (0 <= sp_ndofs sp')%Z
  /\ sp_first_dof sp' = first
  /\ free_dofs (sp_dofs sp') = seqZ first (sp_ndofs sp').
Proof.
  unfold assign_dofs.
  pose proof (number_dofs_range (sp_bc_type sp) (sp_bc_value sp t)
                (carriers (sp_mesh sp) (sp_shapeset sp) (sp_order sp)) first)
    as [Hle Hfree].
  destruct (number_dofs _ _ _ _) as [ds next'].
  cbn [fst snd sp_ndofs sp_first_dof sp_dofs] in *.
  split; [lia |]. split; [reflexivity | exact Hfree].
Qed.

Lemma seqZ_disjoint (a n b m : Z) :
  (a + n <= b)%Z -> forall k : Z, k ∈ seqZ a n -> k ∈ seqZ b m -> False.
Proof. intros Hab k Ha Hb. apply elem_of_seqZ in Ha, Hb. lia. Qed.

Lemma scatter_ls_n (row col : option DofRef) (v : scalar) (s : LinSystem) :
  ls_n (scatter row col v s) = ls_n s.
Proof. destruct row as [[r | g] |], col as [[c | g'] |]; reflexivity. Qed.

Lemma add_pair_ls_n env t e spm spn s pr :
  ls_n (add_pair env t e spm spn s pr) = ls_n s.
Proof.
  destruct pr as [[test trial] mirror]. unfold add_pair.
  destruct mirror; rewrite ?scatter_ls_n; reflexivity.
Qed.

Lemma add_load_ls_n env t e spm s test :
  ls_n (add_load env t e spm s test) = ls_n s.
Proof. unfold add_load. destruct (dof_of spm (fst test)) as [[r | g] |]; reflexivity. Qed.

Lemma assemble_element_ls_n wf spaces pss xp yp s ke :
  ls_n (assemble_element wf spaces pss xp yp s ke) = ls_n s.
Proof.
  destruct ke as [k e]. unfold assemble_element.
  apply (fold_left_invariant (fun s' => ls_n s' = ls_n s)).
  { intros a t _ Ha. unfold assemble_liform.
    destruct (spaces !! lf_i t) as [spm |]; [| exact Ha].
    apply (fold_left_invariant (fun s' => ls_n s' = ls_n s)); [| exact Ha].
    intros a' x _ Ha'. rewrite add_load_ls_n. exact Ha'. }
  apply (fold_left_invariant (fun s' => ls_n s' = ls_n s)); [| reflexivity].
  intros a t _ Ha. unfold assemble_biform.
  destruct (spaces !! bf_i t) as [spm |]; [| exact Ha].
  destruct (spaces !! bf_j t) as [spn |]; [| exact Ha].
  apply (fold_left_invariant (fun s' => ls_n s' = ls_n s)); [| exact Ha].
  intros a' x _ Ha'. rewrite add_pair_ls_n. exact Ha'.
Qed.

(** The assembled system has dimension "total DOFs". *)
Lemma assemble_ls_n wf spaces pss xp yp :
  ls_n (assemble wf spaces pss xp yp) = total_dofs spaces.
Proof.
  unfold assemble.
  apply (fold_left_invariant (fun s' => ls_n s' = total_dofs spaces));
    [| reflexivity].
  intros a ke _ Ha. rewrite assemble_element_ls_n. exact Ha.
Qed.

Lemma assign_all_dofs_spec (w : World) :
  let t := TIME w in
  let sx := fst (assign_dofs t (xvel w) 0) in
  let sy := fst (assign_dofs t (yvel w) (sp_ndofs sx)) in
  let sq := fst (assign_dofs t (press w) (sp_ndofs sx + sp_ndofs sy)) in
  fst (assign_all_dofs w) = (sp_ndofs sx + sp_ndofs sy + sp_ndofs sq)%Z
  /\ xvel (exec assign_all_dofs w) = sx
  /\ yvel (exec assign_all_dofs w) = sy
  /\ press (exec assign_all_dofs w) = sq.
Proof.
  cbv zeta. rewrite <- !assign_dofs_snd.
  unfold assign_all_dofs, space_assign_dofs, bind, exec, ret.
  destruct (assign_dofs (TIME w) (get_space Xvel w) 0) as [sx c0] eqn:Ex.
  cbn [TIME set_TIME log get_space set_space xvel yvel press fst snd] in *.
  rewrite Ex, Z.add_0_l. cbn [fst snd].
  destruct (assign_dofs (TIME w) (yvel w) c0) as [sy c1].
  cbn [TIME set_TIME log get_space set_space xvel yvel press fst snd].
  destruct (assign_dofs (TIME w) (press w) (c0 + c1)) as [sq c2].
  cbn [TIME set_TIME log get_space set_space xvel yvel press fst snd].
  repeat split; reflexivity.
Qed.

(** The index ranges of the three spaces after the DOF assignments of
    one passage through the loop. *)
Lemma step_ranges (p : Params) (w : World) :
  let c0 := sp_ndofs (step_xvel p w) in
  let c1 := sp_ndofs (step_yvel p w) in
  let c2 := sp_ndofs (step_press p w) in
  (0 <= c0 /\ 0 <= c1 /\ 0 <= c2)%Z
  /\ free_dofs (sp_dofs (step_xvel p w)) = seqZ 0 c0
  /\ free_dofs (sp_dofs (step_yvel p w)) = seqZ c0 c1
  /\ free_dofs (sp_dofs (step_press p w)) = seqZ (c0 + c1) c2.
Proof.
  cbv zeta.
  destruct (assign_dofs_range (step_time p w) (xvel w) 0) as (H0 & _ & Hx).
  destruct (assign_dofs_range (step_time p w) (yvel w)
              (sp_ndofs (step_xvel p w))) as (H1 & _ & Hy).
  destruct (assign_dofs_range (step_time p w) (press w)
              (sp_ndofs (step_xvel p w) + sp_ndofs (step_yvel p w)))
    as (H2 & _ & Hq).
  cbv zeta in *. fold (step_xvel p w) in *. fold (step_yvel p w) in *.
  fold (step_press p w) in *. auto.
Qed.

(** C5. After the three sequential [assign_dofs] calls, whatever the
    mesh and the orders of the spaces, the three fields use the index
    ranges [[0, c0)], [[c0, c0+c1)] and [[c0+c1, c0+c1+c2)]: each starts
    where the previous one ended, they are pairwise disjoint, and their
    total is the count kept in [ndofs] and the dimension of the system
    assembled over these spaces.  The same holds in every iteration of
    the main loop. *)
Theorem dof_ranges_contiguous :
  (forall (w : World) (wf : WeakForm) (pss : list ShapesetKind)
          (xp yp : Solution),
      let ndofs := fst (assign_all_dofs w) in
      let w' := exec assign_all_dofs w in
      let c0 := sp_ndofs (xvel w') in
      let c1 := sp_ndofs (yvel w') in
      let c2 := sp_ndofs (press w') in
      (0 <= c0 /\ 0 <= c1 /\ 0 <= c2)%Z
      /\ free_dofs (sp_dofs (xvel w')) = seqZ 0 c0
      /\ free_dofs (sp_dofs (yvel w')) = seqZ c0 c1
      /\ free_dofs (sp_dofs (press w')) = seqZ (c0 + c1) c2
      /\ (forall k : Z, k ∈ free_dofs (sp_dofs (xvel w')) ->
                        k ∈ free_dofs (sp_dofs (yvel w')) -> False)
      /\ (forall k : Z, k ∈ free_dofs (sp_dofs (xvel w')) ->
                        k ∈ free_dofs (sp_dofs (press w')) -> False)
      /\ (forall k : Z, k ∈ free_dofs (sp_dofs (yvel w')) ->
                        k ∈ free_dofs (sp_dofs (press w')) -> False)
      /\ ndofs = (c0 + c1 + c2)%Z
      /\ ls_n (assemble wf (sys_spaces w') pss xp yp) = ndofs)
  /\ (forall (p : Params) (spsolve : LinSystem -> SolveResult) (mesh : Mesh)
             (k : nat),
        let w := run p spsolve (S k) (init p mesh) in
        let c0 := sp_ndofs (xvel w) in
        let c1 := sp_ndofs (yvel w) in
        let c2 := sp_ndofs (press w) in
        free_dofs (sp_dofs (xvel w)) = seqZ 0 c0
        /\ free_dofs (sp_dofs (yvel w)) = seqZ c0 c1
        /\ free_dofs (sp_dofs (press w)) = seqZ (c0 + c1) c2
        /\ ls_n (sys w) = (c0 + c1 + c2)%Z).
Proof.
  split.
  - intros w wf pss xp yp. cbv zeta. unfold sys_spaces.
    destruct (assign_all_dofs_spec w) as (Hn & -> & -> & ->).
    rewrite Hn.
    destruct (assign_dofs_range (TIME w) (xvel w) 0) as (H0 & _ & Hx).
    destruct (assign_dofs_range (TIME w) (yvel w)
                (sp_ndofs (fst (assign_dofs (TIME w) (xvel w) 0))))
      as (H1 & _ & Hy).
    destruct (assign_dofs_range (TIME w) (press w)
                (sp_ndofs (fst (assign_dofs (TIME w) (xvel w) 0))
                 + sp_ndofs (fst (assign_dofs (TIME w) (yvel w)
                     (sp_ndofs (fst (assign_dofs (TIME w) (xvel w) 0)))))))
      as (H2 & _ & Hq).
    cbv zeta in *.
    split; [auto |]. split; [exact Hx |]. split; [exact Hy |].
    split; [exact Hq |].
    split; [rewrite Hx, Hy; apply seqZ_disjoint; lia |].
    split; [rewrite Hx, Hq; apply seqZ_disjoint; lia |].
    split; [rewrite Hy, Hq; apply seqZ_disjoint; lia |].
    split; [reflexivity |].
    rewrite assemble_ls_n. unfold total_dofs. cbn [foldr]. lia.
  - intros p spsolve mesh k. cbv zeta.
    rewrite run_S, time_step_spec. cbn [xvel yvel press sys].
    unfold step_system. rewrite assemble_ls_n.
    destruct (step_ranges p (run p spsolve k (init p mesh)))
      as (_ & Hx & Hy & Hq).
    cbv zeta in *.
    split; [exact Hx |]. split; [exact Hy |]. split; [exact Hq |].
    unfold total_dofs. cbn [foldr]. lia.
Qed.

(** ** Symmetric and antisymmetric terms *)

Lemma mat_add_symmetric_pair (r c : Z) (v : scalar) (A : Z -> Z -> scalar) :
  symmetric A -> symmetric (mat_add c r v (mat_add r c v A)).
Proof.
  intros HA i j. unfold mat_add. specialize (HA i j).
  repeat case_decide; try (exfalso; lia); rewrite HA; ring.
Qed.

Lemma mat_add_symmetric_diag (r : Z) (v : scalar) (A : Z -> Z -> scalar) :
  symmetric A -> symmetric (mat_add r r v A).
Proof.
  intros HA i j. unfold mat_add. specialize (HA i j).
  repeat case_decide; try (exfalso; lia); rewrite HA; ring.
Qed.

Lemma mat_add_antisymmetric_pair (r c : Z) (v : scalar)
    (A : Z -> Z -> scalar) :
  antisymmetric A -> antisymmetric (mat_add c r (- v) (mat_add r c v A)).
Proof.
  intros HA i j. unfold mat_add. specialize (HA i j).
  repeat case_decide; try (exfalso; lia); rewrite HA; ring.
Qed.

Lemma scatter_ls_A (row col : option DofRef) (v : scalar) (s : LinSystem) :
  ls_A (scatter row col v s)
  = match row, col with
    | Some (Free r), Some (Free c) => mat_add r c v (ls_A s)
    | _, _ => ls_A s
    end.
Proof. destruct row as [[r | g] |], col as [[c | g'] |]; reflexivity. Qed.

Lemma add_load_ls_A env t e spm s test :
  ls_A (add_load env t e spm s test) = ls_A s.
Proof.
  unfold add_load. destruct (dof_of spm (fst test)) as [[r | g] |]; reflexivity.
Qed.

Lemma assemble_liform_ls_A spaces pss env e s t :
  ls_A (assemble_liform spaces pss env e s t) = ls_A s.
Proof.
  unfold assemble_liform. destruct (spaces !! lf_i t) as [spm |]; [| reflexivity].
  apply (fold_left_invariant (fun s' => ls_A s' = ls_A s)); [| reflexivity].
  intros a x _ Ha. rewrite add_load_ls_A. exact Ha.
Qed.

Lemma add_pair_symmetric env t e spm spn s test trial mirror :
  mirror = MirrorSame
  \/ (mirror = NoMirror /\ dof_of spm (fst test) = dof_of spn (fst trial)) ->
  symmetric (ls_A s) ->
  symmetric (ls_A (add_pair env t e spm spn s (test, trial, mirror))).
Proof.
  intros Hm Hs. unfold add_pair.
  destruct Hm as [-> | [-> Hd]].
  - rewrite !scatter_ls_A.
    destruct (dof_of spm (fst test)) as [[r | g] |],
             (dof_of spn (fst trial)) as [[c | g'] |];
      try exact Hs; try (rewrite scatter_ls_A; exact Hs).
    apply mat_add_symmetric_pair. exact Hs.
  - rewrite scatter_ls_A, Hd.
    destruct (dof_of spn (fst trial)) as [[c | g'] |]; try exact Hs.
    apply mat_add_symmetric_diag. exact Hs.
Qed.

Lemma add_pair_antisymmetric env t e spm spn s test trial :
  antisymmetric (ls_A s) ->
  antisymmetric
    (ls_A (add_pair env t e spm spn s (test, trial, MirrorNegated))).
Proof.
  intros Hs. unfold add_pair. rewrite !scatter_ls_A.
  destruct (dof_of spm (fst test)) as [[r | g] |],
           (dof_of spn (fst trial)) as [[c | g'] |];
    try exact Hs; try (rewrite scatter_ls_A; exact Hs).
  apply mat_add_antisymmetric_pair. exact Hs.
Qed.

Lemma all_pairs_mirror (m : Mirror) (tests trials : list Shape)
    (pr : LocalPair) :
  pr ∈ all_pairs m tests trials -> snd pr = m.
Proof.
  unfold all_pairs. rewrite list_elem_of_In, in_flat_map.
  intros (t & _ & Hin). apply in_map_iff in Hin as (u & <- & _). reflexivity.
Qed.

Lemma triangle_pairs (l : list Shape) (pr : LocalPair) :
  pr ∈ triangle l ->
  (exists x, pr = (x, x, NoMirror)) \/ snd pr = MirrorSame.
Proof.
  induction l as [| x l IH]; cbn [triangle].
  - intros Hin. inversion Hin.
  - rewrite elem_of_cons, elem_of_app. intros [-> | [Hin | Hin]].
    + left. exists x. reflexivity.
    + apply list_elem_of_In, in_map_iff in Hin as (y & <- & _).
      right. reflexivity.
    + apply IH. exact Hin.
Qed.

Lemma assemble_biform_symmetric spaces pss env e s t :
  bf_sym t = SYM ->
  symmetric (ls_A s) ->
  symmetric (ls_A (assemble_biform spaces pss env e s t)).
Proof.
  intros Ht Hs. unfold assemble_biform.
  destruct (spaces !! bf_i t) as [spm |] eqn:Em; [| exact Hs].
  destruct (spaces !! bf_j t) as [spn |] eqn:En; [| exact Hs].
  apply (fold_left_invariant (fun s' => symmetric (ls_A s'))); [| exact Hs].
  intros a [[test trial] mirror] Hin Ha.
  apply add_pair_symmetric; [| exact Ha].
  unfold term_pairs in Hin. rewrite Ht in Hin.
  destruct (decide (bf_i t = bf_j t)) as [E | _].
  - apply triangle_pairs in Hin as [(x & Hx) | Hx].
    + right. inversion Hx; subst. split; [reflexivity |].
      rewrite E in Em. congruence.
    + left. exact Hx.
  - left. apply all_pairs_mirror in Hin. exact Hin.
Qed.

Lemma assemble_biform_antisymmetric spaces pss env e s t :
  bf_sym t = ANTISYM ->
  antisymmetric (ls_A s) ->
  antisymmetric (ls_A (assemble_biform spaces pss env e s t)).
Proof.
  intros Ht Hs. unfold assemble_biform.
  destruct (spaces !! bf_i t) as [spm |]; [| exact Hs].
  destruct (spaces !! bf_j t) as [spn |]; [| exact Hs].
  apply (fold_left_invariant (fun s' => antisymmetric (ls_A s'))); [| exact Hs].
  intros a [[test trial] mirror] Hin Ha.
  unfold term_pairs in Hin. rewrite Ht in Hin.
  apply all_pairs_mirror in Hin. cbn [snd] in Hin. subst mirror.
  apply add_pair_antisymmetric. exact Ha.
Qed.

(** A matrix assembled from terms that all keep a property of the
    accumulated matrix has that property. *)
Lemma assemble_matrix_invariant (P : (Z -> Z -> scalar) -> Prop)
    wf spaces pss xp yp :
  P (fun _ _ => 0) ->
  (forall env e s t, t ∈ wf_biforms wf -> P (ls_A s) ->
                     P (ls_A (assemble_biform spaces pss env e s t))) ->
  P (ls_A (assemble wf spaces pss xp yp)).
Proof.
  intros H0 Hstep. unfold assemble.
  apply (fold_left_invariant (fun s' => P (ls_A s'))); [| exact H0].
  intros a [k e] _ Ha. unfold assemble_element.
  apply (fold_left_invariant (fun s' => P (ls_A s'))).
  - intros a' t _ Ha'. rewrite assemble_liform_ls_A. exact Ha'.
  - apply (fold_left_invariant (fun s' => P (ls_A s'))); [| exact Ha].
    intros a' t Hin Ha'. apply Hstep; assumption.
Qed.

Lemma biform_matrix_symmetric spaces pss xp yp t :
  bf_sym t = SYM -> symmetric (biform_matrix spaces pss xp yp t).
Proof.
  intros Ht. unfold biform_matrix. apply assemble_matrix_invariant.
  - intros i j. reflexivity.
  - cbn [wf_biforms]. intros env e s t' Hin Hs.
    apply list_elem_of_singleton in Hin. subst t'.
    apply assemble_biform_symmetric; assumption.
Qed.

Lemma biform_matrix_antisymmetric spaces pss xp yp t :
  bf_sym t = ANTISYM -> antisymmetric (biform_matrix spaces pss xp yp t).
Proof.
  intros Ht. unfold biform_matrix. apply assemble_matrix_invariant.
  - intros i j. ring.
  - cbn [wf_biforms]. intros env e s t' Hin Hs.
    apply list_elem_of_singleton in Hin. subst t'.
    apply assemble_biform_antisymmetric; assumption.
Qed.

(** *** Contributions accumulate additively *)

Lemma additive_compose (f g : LinSystem -> LinSystem) :
  additive f -> additive g -> additive (fun s => g (f s)).
Proof.
  intros Hf Hg s i j. cbv beta.
  rewrite (Hg (f s)), (Hf s), (Hg (f (zero_system 0))). ring.
Qed.

Lemma additive_fold {B : Type} (f : LinSystem -> B -> LinSystem)
    (l : list B) :
  (forall x, additive (fun s => f s x)) ->
  additive (fun s => fold_left f l s)
  /\ forall i j,
       ls_A (fold_left f l (zero_system 0)) i j
       = Qcsum (map (fun x => ls_A (f (zero_system 0) x) i j) l).
Proof.
  intros Hf. induction l as [| x l [IHa IHs]].
  - split.
    + intros s i j. cbn. ring.
    + intros i j. reflexivity.
  - split.
    + cbn [fold_left].
      apply (additive_compose (fun s => f s x) (fun s => fold_left f l s));
        [apply Hf | exact IHa].
    + intros i j. cbn [fold_left map Qcsum].
      rewrite (IHa (f (zero_system 0) x)), IHs. reflexivity.
Qed.

Lemma mat_add_additive (r c : Z) (v : scalar) (A : Z -> Z -> scalar)
    (i j : Z) :
  mat_add r c v A i j = A i j + mat_add r c v (fun _ _ => 0) i j.
Proof. unfold mat_add. case_decide; ring. Qed.

Lemma scatter_additive row col v : additive (scatter row col v).
Proof.
  intros s i j. rewrite !scatter_ls_A.
  destruct row as [[r | g] |], col as [[c | g'] |];
    try (cbn [zero_system ls_A]; ring).
  apply mat_add_additive.
Qed.

Lemma add_pair_additive env t e spm spn pr :
  additive (fun s => add_pair env t e spm spn s pr).
Proof.
  destruct pr as [[test trial] mirror]. unfold add_pair.
  destruct mirror.
  - apply scatter_additive.
  - apply (additive_compose (scatter _ _ _) (scatter _ _ _));
      apply scatter_additive.
  - apply (additive_compose (scatter _ _ _) (scatter _ _ _));
      apply scatter_additive.
Qed.

Lemma assemble_biform_additive spaces pss env e t :
  additive (fun s => assemble_biform spaces pss env e s t).
Proof.
  unfold assemble_biform.
  destruct (spaces !! bf_i t) as [spm |];
    [| intros s i j; cbn [zero_system ls_A]; ring].
  destruct (spaces !! bf_j t) as [spn |];
    [| intros s i j; cbn [zero_system ls_A]; ring].
  apply additive_fold. intros pr. apply add_pair_additive.
Qed.

Lemma assemble_liform_additive spaces pss env e t :
  additive (fun s => assemble_liform spaces pss env e s t).
Proof.
  intros s i j. rewrite !assemble_liform_ls_A. cbn [zero_system ls_A]. ring.
Qed.

Lemma fold_liforms_ls_A spaces pss env e (l : list LiForm) s :
  ls_A (fold_left (assemble_liform spaces pss env e) l s) = ls_A s.
Proof.
  apply (fold_left_invariant (fun s' => ls_A s' = ls_A s)); [| reflexivity].
  intros a t _ Ha. rewrite assemble_liform_ls_A. exact Ha.
Qed.

Lemma assemble_element_additive wf spaces pss xp yp ke :
  additive (fun s => assemble_element wf spaces pss xp yp s ke)
  /\ forall i j,
       ls_A (assemble_element wf spaces pss xp yp (zero_system 0) ke) i j
       = Qcsum (map (fun t =>
                  ls_A (assemble_biform spaces pss
                          {| env_xprev := activate xp (fst ke) (snd ke);
                             env_yprev := activate yp (fst ke) (snd ke) |}
                          (snd ke) (zero_system 0) t) i j)
               (wf_biforms wf)).
Proof.
  destruct ke as [k e]. unfold assemble_element. cbn [fst snd].
  set (env := {| env_xprev := activate xp k e; env_yprev := activate yp k e |}).
  destruct (additive_fold (assemble_biform spaces pss env e) (wf_biforms wf))
    as [Ha Hs]; [intros t; apply assemble_biform_additive |].
  split.
  - intros s i j. rewrite !fold_liforms_ls_A. apply Ha.
  - intros i j. rewrite fold_liforms_ls_A. apply Hs.
Qed.

Lemma assemble_ls_A wf spaces pss xp yp (i j : Z) :
  ls_A (assemble wf spaces pss xp yp) i j
  = Qcsum (map (fun ke =>
             ls_A (assemble_element wf spaces pss xp yp (zero_system 0) ke) i j)
          (zip (seq 0 (length (system_elements spaces)))
               (system_elements spaces))).
Proof.
  unfold assemble.
  destruct (additive_fold (assemble_element wf spaces pss xp yp)
              (zip (seq 0 (length (system_elements spaces)))
                   (system_elements spaces))) as [Ha Hs];
    [intros ke; apply assemble_element_additive |].
  rewrite (Ha (zero_system (total_dofs spaces))), Hs.
  cbn [zero_system ls_A]. ring.
Qed.

Lemma Qcsum_add {B : Type} (f g : B -> scalar) (l : list B) :
  Qcsum (map (fun x => f x + g x) l) = Qcsum (map f l) + Qcsum (map g l).
Proof.
  induction l as [| x l IH]; cbn [map Qcsum]; [ring | rewrite IH; ring].
Qed.

Lemma Qcsum_zero {B : Type} (l : list B) : Qcsum (map (fun _ => 0) l) = 0.
Proof. induction l as [| x l IH]; cbn [map Qcsum]; [| rewrite IH]; ring. Qed.

Lemma Qcsum_ext {B : Type} (f g : B -> scalar) (l : list B) :
  (forall x, f x = g x) -> Qcsum (map f l) = Qcsum (map g l).
Proof.
  intros Hfg. induction l as [| x l IH]; cbn [map Qcsum];
    [| rewrite IH, Hfg]; reflexivity.
Qed.

Lemma Qcsum_swap {B C : Type} (d : B -> C -> scalar) (es : list B)
    (ts : list C) :
  Qcsum (map (fun e => Qcsum (map (fun t => d e t) ts)) es)
  = Qcsum (map (fun t => Qcsum (map (fun e => d e t) es)) ts).
Proof.
  induction es as [| e es IH]; cbn [map Qcsum].
  - rewrite Qcsum_zero. reflexivity.
  - rewrite IH, <- Qcsum_add. reflexivity.
Qed.

(** The global matrix is the sum of the matrices of its bilinear terms. *)
Lemma assemble_sum_of_terms wf spaces pss xp yp (i j : Z) :
  ls_A (assemble wf spaces pss xp yp) i j
  = Qcsum (map (fun t => biform_matrix spaces pss xp yp t i j)
               (wf_biforms wf)).
Proof.
  rewrite assemble_ls_A.
  erewrite Qcsum_ext
    by (intros ke; apply (proj2 (assemble_element_additive _ _ _ _ _ ke))).
  rewrite Qcsum_swap. apply Qcsum_ext. intros t.
  unfold biform_matrix. rewrite assemble_ls_A. apply Qcsum_ext. intros ke.
  rewrite (proj2 (assemble_element_additive _ _ _ _ _ ke)).
  cbn [wf_biforms map Qcsum]. ring.
Qed.

(** *** Where a term puts its entries *)

Lemma dof_of_free (sp : Space) (c : nat) (k : Z) :
  dof_of sp c = Some (Free k) -> k ∈ free_dofs (sp_dofs sp).
Proof.
  unfold dof_of, free_dofs. intros Hc. apply list_elem_of_omap.
  exists (Free k). split; [| reflexivity].
  eapply list_elem_of_lookup_2. exact Hc.
Qed.

Lemma mat_add_supported (Fm Fn : list Z) (r c : Z) (v : scalar)
    (A : Z -> Z -> scalar) :
  (r ∈ Fm /\ c ∈ Fn) \/ (r ∈ Fn /\ c ∈ Fm) ->
  supported Fm Fn A -> supported Fm Fn (mat_add r c v A).
Proof.
  intros Hrc HA i j Hij. unfold mat_add.
  case_decide as E; [| apply HA; exact Hij].
  destruct E as [-> ->]. contradiction.
Qed.

Lemma scatter_supported (spr spc : Space) (cr cc : nat) (v : scalar)
    (Fm Fn : list Z) (s : LinSystem) :
  (free_dofs (sp_dofs spr) = Fm /\ free_dofs (sp_dofs spc) = Fn)
  \/ (free_dofs (sp_dofs spr) = Fn /\ free_dofs (sp_dofs spc) = Fm) ->
  supported Fm Fn (ls_A s) ->
  supported Fm Fn (ls_A (scatter (dof_of spr cr) (dof_of spc cc) v s)).
Proof.
  intros HF Hs. rewrite scatter_ls_A.
  destruct (dof_of spr cr) as [[r | g] |] eqn:Er; try exact Hs.
  destruct (dof_of spc cc) as [[c | g'] |] eqn:Ec; try exact Hs.
  apply dof_of_free in Er, Ec.
  apply mat_add_supported; [| exact Hs].
  destruct HF as [[<- <-] | [<- <-]]; [left | right]; split; assumption.
Qed.

Lemma assemble_biform_supported spaces pss env e s t spm spn :
  spaces !! bf_i t = Some spm -> spaces !! bf_j t = Some spn ->
  supported (free_dofs (sp_dofs spm)) (free_dofs (sp_dofs spn)) (ls_A s) ->
  supported (free_dofs (sp_dofs spm)) (free_dofs (sp_dofs spn))
            (ls_A (assemble_biform spaces pss env e s t)).
Proof.
  intros Em En Hs. unfold assemble_biform. rewrite Em, En.
  apply (fold_left_invariant
           (fun s' => supported (free_dofs (sp_dofs spm))
                                (free_dofs (sp_dofs spn)) (ls_A s')));
    [| exact Hs].
  intros a [[test trial] mirror] _ Ha. unfold add_pair.
  destruct mirror.
  - apply scatter_supported; [left; split; reflexivity | exact Ha].
  - apply scatter_supported; [right; split; reflexivity |].
    apply scatter_supported; [left; split; reflexivity | exact Ha].
  - apply scatter_supported; [right; split; reflexivity |].
    apply scatter_supported; [left; split; reflexivity | exact Ha].
Qed.

(** The matrix of a term has entries only in the block of its row and
    column fields and in the mirrored block. *)
Lemma biform_matrix_supported spaces pss xp yp t spm spn :
  spaces !! bf_i t = Some spm -> spaces !! bf_j t = Some spn ->
  supported (free_dofs (sp_dofs spm)) (free_dofs (sp_dofs spn))
            (biform_matrix spaces pss xp yp t).
Proof.
  intros Em En. unfold biform_matrix. apply assemble_matrix_invariant.
  - intros i j _. reflexivity.
  - cbn [wf_biforms]. intros env e s t' Hin Hs.
    apply list_elem_of_singleton in Hin. subst t'.
    apply assemble_biform_supported; assumption.
Qed.

(** In the matrix of [main]'s weak form over three spaces with pairwise
    disjoint index ranges, the pressure rows are the negated pressure
    columns: only the two antisymmetric coupling terms have entries
    there. *)
Lemma main_matrix_pressure_blocks (p : Params) (sx sy sq : Space)
    (xp yp : Solution) (r c : Z) :
  (forall k, k ∈ free_dofs (sp_dofs sx) -> k ∈ free_dofs (sp_dofs sq) -> False) ->
  (forall k, k ∈ free_dofs (sp_dofs sy) -> k ∈ free_dofs (sp_dofs sq) -> False) ->
  c ∈ free_dofs (sp_dofs sq) ->
  ls_A (assemble (main_weak_form p) [sx; sy; sq] sys_pss xp yp) c r
  = - ls_A (assemble (main_weak_form p) [sx; sy; sq] sys_pss xp yp) r c.
Proof.
  intros Dx Dy Hc. rewrite !assemble_sum_of_terms.
  set (t1 := {| bf_i := 0; bf_j := 0; bf_fn := bilinear_form_sym_0_0_1_1 p;
                bf_sym := SYM; bf_ext := [] |}).
  set (t2 := {| bf_i := 0; bf_j := 0; bf_fn := bilinear_form_unsym_0_0_1_1;
                bf_sym := UNSYM; bf_ext := [Xprev; Yprev] |}).
  set (t3 := {| bf_i := 1; bf_j := 1; bf_fn := bilinear_form_sym_0_0_1_1 p;
                bf_sym := SYM; bf_ext := [] |}).
  set (t4 := {| bf_i := 1; bf_j := 1; bf_fn := bilinear_form_unsym_0_0_1_1;
                bf_sym := UNSYM; bf_ext := [Xprev; Yprev] |}).
  set (t5 := {| bf_i := 0; bf_j := 2; bf_fn := bilinear_form_unsym_0_2;
                bf_sym := ANTISYM; bf_ext := [] |}).
  set (t6 := {| bf_i := 1; bf_j := 2; bf_fn := bilinear_form_unsym_1_2;
                bf_sym := ANTISYM; bf_ext := [] |}).
  change (wf_biforms (main_weak_form p)) with [t1; t2; t3; t4; t5; t6].
  cbn [map Qcsum].
  assert (Hdiag : forall t sp i,
             [sx; sy; sq] !! bf_i t = Some sp ->
             [sx; sy; sq] !! bf_j t = Some sp ->
             (forall k, k ∈ free_dofs (sp_dofs sp) ->
                        k ∈ free_dofs (sp_dofs sq) -> False) ->
             biform_matrix [sx; sy; sq] sys_pss xp yp t c i = 0
             /\ biform_matrix [sx; sy; sq] sys_pss xp yp t i c = 0).
  { intros t sp i Em En D.
    pose proof (biform_matrix_supported [sx; sy; sq] sys_pss xp yp t sp sp
                  Em En) as Hsup.
    split; apply Hsup; intros [[H1 H2] | [H1 H2]];
      first [exact (D c H1 Hc) | exact (D c H2 Hc)]. }
  destruct (Hdiag t1 sx r eq_refl eq_refl Dx) as [-> ->].
  destruct (Hdiag t2 sx r eq_refl eq_refl Dx) as [-> ->].
  destruct (Hdiag t3 sy r eq_refl eq_refl Dy) as [-> ->].
  destruct (Hdiag t4 sy r eq_refl eq_refl Dy) as [-> ->].
  rewrite (biform_matrix_antisymmetric [sx; sy; sq] sys_pss xp yp t5
             eq_refl r c).
  rewrite (biform_matrix_antisymmetric [sx; sy; sq] sys_pss xp yp t6
             eq_refl r c).
  ring.
Qed.

(** ** The rest state *)

Lemma quad_all_zero (w : RefMap) (f : list scalar) :
  Forall (fun x => x = 0) f -> quad w f = 0.
Proof.
  revert f. induction w as [| wi w IH]; intros f Hf; [reflexivity |].
  destruct f as [| fi f]; [reflexivity |].
  inversion Hf as [| ? ? Hfi Hf']; subst. cbn [quad]. rewrite (IH f Hf'). ring.
Qed.

Lemma zip_zero_fn_val (n : nat) (fv : RealFunction) :
  Forall (fun x => x = 0)
         (zip_with (fun u v => val u * val v) (zero_fn n) fv).
Proof.
  revert fv. induction n as [| n IH]; intros fv; [constructor |].
  destruct fv as [| v fv]; [constructor |].
  cbn. constructor; [ring | apply IH].
Qed.

Lemma int_u_v_zero_fn (n : nat) (fv : RealFunction) (ru rv : RefMap) :
  int_u_v (zero_fn n) fv ru rv = 0.
Proof. unfold int_u_v. apply quad_all_zero, zip_zero_fn_val. Qed.

Lemma lookup_map {A B : Type} (f : A -> B) (l : list A) (k : nat) :
  map f l !! k = option_map f (l !! k).
Proof.
  revert k. induction l as [| x l IH]; intros [| k]; try reflexivity.
  apply IH.
Qed.

Lemma activate_set_zero (mesh : Mesh) (k : nat) (e : Element) :
  exists n, as_fn (activate (set_zero mesh) k e) = zero_fn n.
Proof.
  unfold activate, set_zero. rewrite lookup_map.
  destruct (elements mesh !! k) as [e' |]; cbn; eexists; reflexivity.
Qed.

(** With zero previous-step fields the load kernels of [main] vanish. *)
Lemma linear_forms_zero (p : Params) (mesh : Mesh) (k : nat) (e : Element)
    (fv : RealFunction) (rv : RefMap) :
  let env := {| env_xprev := activate (set_zero mesh) k e;
                env_yprev := activate (set_zero mesh) k e |} in
  linear_form_0 p env fv rv = 0 /\ linear_form_1 p env fv rv = 0.
Proof.
  cbv zeta. unfold linear_form_0, linear_form_1. cbn [env_xprev env_yprev].
  destruct (activate_set_zero mesh k e) as [n ->].
  rewrite int_u_v_zero_fn. unfold Qcdiv. split; ring.
Qed.

Lemma number_dofs_zero_essential (bc_type : Z -> BCType)
    (bc_value : Z -> double -> double -> double) (ns : list Node) (next : Z) :
  (forall m x y, ideal (bc_value m x y) = 0) ->
  Forall (fun d => forall g, d = Essential g -> g = 0)
         (fst (number_dofs bc_type bc_value next ns)).
Proof.
  intros Hz. revert next. induction ns as [| n ns IH]; intros next.
  - constructor.
  - cbn [number_dofs].
    destruct (essential_value bc_type bc_value n) as [g |] eqn:Eg.
    + specialize (IH next).
      destruct (number_dofs bc_type bc_value next ns) as [ds next'].
      cbn [fst] in *. constructor; [| exact IH].
      intros g' [= <-]. unfold essential_value in Eg.
      destruct (node_marker n) as [m |]; [| discriminate].
      destruct (bc_type m); try discriminate.
      injection Eg as <-. apply Hz.
    + specialize (IH (next + 1)%Z).
      destruct (number_dofs bc_type bc_value (next + 1) ns) as [ds next'].
      cbn [fst] in *. constructor; [| exact IH]. intros g' [=].
Qed.

Lemma assign_dofs_zero_essential (t : double) (sp : Space) (first : Z) :
  zero_bc sp -> zero_essential (fst (assign_dofs t sp first)).
Proof.
  intros Hz c g. unfold dof_of, assign_dofs.
  pose proof (number_dofs_zero_essential (sp_bc_type sp) (sp_bc_value sp t)
                (carriers (sp_mesh sp) (sp_shapeset sp) (sp_order sp)) first
                (Hz t)) as Hall.
  destruct (number_dofs _ _ _ _) as [ds next']. cbn [fst sp_dofs] in *.
  intros Hc. rewrite Forall_lookup in Hall. exact (Hall c _ Hc g eq_refl).
Qed.

Lemma assign_dofs_static (t : double) (sp : Space) (first : Z) :
  sp_mesh (fst (assign_dofs t sp first)) = sp_mesh sp
  /\ sp_bc_value (fst (assign_dofs t sp first)) = sp_bc_value sp.
Proof. unfold assign_dofs. destruct (number_dofs _ _ _ _). split; reflexivity. Qed.

Lemma scatter_rhs_zero (spr spc : Space) (cr cc : nat) (v : scalar)
    (s : LinSystem) :
  zero_essential spc -> rhs_zero s ->
  rhs_zero (scatter (dof_of spr cr) (dof_of spc cc) v s).
Proof.
  intros Hz Hs. unfold scatter.
  destruct (dof_of spr cr) as [[r | g] |]; try exact Hs.
  destruct (dof_of spc cc) as [[c | g'] |] eqn:Ec; try exact Hs.
  intros i. cbn [ls_rhs]. unfold vec_add. rewrite (Hz cc g' Ec), (Hs i).
  case_decide; ring.
Qed.

Lemma add_pair_rhs_zero env t e spm spn s pr :
  zero_essential spm -> zero_essential spn -> rhs_zero s ->
  rhs_zero (add_pair env t e spm spn s pr).
Proof.
  intros Hm Hn Hs. destruct pr as [[test trial] mirror]. unfold add_pair.
  destruct mirror; repeat (apply scatter_rhs_zero; try assumption).
Qed.

Lemma assemble_rhs_zero wf spaces pss xp yp :
  (forall sp, sp ∈ spaces -> zero_essential sp) ->
  (forall t k e fv rv, t ∈ wf_liforms wf ->
     lf_fn t {| env_xprev := activate xp k e; env_yprev := activate yp k e |}
       fv rv = 0) ->
  rhs_zero (assemble wf spaces pss xp yp).
Proof.
  intros Hsp Hlf. unfold assemble.
  apply (fold_left_invariant rhs_zero); [| intros i; reflexivity].
  intros a [k e] _ Ha. unfold assemble_element.
  apply (fold_left_invariant rhs_zero).
  - intros a' t Hin Ha'. unfold assemble_liform.
    destruct (spaces !! lf_i t) as [spm |]; [| exact Ha'].
    apply (fold_left_invariant rhs_zero); [| exact Ha'].
    intros a'' test _ Ha''. unfold add_load.
    destruct (dof_of spm (fst test)) as [[r | g] |]; try exact Ha''.
    intros i. cbn [ls_rhs]. unfold vec_add.
    rewrite (Hlf t k e _ _ Hin), (Ha'' i). case_decide; ring.
  - apply (fold_left_invariant rhs_zero); [| exact Ha].
    intros a' t _ Ha'. unfold assemble_biform.
    destruct (spaces !! bf_i t) as [spm |] eqn:Em; [| exact Ha'].
    destruct (spaces !! bf_j t) as [spn |] eqn:En; [| exact Ha'].
    apply (fold_left_invariant rhs_zero); [| exact Ha'].
    intros a'' pr _ Ha''. apply add_pair_rhs_zero; [| | exact Ha''].
    + apply Hsp. eapply list_elem_of_lookup_2. exact Em.
    + apply Hsp. eapply list_elem_of_lookup_2. exact En.
Qed.

Lemma eval_at_zero (sp : Space) (X : Vec) (shapes : list Shape) (q : nat) :
  zero_essential sp -> (forall i, X i = 0) ->
  eval_at sp X shapes q = zero_sample.
Proof.
  intros Hz HX. unfold eval_at. induction shapes as [| sh shapes IH].
  - reflexivity.
  - cbn [foldr]. rewrite IH.
    assert (Hc : coef X (dof_of sp (fst sh)) = 0).
    { unfold coef. destruct (dof_of sp (fst sh)) as [[k | g] |] eqn:Ed.
      - apply HX.
      - exact (Hz _ _ Ed).
      - reflexivity. }
    rewrite Hc. unfold sample_axpy, zero_sample. cbn [val dx dy].
    f_equal; ring.
Qed.

Lemma map_const_seq {B : Type} (z : B) (n start : nat) :
  map (fun _ => z) (seq start n) = replicate n z.
Proof.
  revert start. induction n as [| n IH]; intros start; [reflexivity |].
  cbn [seq map replicate]. rewrite IH. reflexivity.
Qed.

(** Decoding the zero vector in a space without boundary data gives the
    zero field. *)
Lemma set_fe_solution_zero (sp : Space) (pss : ShapesetKind) (X : Vec) :
  zero_essential sp -> (forall i, X i = 0) ->
  set_fe_solution sp pss X = set_zero (sp_mesh sp).
Proof.
  intros Hz HX. unfold set_fe_solution, set_zero.
  apply map_ext. intros e. f_equal. unfold zero_fn.
  rewrite <- (map_const_seq zero_sample (length (el_refmap e)) 0).
  apply map_ext. intros q. apply eval_at_zero; assumption.
Qed.

Lemma init_spaces (p : Params) (mesh : Mesh) :
  let w := init p mesh in
  sp_mesh (xvel w) = mesh /\ sp_mesh (yvel w) = mesh
  /\ sp_mesh (press w) = mesh
  /\ sp_bc_value (xvel w) = xvel_bc_value p
  /\ sp_bc_value (yvel w) = (fun _ _ _ _ => dzero)
  /\ sp_bc_value (press w) = (fun _ _ _ _ => dzero).
Proof.
  cbv zeta. unfold init. cbv zeta.
  cbn [xvel yvel press set_xprev set_yprev].
  match goal with
  | |- context [exec assign_all_dofs ?w0] =>
      destruct (assign_all_dofs_spec w0) as (_ & -> & -> & ->)
  end.
  cbn [TIME xvel yvel press].
  repeat match goal with
  | |- context [fst (assign_dofs ?t ?sp ?f)] =>
      let Hm := fresh in let Hv := fresh in
      destruct (assign_dofs_static t sp f) as [Hm Hv];
      rewrite ?Hm, ?Hv; clear Hm Hv
  end.
  repeat split; reflexivity.
Qed.

Section RestState.

Variable p : Params.
Variable spsolve : LinSystem -> SolveResult.
Variable mesh : Mesh.

Hypothesis bc_zero :
  forall t m x y, ideal (xvel_bc_value p t m x y) = 0.
Hypothesis solve_zero :
  forall s : LinSystem, rhs_zero s -> forall i, solve_x (spsolve s) i = 0.

Lemma init_rest_state : rest_state mesh (init p mesh).
Proof.
  destruct (init_prev p mesh) as [Hx Hy].
  destruct (init_spaces p mesh) as (Hmx & Hmy & Hmp & Hbx & Hby & Hbp).
  cbv zeta in *. unfold rest_state, zero_bc.
  rewrite Hx, Hy, Hmx, Hmy, Hmp, Hbx, Hby, Hbp.
  repeat split; try reflexivity. exact bc_zero.
Qed.

(** In the rest state the assembled right-hand side vanishes. *)
Lemma step_system_rhs_zero (w : World) :
  rest_state mesh w -> rhs_zero (step_system p w).
Proof.
  intros (Hx & Hy & _ & _ & _ & Hbx & Hby & Hbp).
  unfold step_system. rewrite Hx, Hy. apply assemble_rhs_zero.
  - intros sp Hin. unfold step_xvel, step_yvel, step_press in Hin.
    repeat (apply elem_of_cons in Hin as [-> | Hin]);
      [apply assign_dofs_zero_essential; assumption .. |].
    inversion Hin.
  - intros t k e fv rv Hin. cbn in Hin.
    destruct (linear_forms_zero p mesh k e fv rv) as [H0 H1].
    repeat (apply elem_of_cons in Hin as [-> | Hin]);
      [exact H0 | exact H1 |].
    inversion Hin.
Qed.

Lemma step_decodes_zero (w : World) :
  rest_state mesh w ->
  step_xsln p spsolve w = set_zero mesh
  /\ step_ysln p spsolve w = set_zero mesh
  /\ step_psln p spsolve w = set_zero mesh.
Proof.
  intros Hw. pose proof (step_system_rhs_zero w Hw) as Hrhs.
  destruct Hw as (_ & _ & Hmx & Hmy & Hmp & Hbx & Hby & Hbp).
  pose proof (solve_zero _ Hrhs) as HX.
  unfold step_xsln, step_ysln, step_psln, step_solve.
  rewrite !set_fe_solution_zero; try exact HX;
    try (unfold step_xvel, step_yvel, step_press;
         apply assign_dofs_zero_essential; assumption).
  unfold step_xvel, step_yvel, step_press.
  rewrite !(proj1 (assign_dofs_static _ _ _)), Hmx, Hmy, Hmp.
  repeat split; reflexivity.
Qed.

Lemma step_rest_state (i : Z) (w : World) :
  rest_state mesh w -> rest_state mesh (exec (time_step p spsolve i) w).
Proof.
  intros Hw. rewrite time_step_spec.
  destruct (step_decodes_zero w Hw) as (Hx & Hy & _).
  destruct Hw as (_ & _ & Hmx & Hmy & Hmp & Hbx & Hby & Hbp).
  unfold rest_state, zero_bc in *. cbn [xprev yprev xvel yvel press].
  unfold step_xvel, step_yvel, step_press.
  rewrite !(proj1 (assign_dofs_static _ _ _)),
          !(proj2 (assign_dofs_static _ _ _)).
  repeat split; assumption.
Qed.

Lemma run_rest_state (k : nat) :
  rest_state mesh (run p spsolve k (init p mesh)).
Proof.
  induction k as [| k IH].
  - rewrite run_0. apply init_rest_state.
  - rewrite run_S. apply step_rest_state. exact IH.
Qed.

Lemma run_decoded_zero (k : nat) (id : SpaceId) :
  Forall (fun sln => sln = set_zero mesh)
         (decoded id (trace (run p spsolve k (init p mesh)))).
Proof.
  induction k as [| k IH].
  - rewrite run_0. destruct (init_trace p mesh) as (c0 & c1 & ->).
    destruct id; constructor.
  - rewrite run_S, time_step_spec. cbn [trace]. unfold decoded in *.
    rewrite omap_app. apply Forall_app. split; [exact IH |].
    destruct (step_decodes_zero _ (run_rest_state k)) as (Hx & Hy & Hp).
    destruct id; cbn; constructor; try constructor; assumption.
Qed.

End RestState.

Lemma zero_or_nan_ideal (d : double) : zero_or_nan d = true -> ideal d = 0.
Proof. destruct d; try discriminate; reflexivity. Qed.

Lemma zero_or_nan_dmul (a b : double) :
  zero_or_nan a = true -> zero_or_nan (dmul a b) = true.
Proof.
  unfold dmul, SFmul. destruct a; try discriminate; destruct b; reflexivity.
Qed.

Lemma zero_or_nan_ddiv (a b : double) :
  zero_or_nan a = true -> zero_or_nan (ddiv a b) = true.
Proof.
  unfold ddiv, SFdiv. destruct a; try discriminate; destruct b; reflexivity.
Qed.

(** With the inlet velocity at zero the boundary value is a zero (or,
    for coordinates or times that are not numbers, not a number) whatever
    is rounded. *)
Lemma xvel_bc_value_still (p : Params) :
  zero_or_nan (VEL_INLET p) = true ->
  forall t m x y, ideal (xvel_bc_value p t m x y) = 0.
Proof.
  intros Hv t m x y. apply zero_or_nan_ideal. unfold xvel_bc_value.
  destruct (decide (m = marker_left)); [| reflexivity].
  cbv zeta.
  assert (Hval : zero_or_nan (val_y p y) = true).
  { unfold val_y. do 2 apply zero_or_nan_ddiv. do 2 apply zero_or_nan_dmul.
    exact Hv. }
  destruct (dle t (STARTUP_TIME p)); [| exact Hval].
  apply zero_or_nan_ddiv, zero_or_nan_dmul. exact Hval.
Qed.




(** ** Failure of the solve *)

Section Outcome.

Variable p : Params.
Variables s1 s2 : LinSystem -> SolveResult.
Hypothesis same_array : forall s : LinSystem, solve_x (s1 s) = solve_x (s2 s).

Lemma step_same_but_outcomes (i : Z) (w1 w2 : World) :
  same_but_outcomes w1 w2 ->
  same_but_outcomes (exec (time_step p s1 i) w1)
                    (exec (time_step p s2 i) w2).
Proof.
  intros (Ht & Hx & Hy & Hxv & Hyv & Hpr & _ & Htr).
  rewrite !time_step_spec. unfold same_but_outcomes.
  cbn [TIME xprev yprev xvel yvel press sys trace].
  assert (Est : step_time p w1 = step_time p w2)
    by (unfold step_time; rewrite Ht; reflexivity).
  assert (Exv : step_xvel p w1 = step_xvel p w2)
    by (unfold step_xvel; rewrite Est, Hxv; reflexivity).
  assert (Eyv : step_yvel p w1 = step_yvel p w2)
    by (unfold step_yvel; rewrite Est, Exv, Hyv; reflexivity).
  assert (Epr : step_press p w1 = step_press p w2)
    by (unfold step_press; rewrite Est, Exv, Eyv, Hpr; reflexivity).
  assert (Esy : step_system p w1 = step_system p w2)
    by (unfold step_system; rewrite Exv, Eyv, Epr, Hx, Hy; reflexivity).
  assert (EX : solve_x (step_solve p s1 w1) = solve_x (step_solve p s2 w2))
    by (unfold step_solve; rewrite Esy; apply same_array).
  assert (Exs : step_xsln p s1 w1 = step_xsln p s2 w2)
    by (unfold step_xsln; rewrite EX, Exv; reflexivity).
  assert (Eys : step_ysln p s1 w1 = step_ysln p s2 w2)
    by (unfold step_ysln; rewrite EX, Eyv; reflexivity).
  assert (Eps : step_psln p s1 w1 = step_psln p s2 w2)
    by (unfold step_psln; rewrite EX, Epr; reflexivity).
  repeat (split; [assumption |]).
  rewrite !map_app, Htr. f_equal. unfold step_events.
  cbn [map forget_outcome].
  rewrite Est, Exv, Eyv, Exs, Eys, Eps, Hx, Hy. reflexivity.
Qed.

Lemma run_same_but_outcomes (k : nat) (w : World) :
  same_but_outcomes (run p s1 k w) (run p s2 k w).
Proof.
  induction k as [| k IH].
  - rewrite !run_0. repeat split; reflexivity.
  - rewrite !run_S. apply step_same_but_outcomes. exact IH.
Qed.

End Outcome.

Lemma run_solve_outcomes (p : Params) (spsolve : LinSystem -> SolveResult)
    (mesh : Mesh) (k : nat) :
  length (solve_outcomes (trace (run p spsolve k (init p mesh)))) = k.
Proof.
  induction k as [| k IH].
  - rewrite run_0. destruct (init_trace p mesh) as (c0 & c1 & ->). reflexivity.
  - rewrite run_S, time_step_spec. cbn [trace]. unfold solve_outcomes in *.
    rewrite omap_app, length_app, IH. cbn. lia.
Qed.

(** C9 (as amended).  The time loop does not observe whether the solve
    succeeded: two solve services that leave the same array behind lead
    to the same times, spaces, systems, fields and calls, whatever
    outcome they report.  After [k] passages [k] solves have been made,
    none of which stopped the loop: the program ends in the state after
    all its passages.  The array left by each solve, solution or not, is
    decoded into the previous-step fields that the next assembly reads. *)
Theorem solve_outcome_not_observed (p : Params)
    (s1 s2 : LinSystem -> SolveResult) (mesh : Mesh) (k : nat) :
  (forall s : LinSystem, solve_x (s1 s) = solve_x (s2 s)) ->
  let w1 := run p s1 k (init p mesh) in
  let w2 := run p s2 k (init p mesh) in
  TIME w1 = TIME w2 /\ xprev w1 = xprev w2 /\ yprev w1 = yprev w2
  /\ xvel w1 = xvel w2 /\ yvel w1 = yvel w2 /\ press w1 = press w2
  /\ sys w1 = sys w2
  /\ map forget_outcome (trace w1) = map forget_outcome (trace w2)
  /\ length (solve_outcomes (trace w1)) = k
  /\ count_events is_assemble (trace w1) = k
  /\ (forall steps : Z,
        num_time_steps p = Some steps -> (steps < INT_MAX)%Z ->
        main p s1 mesh
        = Some (run p s1 (Z.to_nat steps) (init p mesh)))
  /\ xprev (run p s1 (S k) (init p mesh))
     = set_fe_solution (xvel (run p s1 (S k) (init p mesh)))
         H1ShapesetBeuchler
         (solve_x (s1 (sys (run p s1 (S k) (init p mesh)))))
  /\ yprev (run p s1 (S k) (init p mesh))
     = set_fe_solution (yvel (run p s1 (S k) (init p mesh)))
         H1ShapesetBeuchler
         (solve_x (s1 (sys (run p s1 (S k) (init p mesh))))).
Proof.
  intros Hsame. cbv zeta.
  destruct (run_same_but_outcomes p s1 s2 Hsame k (init p mesh))
    as (Ht & Hx & Hy & Hxv & Hyv & Hpr & Hsy & Htr).
  repeat (split; [assumption |]).
  split; [apply run_solve_outcomes |].
  split.
  { rewrite (run_count p s1 is_assemble 1 (step_events_assemble p s1)).
    destruct (init_trace p mesh) as (c0 & c1 & ->).
    change (count_events is_assemble _) with 0%nat. lia. }
  split; [intros steps; apply main_run |].
  rewrite run_S, time_step_spec. split; reflexivity.
Qed.

Lemma solve_outcome_not_observed_witness :
  xprev (run small_params failing_solver 2 (init small_params toy_mesh))
  = xprev (run small_params ones_solver 2 (init small_params toy_mesh)).
Proof.
  refine (proj1 (proj2 (solve_outcome_not_observed small_params failing_solver
                          ones_solver toy_mesh 2 _))).
  intros s. reflexivity.
Defined.

(** With a solve service that fails in every step, the loop still makes
    all three passages, and the second assembly reads the field decoded
    from the array the failed solve left behind. *)
Lemma failed_solve_fed_forward :
  exists w : World,
    main small_params failing_solver toy_mesh = Some w
    /\ solve_outcomes (trace w) = [false; false; false]
    /\ count_events is_assemble (trace w) = 3%nat
    /\ exists garbage : Solution,
         garbage = set_fe_solution
                     (xvel (run small_params failing_solver 1
                              (init small_params toy_mesh)))
                     H1ShapesetBeuchler (fun _ => 1)
         /\ fst <$> anchors (trace w) !! 1%nat = Some garbage
         /\ garbage <> set_zero toy_mesh.
Proof.
  exists (run small_params failing_solver 3 (init small_params toy_mesh)).
  split.
  { apply (main_run small_params failing_solver toy_mesh 3);
      vm_compute; reflexivity. }
  split; [vm_compute; reflexivity |].
  split; [vm_compute; reflexivity |].
  eexists. split; [reflexivity |].
  split; [vm_compute; reflexivity |].
  vm_compute. discriminate.
Qed.

(** * Further properties *)

(** ** The inlet value at the start and at the walls *)

Lemma dmul_zero_l (a b : double) :
  is_zero a = true -> is_finite b = true -> is_zero (dmul a b) = true.
Proof.
  unfold dmul, SFmul. destruct a; try discriminate.
  destruct b; try discriminate; reflexivity.
Qed.

Lemma dmul_zero_r (a b : double) :
  is_finite a = true -> is_zero b = true -> is_zero (dmul a b) = true.
Proof.
  unfold dmul, SFmul. destruct b; try discriminate.
  destruct a; try discriminate; reflexivity.
Qed.

(** A zero divided by anything but a zero or not-a-number is a zero. *)
Lemma ddiv_zero_l (a b : double) :
  is_zero a = true -> zero_or_nan b = false -> is_zero (ddiv a b) = true.
Proof.
  unfold ddiv, SFdiv. destruct a; try discriminate.
  destruct b; try discriminate; reflexivity.
Qed.

Lemma is_zero_finite (a : double) : is_zero a = true -> is_finite a = true.
Proof. destruct a; try discriminate; reflexivity. Qed.

Lemma dsub_zero_r (a : double) : is_finite a = true -> dsub a dzero = a.
Proof.
  unfold dsub, SFsub, dzero. destruct a as [[|] | | |]; try discriminate;
    reflexivity.
Qed.

Lemma dsub_diag (a : double) : is_finite a = true -> dsub a a = dzero.
Proof.
  unfold dsub, SFsub, dzero.
  destruct a as [[|] | | | s m e]; try discriminate; try reflexivity.
  intros _. cbv zeta. rewrite Z.sub_diag. reflexivity.
Qed.

Lemma dle_zero_positive (s : double) :
  dlt dzero s = true -> dle dzero s = true /\ zero_or_nan s = false.
Proof.
  unfold dlt, dle, SFltb, SFleb, SFcompare, dzero.
  destruct s as [[|] | [|] | | [|] m e]; try discriminate; split; reflexivity.
Qed.

(** X2. The flow starts from rest: at time zero, with a positive ramp
    time, the prescribed x-velocity is a zero on every boundary part and
    at every height at which [val_y] is a number. *)
Theorem xvel_bc_value_starts_at_rest (p : Params) (marker : Z)
    (x y : double) :
  dlt dzero (STARTUP_TIME p) = true ->
  is_finite (val_y p y) = true ->
  is_zero (xvel_bc_value p dzero marker x y) = true.
Proof.
  intros HS Hv. unfold xvel_bc_value.
  destruct (decide (marker = marker_left)); [| reflexivity].
  cbv zeta. destruct (dle_zero_positive _ HS) as [-> HS'].
  apply ddiv_zero_l; [| exact HS'].
  apply dmul_zero_r; [exact Hv | reflexivity].
Qed.

Lemma xvel_bc_value_starts_at_rest_witness :
  is_zero (xvel_bc_value source_params dzero marker_left dzero
             (double_of_Z 3)) = true.
Proof.
  apply (xvel_bc_value_starts_at_rest source_params marker_left dzero
           (double_of_Z 3)).
  - vm_compute. reflexivity.
  - vm_compute. reflexivity.
Defined.

Lemma dle_not_nan (a b : double) :
  dle a b = true -> is_zero b = false -> zero_or_nan b = false.
Proof.
  unfold dle, SFleb, SFcompare.
  destruct a, b; try discriminate; reflexivity.
Qed.

(** X3. The inlet profile vanishes at both walls: at [y = 0] and at
    [y = H] the prescribed x-velocity is a zero on every boundary part
    and at every time that is a number, whenever [VEL_INLET], [H] and
    their product are numbers, [H/2.] is a number other than zero (or an
    infinity) and [STARTUP_TIME] is not zero. *)
Theorem xvel_bc_value_vanishes_at_walls (p : Params) (t : double)
    (marker : Z) (x : double) :
  is_finite (VEL_INLET p) = true -> is_finite (H p) = true ->
  is_finite (dmul (VEL_INLET p) (H p)) = true ->
  zero_or_nan (ddiv (H p) (double_of_Z 2)) = false ->
  is_finite t = true -> is_zero (STARTUP_TIME p) = false ->
  is_zero (xvel_bc_value p t marker x dzero) = true
  /\ is_zero (xvel_bc_value p t marker x (H p)) = true.
Proof.
  intros HV HH HVH Hh Ht HS.
  assert (Hramp : forall v : double,
             is_zero v = true ->
             is_zero (if dle t (STARTUP_TIME p)
                      then ddiv (dmul v t) (STARTUP_TIME p) else v) = true).
  { intros v Hv. destruct (dle t (STARTUP_TIME p)) eqn:Hle; [| exact Hv].
    apply ddiv_zero_l; [apply dmul_zero_l; assumption |].
    exact (dle_not_nan _ _ Hle HS). }
  unfold xvel_bc_value.
  destruct (decide (marker = marker_left)); [| split; reflexivity].
  cbv zeta. split; apply Hramp; unfold val_y.
  - do 2 (apply ddiv_zero_l; [| exact Hh]).
    apply dmul_zero_l.
    + apply dmul_zero_r; [exact HV | reflexivity].
    + rewrite dsub_zero_r by exact HH. exact HH.
  - do 2 (apply ddiv_zero_l; [| exact Hh]).
    apply dmul_zero_r; [exact HVH |].
    rewrite dsub_diag by exact HH. reflexivity.
Qed.

Lemma xvel_bc_value_vanishes_at_walls_witness :
  is_zero (xvel_bc_value source_params (double_lit 5 10) marker_left dzero
             dzero) = true
  /\ is_zero (xvel_bc_value source_params (double_lit 5 10) marker_left dzero
                (H source_params)) = true.
Proof.
  apply (xvel_bc_value_vanishes_at_walls source_params (double_lit 5 10)
           marker_left dzero); vm_compute; reflexivity.
Defined.

(** ** A run without any time step *)

Lemma truncate_below_1 (q : scalar) :
  qz INT_MIN <= q -> q < 1 -> (INT_MIN <= truncate q <= 0)%Z.
Proof.
  destruct q as [[n d] c]. unfold truncate, Qcle, Qclt, Qle, Qlt.
  assert (E : this (qz INT_MIN) = inject_Z INT_MIN) by (vm_compute; reflexivity).
  rewrite E. cbn [this Qnum Qden inject_Z].
  change (this 1) with 1%Q. cbn [Qnum Qden].
  intros Hlo Hhi.
  destruct (Z_lt_le_dec n 0) as [Hn | Hn].
  - replace n with (- (- n))%Z by lia.
    rewrite Z.quot_opp_l by lia.
    rewrite Z.quot_div_nonneg by lia.
    assert (H0 : (0 <= - n / Z.pos d)%Z) by (apply Z.div_pos; lia).
    assert (H1 : (- n / Z.pos d <= 2 ^ 31)%Z).
    { apply Z.div_le_upper_bound; [lia |]. unfold INT_MIN in Hlo. lia. }
    unfold INT_MIN. lia.
  - rewrite Z.quot_small by lia. unfold INT_MIN. lia.
Qed.

(** X4. When the quotient [FINAL_TIME / TAU], as the program computes it
    in binary64, is finite and below one (and not below the smallest
    [int]), the loop body is never entered: the program ends in the state
    set up before the loop, with the time still zero, both previous-step
    velocities still the zero field, and without any assembly, solve or
    decoding. *)
Theorem main_without_time_step (p : Params)
    (spsolve : LinSystem -> SolveResult) (mesh : Mesh) :
  is_finite (ddiv (FINAL_TIME p) (TAU p)) = true ->
  qz INT_MIN <= ideal (ddiv (FINAL_TIME p) (TAU p)) ->
  ideal (ddiv (FINAL_TIME p) (TAU p)) < 1 ->
  exists w : World,
    main p spsolve mesh = Some w
    /\ w = init p mesh
    /\ TIME w = dzero
    /\ xprev w = set_zero mesh /\ yprev w = set_zero mesh
    /\ count_events is_info (trace w) = 0%nat
    /\ count_events is_assemble (trace w) = 0%nat
    /\ count_events is_solve (trace w) = 0%nat
    /\ (forall id, count_events (is_decode id) (trace w) = 0%nat).
Proof.
  intros HT Hlo Hhi.
  pose proof (truncate_below_1 _ Hlo Hhi) as [Hmin Hmax].
  assert (E : num_time_steps p
              = Some (truncate (ideal (ddiv (FINAL_TIME p) (TAU p))))).
  { apply num_time_steps_truncate; [exact HT |]. unfold INT_MAX. lia. }
  exists (init p mesh).
  split.
  { rewrite (main_run p spsolve mesh _ E) by (unfold INT_MAX; lia).
    replace (Z.to_nat (truncate (ideal (ddiv (FINAL_TIME p) (TAU p)))))
      with 0%nat by lia.
    rewrite run_0. reflexivity. }
  split; [reflexivity |].
  split; [apply init_TIME |].
  destruct (init_prev p mesh) as [Ex Ey].
  split; [exact Ex | split; [exact Ey |]].
  destruct (init_trace p mesh) as (c0 & c1 & Etr).
  rewrite Etr.
  split; [reflexivity | split; [reflexivity | split; [reflexivity |]]].
  intros []; reflexivity.
Qed.

(** Final time [1.0] with step [2.0]: the quotient is [0.5]. *)
Lemma main_without_time_step_witness :
  exists w : World,
    main short_params rhs_solver toy_mesh = Some w
    /\ TIME w = dzero.
Proof.
  destruct (main_without_time_step
              short_params rhs_solver toy_mesh)
    as (w & Hm & _ & Ht & _).
  - vm_compute. reflexivity.
  - vm_compute. discriminate.
  - vm_compute. reflexivity.
  - exists w. split; [exact Hm | exact Ht].
Defined.

(** ** Boundary conditions and numbering of the three spaces *)

Lemma essential_value_on (bc_type : Z -> BCType)
    (bc_value : Z -> double -> double -> double) (n : Node) :
  essential_value bc_type bc_value n
  = if on_essential bc_type n
    then option_map (fun m => ideal (bc_value m (node_x n) (node_y n)))
           (node_marker n)
    else None.
Proof.
  unfold essential_value, on_essential.
  destruct (node_marker n) as [m |]; [| reflexivity].
  destruct (bc_type m); reflexivity.
Qed.

Lemma number_dofs_snd (bc_type : Z -> BCType)
    (bc_value : Z -> double -> double -> double) (ns : list Node) (next : Z) :
  snd (number_dofs bc_type bc_value next ns)
  = (next + count_unknowns bc_type ns)%Z.
Proof.
  revert next. induction ns as [| n ns IH]; intros next.
  - cbn. lia.
  - cbn [number_dofs count_unknowns]. rewrite essential_value_on.
    unfold on_essential.
    destruct (node_marker n) as [m |]; [destruct (bc_type m) |]; cbn [option_map].
    + specialize (IH next).
      destruct (number_dofs bc_type bc_value next ns). exact IH.
    + specialize (IH (next + 1)%Z).
      destruct (number_dofs bc_type bc_value (next + 1) ns). cbn [snd] in *. lia.
    + specialize (IH (next + 1)%Z).
      destruct (number_dofs bc_type bc_value (next + 1) ns). cbn [snd] in *. lia.
    + specialize (IH (next + 1)%Z).
      destruct (number_dofs bc_type bc_value (next + 1) ns). cbn [snd] in *. lia.
Qed.

(** The numbering entry of every carrier: its boundary value, or the
    first index plus the number of unknowns before it. *)
Lemma number_dofs_lookup (bc_type : Z -> BCType)
    (bc_value : Z -> double -> double -> double) (ns : list Node) (next : Z)
    (c : nat) (n : Node) :
  ns !! c = Some n ->
  fst (number_dofs bc_type bc_value next ns) !! c
  = Some (match essential_value bc_type bc_value n with
          | Some g => Essential g
          | None => Free (next + count_unknowns bc_type (take c ns))
          end).
Proof.
  revert next c. induction ns as [| n0 ns IH]; intros next c Hc;
    [discriminate |].
  cbn [number_dofs].
  destruct c as [| c].
  - injection Hc as ->. cbn [take count_unknowns].
    destruct (essential_value bc_type bc_value n) as [g |].
    + destruct (number_dofs bc_type bc_value next ns). reflexivity.
    + destruct (number_dofs bc_type bc_value (next + 1) ns).
      cbn. rewrite Z.add_0_r. reflexivity.
  - cbn [lookup list_lookup] in Hc. cbn [take count_unknowns].
    assert (E0 : on_essential bc_type n0
                 = match essential_value bc_type bc_value n0 with
                   | Some _ => true
                   | None => false
                   end).
    { unfold essential_value, on_essential.
      destruct (node_marker n0) as [m |]; [destruct (bc_type m) |];
        reflexivity. }
    rewrite E0.
    destruct (essential_value bc_type bc_value n0) as [g0 |].
    + specialize (IH next c Hc).
      destruct (number_dofs bc_type bc_value next ns). exact IH.
    + specialize (IH (next + 1)%Z c Hc).
      destruct (number_dofs bc_type bc_value (next + 1) ns).
      cbn [fst] in *. change ((Free next :: l) !! S c) with (l !! c).
      rewrite IH. do 2 f_equal.
      destruct (essential_value bc_type bc_value n); [reflexivity |].
      f_equal. lia.
Qed.

Lemma number_dofs_length (bc_type : Z -> BCType)
    (bc_value : Z -> double -> double -> double) (ns : list Node) (next : Z) :
  length (fst (number_dofs bc_type bc_value next ns)) = length ns.
Proof.
  revert next. induction ns as [| n ns IH]; intros next; [reflexivity |].
  cbn [number_dofs].
  destruct (essential_value bc_type bc_value n).
  - specialize (IH next). destruct (number_dofs bc_type bc_value next ns).
    cbn [fst length] in *. congruence.
  - specialize (IH (next + 1)%Z).
    destruct (number_dofs bc_type bc_value (next + 1) ns).
    cbn [fst length] in *. congruence.
Qed.

Lemma number_dofs_ext (bc_type : Z -> BCType)
    (bv bv' : Z -> double -> double -> double) (ns : list Node) (next : Z) :
  (forall m x y, bv m x y = bv' m x y) ->
  number_dofs bc_type bv next ns = number_dofs bc_type bv' next ns.
Proof.
  intros Hbv. revert next. induction ns as [| n ns IH]; intros next;
    [reflexivity |].
  cbn [number_dofs].
  assert (E : essential_value bc_type bv n = essential_value bc_type bv' n).
  { unfold essential_value. destruct (node_marker n) as [m |]; [| reflexivity].
    destruct (bc_type m); try reflexivity. rewrite Hbv. reflexivity. }
  rewrite E. destruct (essential_value bc_type bv' n);
    rewrite IH; reflexivity.
Qed.

(** Assigning again forgets the previous numbering: only the
    configuration of the space matters. *)
Lemma assign_dofs_again (t t' : double) (sp : Space) (first first' : Z) :
  assign_dofs t' (fst (assign_dofs t sp first)) first'
  = assign_dofs t' sp first'.
Proof.
  unfold assign_dofs at 2.
  destruct (number_dofs _ _ first _) as [ds next].
  reflexivity.
Qed.

Lemma assign_dofs_ndofs (t : double) (sp : Space) (first : Z) :
  sp_ndofs (fst (assign_dofs t sp first))
  = count_unknowns (sp_bc_type sp)
      (carriers (sp_mesh sp) (sp_shapeset sp) (sp_order sp)).
Proof.
  unfold assign_dofs.
  pose proof (number_dofs_snd (sp_bc_type sp) (sp_bc_value sp t)
                (carriers (sp_mesh sp) (sp_shapeset sp) (sp_order sp)) first)
    as Hs.
  destruct (number_dofs _ _ _ _) as [ds next].
  cbn [fst snd sp_ndofs] in *. lia.
Qed.

Lemma assign_dofs_lookup (t : double) (sp : Space) (first : Z)
    (c : nat) (n : Node) :
  carriers (sp_mesh sp) (sp_shapeset sp) (sp_order sp) !! c = Some n ->
  dof_of (fst (assign_dofs t sp first)) c
  = Some (match essential_value (sp_bc_type sp) (sp_bc_value sp t) n with
          | Some g => Essential g
          | None =>
              Free (first
                    + count_unknowns (sp_bc_type sp)
                        (take c (carriers (sp_mesh sp) (sp_shapeset sp)
                                   (sp_order sp))))
          end).
Proof.
  intros Hc. unfold dof_of, assign_dofs.
  pose proof (number_dofs_lookup (sp_bc_type sp) (sp_bc_value sp t) _ first
                c n Hc) as Hl.
  destruct (number_dofs _ _ _ _) as [ds next].
  cbn [fst sp_dofs] in *. exact Hl.
Qed.

Lemma count_unknowns_ext (bt bt' : Z -> BCType) (ns : list Node) :
  (forall m, bt m = bt' m) -> count_unknowns bt ns = count_unknowns bt' ns.
Proof.
  intros Hbt. induction ns as [| n ns IH]; [reflexivity |].
  cbn [count_unknowns]. rewrite IH.
  replace (on_essential bt' n) with (on_essential bt n); [reflexivity |].
  unfold on_essential. destruct (node_marker n); [rewrite Hbt |]; reflexivity.
Qed.

Lemma count_unknowns_none (bt : Z -> BCType) (ns : list Node) :
  (forall m, bt m <> BC_ESSENTIAL) ->
  count_unknowns bt ns = Z.of_nat (length ns).
Proof.
  intros Hbt. induction ns as [| n ns IH]; [reflexivity |].
  cbn [count_unknowns length]. rewrite IH.
  replace (on_essential bt n) with false; [lia |].
  unfold on_essential. destruct (node_marker n) as [m |]; [| reflexivity].
  specialize (Hbt m). destruct (bt m); congruence.
Qed.

Section Spaces.

Variable p : Params.
Variable spsolve : LinSystem -> SolveResult.
Variable mesh : Mesh.

Lemma xvel_at_ndofs (t : double) :
  sp_ndofs (xvel_at p mesh t) = vel_unknowns p mesh.
Proof. unfold xvel_at. rewrite assign_dofs_ndofs. reflexivity. Qed.

Lemma yvel_at_ndofs (t : double) :
  sp_ndofs (yvel_at p mesh t) = vel_unknowns p mesh.
Proof. unfold yvel_at. rewrite assign_dofs_ndofs. reflexivity. Qed.

Lemma press_at_ndofs (t : double) :
  sp_ndofs (press_at p mesh t)
  = Z.of_nat (length (press_carriers p mesh)).
Proof.
  unfold press_at. rewrite assign_dofs_ndofs.
  apply count_unknowns_none. intros m. discriminate.
Qed.

Lemma step_spaces_at (w : World) (t : double) :
  xvel w = xvel_at p mesh t -> yvel w = yvel_at p mesh t ->
  press w = press_at p mesh t ->
  step_xvel p w = xvel_at p mesh (step_time p w)
  /\ step_yvel p w = yvel_at p mesh (step_time p w)
  /\ step_press p w = press_at p mesh (step_time p w).
Proof.
  intros Ex Ey Eq.
  assert (Hx : step_xvel p w = xvel_at p mesh (step_time p w)).
  { unfold step_xvel. rewrite Ex. unfold xvel_at.
    rewrite assign_dofs_again. reflexivity. }
  assert (Hy : step_yvel p w = yvel_at p mesh (step_time p w)).
  { unfold step_yvel. rewrite Hx, Ey. unfold yvel_at at 1.
    rewrite assign_dofs_again. reflexivity. }
  split; [exact Hx | split; [exact Hy |]].
  unfold step_press. rewrite Hx, Hy, Eq. unfold press_at at 1.
  rewrite assign_dofs_again. reflexivity.
Qed.

Lemma init_spaces_at :
  xvel (init p mesh) = xvel_at p mesh dzero
  /\ yvel (init p mesh) = yvel_at p mesh dzero
  /\ press (init p mesh) = press_at p mesh dzero.
Proof.
  unfold init. cbv zeta. cbn [xvel yvel press set_xprev set_yprev].
  match goal with
  | |- context [exec assign_all_dofs ?w0] =>
      destruct (assign_all_dofs_spec w0) as (_ & -> & -> & ->)
  end.
  cbn [TIME xvel yvel press].
  repeat split; reflexivity.
Qed.

(** At every point of a run the three spaces are those obtained by
    assigning the configured spaces at the current time. *)
Lemma run_spaces_at (k : nat) :
  let w := run p spsolve k (init p mesh) in
  xvel w = xvel_at p mesh (TIME w)
  /\ yvel w = yvel_at p mesh (TIME w)
  /\ press w = press_at p mesh (TIME w).
Proof.
  cbv zeta. induction k as [| k IH].
  - rewrite run_0, init_TIME. apply init_spaces_at.
  - destruct IH as (Ex & Ey & Eq).
    rewrite run_S, time_step_spec. cbn [TIME xvel yvel press].
    apply (step_spaces_at _ _ Ex Ey Eq).
Qed.

End Spaces.

Lemma essential_value_cases (bc_type : Z -> BCType)
    (bc_value : Z -> double -> double -> double) (n : Node) :
  (on_essential bc_type n = true
   /\ exists g, essential_value bc_type bc_value n = Some g)
  \/ (on_essential bc_type n = false
      /\ essential_value bc_type bc_value n = None).
Proof.
  unfold essential_value, on_essential.
  destruct (node_marker n) as [m |]; [destruct (bc_type m) |]; eauto.
Qed.

Lemma assign_dofs_free_iff (t : double) (sp : Space) (first : Z)
    (c : nat) (i : Z) :
  dof_of (fst (assign_dofs t sp first)) c = Some (Free i)
  <-> exists n : Node,
        carriers (sp_mesh sp) (sp_shapeset sp) (sp_order sp) !! c = Some n
        /\ on_essential (sp_bc_type sp) n = false
        /\ i = (first
                + count_unknowns (sp_bc_type sp)
                    (take c (carriers (sp_mesh sp) (sp_shapeset sp)
                               (sp_order sp))))%Z.
Proof.
  destruct (carriers (sp_mesh sp) (sp_shapeset sp) (sp_order sp) !! c)
    as [n |] eqn:Hc.
  - rewrite (assign_dofs_lookup t sp first c n Hc).
    destruct (essential_value_cases (sp_bc_type sp) (sp_bc_value sp t) n)
      as [[Eon [g Eg]] | [Eon Eg]]; rewrite Eg; split.
    + intros [=].
    + intros (n' & [= <-] & Hn & _). congruence.
    + intros [= <-]. exists n. auto.
    + intros (n' & _ & _ & ->). reflexivity.
  - split; [| intros (n & [=] & _)].
    intros Hd. exfalso. unfold dof_of, assign_dofs in Hd.
    pose proof (number_dofs_length (sp_bc_type sp) (sp_bc_value sp t)
                  (carriers (sp_mesh sp) (sp_shapeset sp) (sp_order sp)) first)
      as Hlen.
    destruct (number_dofs _ _ _ _) as [ds next]. cbn [fst sp_dofs] in *.
    apply lookup_lt_Some in Hd. apply lookup_ge_None in Hc. lia.
Qed.

Lemma xvel_at_late (p : Params) (mesh : Mesh) (t t' : double) :
  dle t (STARTUP_TIME p) = false -> dle t' (STARTUP_TIME p) = false ->
  xvel_at p mesh t = xvel_at p mesh t'.
Proof.
  intros Ht Ht'. unfold xvel_at, assign_dofs.
  rewrite (number_dofs_ext _ (sp_bc_value (xvel_setup p mesh) t)
             (sp_bc_value (xvel_setup p mesh) t')); [reflexivity |].
  intros m x y. cbn. unfold xvel_bc_value.
  destruct (decide (m = marker_left)); [| reflexivity].
  cbv zeta. rewrite Ht, Ht'. reflexivity.
Qed.

Lemma yvel_at_fixed (p : Params) (mesh : Mesh) (t t' : double) :
  yvel_at p mesh t = yvel_at p mesh t'.
Proof. unfold yvel_at. rewrite !xvel_at_ndofs. reflexivity. Qed.

Lemma press_at_fixed (p : Params) (mesh : Mesh) (t t' : double) :
  press_at p mesh t = press_at p mesh t'.
Proof. unfold press_at. rewrite !xvel_at_ndofs, !yvel_at_ndofs. reflexivity. Qed.

Lemma count_unknowns_take_none (bt : Z -> BCType) (ns : list Node) (c : nat) :
  (forall m, bt m <> BC_ESSENTIAL) -> (c < length ns)%nat ->
  count_unknowns bt (take c ns) = Z.of_nat c.
Proof.
  intros Hbt Hc. rewrite count_unknowns_none by exact Hbt.
  rewrite length_take. lia.
Qed.


(** X6. Reassigning the degrees of freedom in every time step never
    changes the numbering.  At every point of a run the two velocity
    components have the same number of unknowns as after the initial
    assignment and the pressure has one unknown per carrier; a carrier
    has index [i] in the x-velocity exactly when it had it initially, and
    then its y-velocity index is [i] shifted by the number of x-velocity
    unknowns; pressure carrier [c] has the index [c] behind the two
    velocity ranges; the y-velocity and pressure spaces are exactly as
    they were after the initial assignment; the x-velocity space no longer
    changes between two times past [STARTUP_TIME] (for which the
    comparison [TIME <= STARTUP_TIME] fails); and every assembled system
    has the same dimension. *)
Theorem dof_numbering_fixed (p : Params)
    (spsolve : LinSystem -> SolveResult) (mesh : Mesh) (k : nat) :
  let w0 := init p mesh in
  let w := run p spsolve k w0 in
  let nv := sp_ndofs (xvel w0) in
  let nq := Z.of_nat (length (carriers mesh L2Shapeset (P_INIT_PRESSURE p))) in
  sp_ndofs (xvel w) = nv /\ sp_ndofs (yvel w) = nv /\ sp_ndofs (press w) = nq
  /\ (forall (c : nat) (i : Z),
       dof_of (xvel w) c = Some (Free i) <-> dof_of (xvel w0) c = Some (Free i))
  /\ (forall (c : nat) (i : Z),
       dof_of (yvel w) c = Some (Free (nv + i))
       <-> dof_of (xvel w0) c = Some (Free i))
  /\ (forall c : nat,
       (Z.of_nat c < nq)%Z ->
       dof_of (press w) c = Some (Free (nv + nv + Z.of_nat c)))
  /\ yvel w = yvel w0 /\ press w = press w0
  /\ (forall j : nat,
       dle (TIME (run p spsolve j w0)) (STARTUP_TIME p) = false ->
       dle (TIME w) (STARTUP_TIME p) = false ->
       xvel w = xvel (run p spsolve j w0))
  /\ ls_n (sys (run p spsolve (S k) w0)) = (nv + nv + nq)%Z.
Proof.
  cbv zeta.
  destruct (run_spaces_at p spsolve mesh k) as (Ex & Ey & Eq).
  destruct (init_spaces_at p mesh) as (Ex0 & Ey0 & Eq0).
  cbv zeta in *. rewrite Ex, Ey, Eq, Ex0, Ey0, Eq0.
  set (t := TIME (run p spsolve k (init p mesh))).
  rewrite !xvel_at_ndofs, yvel_at_ndofs, press_at_ndofs.
  split; [reflexivity |]. split; [reflexivity |]. split; [reflexivity |].
  split.
  { intros c i. unfold xvel_at. rewrite !assign_dofs_free_iff. reflexivity. }
  split.
  { intros c i. unfold yvel_at, xvel_at. rewrite !assign_dofs_free_iff.
    rewrite assign_dofs_ndofs.
    change (count_unknowns (sp_bc_type (xvel_setup p mesh))
              (carriers (sp_mesh (xvel_setup p mesh))
                 (sp_shapeset (xvel_setup p mesh))
                 (sp_order (xvel_setup p mesh))))
      with (vel_unknowns p mesh).
    split; intros (n & Hc & Hn & Hi); exists n;
      (split; [exact Hc | split; [exact Hn |]]).
    - apply (Z.add_cancel_l _ _ (vel_unknowns p mesh)). rewrite Hi.
      rewrite Z.add_0_l. reflexivity.
    - rewrite Hi, Z.add_0_l. reflexivity. }
  split.
  { intros c Hc. unfold press_at.
    destruct (press_carriers p mesh !! c) as [n |] eqn:En;
      [| apply lookup_ge_None in En; unfold press_carriers in En; lia].
    rewrite (assign_dofs_lookup t (press_setup p mesh) _ c n En).
    rewrite xvel_at_ndofs, yvel_at_ndofs.
    unfold essential_value.
    cbn [press_setup set_uniform_order set_bc_values set_bc_types
         L2Space Space_new sp_bc_type sp_bc_value sp_mesh sp_shapeset sp_order].
    unfold press_bc_type at 1.
    rewrite count_unknowns_take_none;
      [| intros m; discriminate | apply lookup_lt_Some in En; exact En].
    destruct (node_marker n); reflexivity. }
  split; [apply yvel_at_fixed |]. split; [apply press_at_fixed |].
  split.
  { intros j Hj Ht.
    destruct (run_spaces_at p spsolve mesh j) as (Exj & _).
    cbv zeta in Exj. rewrite Exj. apply xvel_at_late; assumption. }
  rewrite run_S, time_step_spec. cbn [sys]. unfold step_system.
  rewrite assemble_ls_n.
  destruct (step_spaces_at p mesh _ _ Ex Ey Eq) as (-> & -> & ->).
  unfold total_dofs. cbn [foldr].
  rewrite xvel_at_ndofs, yvel_at_ndofs, press_at_ndofs.
  unfold press_carriers. lia.
Qed.

(** ** Structure of the assembled matrix *)

Lemma main_weak_form_terms (p : Params) :
  wf_biforms (main_weak_form p)
  = [viscous_term p 0; convective_term 0; viscous_term p 1; convective_term 1;
     pressure_term_x; pressure_term_y].
Proof. reflexivity. Qed.

Lemma fold_left_related {A A' B : Type} (R : A -> A' -> Prop)
    (f : A -> B -> A) (g : A' -> B -> A') (l : list B) (a : A) (a' : A') :
  (forall a a' x, x ∈ l -> R a a' -> R (f a x) (g a' x)) ->
  R a a' -> R (fold_left f l a) (fold_left g l a').
Proof.
  revert a a'. induction l as [| x l IH]; intros a a' Hf Ha; [exact Ha |].
  cbn [fold_left]. apply IH.
  - intros b b' y Hy. apply Hf. right. exact Hy.
  - apply Hf; [left | exact Ha].
Qed.

Lemma mat_add_shifted (z r c : Z) (v : scalar) (A A' : Z -> Z -> scalar) :
  shifted z A A' -> shifted z (mat_add r c v A) (mat_add (r + z) (c + z) v A').
Proof.
  intros HA i j. unfold mat_add.
  repeat case_decide; try (exfalso; lia); rewrite HA; reflexivity.
Qed.

Lemma scatter_shifted (z : Z) (row col row' col' : option DofRef)
    (v : scalar) (s s' : LinSystem) :
  dof_shifted z row row' -> dof_shifted z col col' ->
  shifted z (ls_A s) (ls_A s') ->
  shifted z (ls_A (scatter row col v s)) (ls_A (scatter row' col' v s')).
Proof.
  intros Hr Hc Hs. rewrite !scatter_ls_A.
  destruct row as [[r | g] |], row' as [[r' | h] |]; cbn in Hr;
    try contradiction; try exact Hs.
  - destruct col as [[c | g'] |], col' as [[c' | h'] |]; cbn in Hc;
      try contradiction; try exact Hs.
    subst r' c'. apply mat_add_shifted. exact Hs.
Qed.

Lemma add_pair_shifted (z : Z) env env' t t' e spm spn spm' spn' s s' pr :
  numbered_alike z spm spm' -> numbered_alike z spn spn' ->
  (forall fu fv ru rv, bf_fn t env fu fv ru rv = bf_fn t' env' fu fv ru rv) ->
  shifted z (ls_A s) (ls_A s') ->
  shifted z (ls_A (add_pair env t e spm spn s pr))
            (ls_A (add_pair env' t' e spm' spn' s' pr)).
Proof.
  intros Hm Hn Hk Hs. destruct pr as [[test trial] mirror]. unfold add_pair.
  rewrite <- Hk.
  destruct mirror.
  - apply scatter_shifted; [apply Hm | apply Hn | exact Hs].
  - apply scatter_shifted; [apply Hn | apply Hm |].
    apply scatter_shifted; [apply Hm | apply Hn | exact Hs].
  - apply scatter_shifted; [apply Hn | apply Hm |].
    apply scatter_shifted; [apply Hm | apply Hn | exact Hs].
Qed.

(** The matrices of two terms with the same kernel values and the same
    local pairs, over spaces numbered alike up to a shift, are the same
    up to that shift. *)
Lemma biform_matrix_shifted (z : Z) spaces spaces' pss pss' xp yp xp' yp'
    t t' spm spn spm' spn' :
  system_elements spaces = system_elements spaces' ->
  spaces !! bf_i t = Some spm -> spaces !! bf_j t = Some spn ->
  spaces' !! bf_i t' = Some spm' -> spaces' !! bf_j t' = Some spn' ->
  numbered_alike z spm spm' -> numbered_alike z spn spn' ->
  (forall e,
      term_pairs t (shapes_on spaces pss (bf_i t) e)
                   (shapes_on spaces pss (bf_j t) e)
      = term_pairs t' (shapes_on spaces' pss' (bf_i t') e)
                      (shapes_on spaces' pss' (bf_j t') e)) ->
  (forall k e fu fv ru rv,
      bf_fn t {| env_xprev := activate xp k e; env_yprev := activate yp k e |}
        fu fv ru rv
      = bf_fn t' {| env_xprev := activate xp' k e;
                    env_yprev := activate yp' k e |} fu fv ru rv) ->
  shifted z (biform_matrix spaces pss xp yp t)
            (biform_matrix spaces' pss' xp' yp' t').
Proof.
  intros Hels Em En Em' En' Hm Hn Hpairs Hk.
  unfold biform_matrix, assemble. rewrite <- Hels.
  apply (fold_left_related (fun s s' => shifted z (ls_A s) (ls_A s'))).
  - intros a a' [k e] _ HR. unfold assemble_element.
    cbn [wf_biforms wf_liforms fold_left]. unfold assemble_biform.
    rewrite Em, En, Em', En', Hpairs.
    apply (fold_left_related (fun s s' => shifted z (ls_A s) (ls_A s')));
      [| exact HR].
    intros b b' pr _ Hb. apply add_pair_shifted; auto.
  - intros i j. reflexivity.
Qed.

Lemma biform_matrix_same spaces spaces' pss pss' xp yp xp' yp' t t'
    spm spn spm' spn' (i j : Z) :
  system_elements spaces = system_elements spaces' ->
  spaces !! bf_i t = Some spm -> spaces !! bf_j t = Some spn ->
  spaces' !! bf_i t' = Some spm' -> spaces' !! bf_j t' = Some spn' ->
  numbered_alike 0 spm spm' -> numbered_alike 0 spn spn' ->
  (forall e,
      term_pairs t (shapes_on spaces pss (bf_i t) e)
                   (shapes_on spaces pss (bf_j t) e)
      = term_pairs t' (shapes_on spaces' pss' (bf_i t') e)
                      (shapes_on spaces' pss' (bf_j t') e)) ->
  (forall k e fu fv ru rv,
      bf_fn t {| env_xprev := activate xp k e; env_yprev := activate yp k e |}
        fu fv ru rv
      = bf_fn t' {| env_xprev := activate xp' k e;
                    env_yprev := activate yp' k e |} fu fv ru rv) ->
  biform_matrix spaces' pss' xp' yp' t' i j
  = biform_matrix spaces pss xp yp t i j.
Proof.
  intros Hels Em En Em' En' Hm Hn Hpairs Hk.
  pose proof (biform_matrix_shifted 0 spaces spaces' pss pss' xp yp xp' yp'
                t t' spm spn spm' spn' Hels Em En Em' En' Hm Hn Hpairs Hk i j)
    as Hs.
  rewrite !Z.add_0_r in Hs. exact Hs.
Qed.

(** A term whose kernel vanishes on every element contributes nothing. *)
Lemma biform_matrix_zero_kernel spaces pss xp yp t (i j : Z) :
  (forall k e fu fv ru rv,
      bf_fn t {| env_xprev := activate xp k e; env_yprev := activate yp k e |}
        fu fv ru rv = 0) ->
  biform_matrix spaces pss xp yp t i j = 0.
Proof.
  intros Hk. revert i j. unfold biform_matrix, assemble.
  apply (fold_left_invariant (fun s => forall i j, ls_A s i j = 0));
    [| intros i j; reflexivity].
  intros a [k e] _ Ha. unfold assemble_element.
  cbn [wf_biforms wf_liforms fold_left]. unfold assemble_biform.
  destruct (spaces !! bf_i t) as [spm |]; [| exact Ha].
  destruct (spaces !! bf_j t) as [spn |]; [| exact Ha].
  apply (fold_left_invariant (fun s => forall i j, ls_A s i j = 0));
    [| exact Ha].
  intros b [[test trial] mirror] _ Hb. unfold add_pair. rewrite Hk.
  assert (Hsc : forall row col s,
             (forall i j, ls_A s i j = 0) ->
             forall i j, ls_A (scatter row col 0 s) i j = 0).
  { intros row col s Hs i j. rewrite scatter_ls_A.
    destruct row as [[r | g] |], col as [[c | g'] |]; try apply Hs.
    unfold mat_add. case_decide; rewrite Hs; ring. }
  destruct mirror.
  - apply Hsc. exact Hb.
  - apply Hsc, Hsc. exact Hb.
  - replace (- 0) with 0 by ring. apply Hsc, Hsc. exact Hb.
Qed.

Lemma int_w_nabla_u_v_zero_fn (n m : nat) (fu fv : RealFunction)
    (ru rv : RefMap) :
  int_w_nabla_u_v (zero_fn n) (zero_fn m) fu fv ru rv = 0.
Proof.
  unfold int_w_nabla_u_v. apply quad_all_zero.
  assert (Hin : Forall (fun x => x = 0)
                  (zip_with (fun (w : Sample * Sample) u =>
                               val (fst w) * dx u + val (snd w) * dy u)
                     (zip (zero_fn n) (zero_fn m)) fu)).
  { revert m fu. induction n as [| n IH]; intros m fu; [constructor |].
    destruct m as [| m]; [constructor |].
    destruct fu as [| u fu]; [constructor |].
    cbn. constructor; [ring | apply IH]. }
  revert fv. induction Hin as [| x l Hx Hl IH]; intros fv; [constructor |].
  destruct fv as [| v fv]; [constructor |].
  cbn. constructor; [rewrite Hx; ring | apply IH].
Qed.

(** With zero previous-step fields the convective kernel vanishes. *)
Lemma convective_kernel_zero (mesh : Mesh) (k : nat) (e : Element)
    (fu fv : RealFunction) (ru rv : RefMap) :
  bilinear_form_unsym_0_0_1_1
    {| env_xprev := activate (set_zero mesh) k e;
       env_yprev := activate (set_zero mesh) k e |} fu fv ru rv = 0.
Proof.
  unfold bilinear_form_unsym_0_0_1_1. cbn [env_xprev env_yprev].
  destruct (activate_set_zero mesh k e) as [n ->].
  apply int_w_nabla_u_v_zero_fn.
Qed.

Lemma assign_dofs_lookup_None (t : double) (sp : Space) (first : Z) (c : nat) :
  carriers (sp_mesh sp) (sp_shapeset sp) (sp_order sp) !! c = None ->
  dof_of (fst (assign_dofs t sp first)) c = None.
Proof.
  intros Hc. unfold dof_of, assign_dofs.
  pose proof (number_dofs_length (sp_bc_type sp) (sp_bc_value sp t)
                (carriers (sp_mesh sp) (sp_shapeset sp) (sp_order sp)) first)
    as Hlen.
  destruct (number_dofs _ _ _ _) as [ds next]. cbn [fst sp_dofs] in *.
  apply lookup_ge_None. apply lookup_ge_None in Hc. lia.
Qed.

(** Two assignments of spaces with the same carriers and the same
    classification of the boundary number the carriers alike, up to the
    difference of the first indices. *)
Lemma assign_dofs_alike (t t' : double) (sp sp' : Space) (first first' : Z) :
  carriers (sp_mesh sp) (sp_shapeset sp) (sp_order sp)
  = carriers (sp_mesh sp') (sp_shapeset sp') (sp_order sp') ->
  (forall m, sp_bc_type sp m = sp_bc_type sp' m) ->
  numbered_alike (first' - first)
    (fst (assign_dofs t sp first)) (fst (assign_dofs t' sp' first')).
Proof.
  intros Hcar Hbt c.
  destruct (carriers (sp_mesh sp) (sp_shapeset sp) (sp_order sp) !! c)
    as [n |] eqn:Hc.
  - rewrite (assign_dofs_lookup t sp first c n Hc).
    rewrite Hcar in Hc. rewrite (assign_dofs_lookup t' sp' first' c n Hc).
    rewrite <- Hcar, <- (count_unknowns_ext _ _ _ Hbt).
    assert (Eon : on_essential (sp_bc_type sp') n = on_essential (sp_bc_type sp) n).
    { unfold on_essential. destruct (node_marker n); [rewrite Hbt |]; reflexivity. }
    destruct (essential_value_cases (sp_bc_type sp) (sp_bc_value sp t) n)
      as [[E1 [g ->]] | [E1 ->]];
      destruct (essential_value_cases (sp_bc_type sp') (sp_bc_value sp' t') n)
        as [[E2 [g' ->]] | [E2 ->]]; try congruence; cbn; [exact I | lia].
  - rewrite (assign_dofs_lookup_None t sp first c Hc).
    rewrite Hcar in Hc. rewrite (assign_dofs_lookup_None t' sp' first' c Hc).
    exact I.
Qed.

Section SpacesAt.

Variable p : Params.
Variable mesh : Mesh.

Lemma vel_unknowns_nonneg : (0 <= vel_unknowns p mesh)%Z.
Proof.
  destruct (assign_dofs_range dzero (xvel_setup p mesh) 0) as (H0 & _).
  cbv zeta in H0. fold (xvel_at p mesh dzero) in H0.
  rewrite xvel_at_ndofs in H0. exact H0.
Qed.

Lemma xvel_at_range (t : double) (i : Z) :
  i ∈ free_dofs (sp_dofs (xvel_at p mesh t))
  <-> (0 <= i < vel_unknowns p mesh)%Z.
Proof.
  destruct (assign_dofs_range t (xvel_setup p mesh) 0) as (_ & _ & Hr).
  cbv zeta in Hr. fold (xvel_at p mesh t) in Hr.
  rewrite Hr, xvel_at_ndofs, elem_of_seqZ. lia.
Qed.

Lemma yvel_at_range (t : double) (i : Z) :
  i ∈ free_dofs (sp_dofs (yvel_at p mesh t))
  <-> (vel_unknowns p mesh <= i < vel_unknowns p mesh + vel_unknowns p mesh)%Z.
Proof.
  destruct (assign_dofs_range t (yvel_setup p mesh)
              (sp_ndofs (xvel_at p mesh t))) as (_ & _ & Hr).
  cbv zeta in Hr. fold (yvel_at p mesh t) in Hr.
  rewrite Hr, yvel_at_ndofs, xvel_at_ndofs, elem_of_seqZ. lia.
Qed.

Lemma press_at_range (t : double) (i : Z) :
  i ∈ free_dofs (sp_dofs (press_at p mesh t))
  <-> (vel_unknowns p mesh + vel_unknowns p mesh <= i
       < vel_unknowns p mesh + vel_unknowns p mesh
         + Z.of_nat (length (press_carriers p mesh)))%Z.
Proof.
  destruct (assign_dofs_range t (press_setup p mesh)
              (sp_ndofs (xvel_at p mesh t) + sp_ndofs (yvel_at p mesh t)))
    as (_ & _ & Hr).
  cbv zeta in Hr. fold (press_at p mesh t) in Hr.
  rewrite Hr, press_at_ndofs, yvel_at_ndofs, xvel_at_ndofs, elem_of_seqZ. lia.
Qed.

(** The two velocity components are numbered alike, the second one
    behind the first. *)
Lemma vel_numbered_alike (t t' : double) :
  numbered_alike (vel_unknowns p mesh) (xvel_at p mesh t) (yvel_at p mesh t').
Proof.
  unfold yvel_at. rewrite xvel_at_ndofs. unfold xvel_at.
  replace (vel_unknowns p mesh) with (vel_unknowns p mesh - 0)%Z at 1 by lia.
  apply assign_dofs_alike; [reflexivity | intros m; reflexivity].
Qed.

Lemma xvel_at_alike (t t' : double) :
  numbered_alike 0 (xvel_at p mesh t) (xvel_at p mesh t').
Proof.
  unfold xvel_at. change 0%Z with (0 - 0)%Z at 1.
  apply assign_dofs_alike; [reflexivity | intros m; reflexivity].
Qed.

Lemma yvel_at_alike (t t' : double) :
  numbered_alike 0 (yvel_at p mesh t) (yvel_at p mesh t').
Proof.
  rewrite (yvel_at_fixed p mesh t t'). intros c.
  destruct (dof_of (yvel_at p mesh t') c) as [[k | g] |]; cbn; [lia | | ]; exact I.
Qed.

Lemma press_at_alike (t t' : double) :
  numbered_alike 0 (press_at p mesh t) (press_at p mesh t').
Proof.
  rewrite (press_at_fixed p mesh t t'). intros c.
  destruct (dof_of (press_at p mesh t') c) as [[k | g] |]; cbn; [lia | | ]; exact I.
Qed.

(** The matrix assembled by [main] over its spaces, term by term. *)
Lemma main_matrix_terms (spaces : list Space) (xp yp : Solution) (i j : Z) :
  ls_A (assemble (main_weak_form p) spaces sys_pss xp yp) i j
  = biform_matrix spaces sys_pss xp yp (viscous_term p 0) i j
    + biform_matrix spaces sys_pss xp yp (viscous_term p 1) i j
    + biform_matrix spaces sys_pss xp yp pressure_term_x i j
    + biform_matrix spaces sys_pss xp yp pressure_term_y i j
    + convection_matrix spaces xp yp i j.
Proof.
  rewrite assemble_sum_of_terms, main_weak_form_terms.
  unfold convection_matrix. cbn [map Qcsum]. ring.
Qed.

End SpacesAt.

Section Systems.

Variable p : Params.
Variable spsolve : LinSystem -> SolveResult.
Variable mesh : Mesh.

(** The system of iteration [k + 1], in closed form. *)
Lemma run_sys (k : nat) :
  let w := run p spsolve k (init p mesh) in
  let w' := run p spsolve (S k) (init p mesh) in
  sys w'
  = assemble (main_weak_form p)
      [xvel_at p mesh (TIME w'); yvel_at p mesh (TIME w');
       press_at p mesh (TIME w')]
      sys_pss (xprev w) (yprev w).
Proof.
  cbv zeta.
  destruct (run_spaces_at p spsolve mesh k) as (Ex & Ey & Eq).
  cbv zeta in *.
  rewrite run_S, time_step_spec. cbn [sys TIME]. unfold step_system.
  destruct (step_spaces_at p mesh _ _ Ex Ey Eq) as (-> & -> & ->).
  reflexivity.
Qed.

End Systems.

Lemma assign_dofs_config (t : double) (sp : Space) (first : Z) :
  sp_mesh (fst (assign_dofs t sp first)) = sp_mesh sp
  /\ sp_shapeset (fst (assign_dofs t sp first)) = sp_shapeset sp
  /\ sp_order (fst (assign_dofs t sp first)) = sp_order sp
  /\ sp_bc_type (fst (assign_dofs t sp first)) = sp_bc_type sp.
Proof.
  unfold assign_dofs. destruct (number_dofs _ _ _ _).
  repeat split; reflexivity.
Qed.

Section Blocks.

Variable p : Params.
Variable mesh : Mesh.

Lemma spaces_at_elements (t : double) :
  system_elements (spaces_at p mesh t) = elements mesh.
Proof.
  unfold spaces_at, system_elements, xvel_at.
  destruct (assign_dofs_config t (xvel_setup p mesh) 0) as (-> & _).
  reflexivity.
Qed.

Lemma spaces_at_shapes (t : double) (i : nat) (e : Element) :
  shapes_on (spaces_at p mesh t) sys_pss i e
  = match i with
    | 0 | 1 => el_shapes e H1ShapesetBeuchler (P_INIT_VEL p)
    | 2 => el_shapes e L2Shapeset (P_INIT_PRESSURE p)
    | _ => []
    end%nat.
Proof.
  unfold shapes_on, spaces_at, sys_pss.
  destruct i as [| [| [| i]]]; cbn [lookup list_lookup].
  - unfold xvel_at.
    destruct (assign_dofs_config t (xvel_setup p mesh) 0) as (_ & _ & -> & _).
    reflexivity.
  - unfold yvel_at.
    destruct (assign_dofs_config t (yvel_setup p mesh)
                (sp_ndofs (xvel_at p mesh t))) as (_ & _ & -> & _).
    reflexivity.
  - unfold press_at.
    destruct (assign_dofs_config t (press_setup p mesh)
                (sp_ndofs (xvel_at p mesh t) + sp_ndofs (yvel_at p mesh t)))
      as (_ & _ & -> & _).
    reflexivity.
  - reflexivity.
Qed.

Lemma spaces_at_total (t : double) :
  total_dofs (spaces_at p mesh t)
  = (vel_unknowns p mesh + vel_unknowns p mesh
     + Z.of_nat (length (press_carriers p mesh)))%Z.
Proof.
  unfold total_dofs, spaces_at. cbn [foldr].
  rewrite xvel_at_ndofs, yvel_at_ndofs, press_at_ndofs. lia.
Qed.

(** Where each term of [main] has no entries. *)
Lemma term_outside (t : double) (xp yp : Solution) (tm : BiForm)
    (spm spn : Space) (i j : Z) :
  spaces_at p mesh t !! bf_i tm = Some spm ->
  spaces_at p mesh t !! bf_j tm = Some spn ->
  ~ ((i ∈ free_dofs (sp_dofs spm) /\ j ∈ free_dofs (sp_dofs spn))
     \/ (i ∈ free_dofs (sp_dofs spn) /\ j ∈ free_dofs (sp_dofs spm))) ->
  biform_matrix (spaces_at p mesh t) sys_pss xp yp tm i j = 0.
Proof.
  intros Em En Hout.
  exact (biform_matrix_supported _ _ xp yp tm spm spn Em En i j Hout).
Qed.

(** A term without dependence on the previous-step fields has the same
    matrix at all times. *)
Lemma static_term_fixed (t t' : double) (xp yp xp' yp' : Solution)
    (tm : BiForm) (i j : Z) :
  (bf_i tm < 3)%nat -> (bf_j tm < 3)%nat ->
  (forall env env' fu fv ru rv,
      bf_fn tm env fu fv ru rv = bf_fn tm env' fu fv ru rv) ->
  biform_matrix (spaces_at p mesh t') sys_pss xp' yp' tm i j
  = biform_matrix (spaces_at p mesh t) sys_pss xp yp tm i j.
Proof.
  intros Hi Hj Hk.
  assert (Hal : forall n sp sp',
             spaces_at p mesh t !! n = Some sp ->
             spaces_at p mesh t' !! n = Some sp' ->
             numbered_alike 0 sp sp').
  { intros n sp sp'. unfold spaces_at.
    destruct n as [| [| [| n]]]; cbn [lookup list_lookup];
      intros [= <-] [= <-];
      [apply xvel_at_alike | apply yvel_at_alike | apply press_at_alike]. }
  assert (Hex : forall tt n, (n < 3)%nat ->
             exists sp, spaces_at p mesh tt !! n = Some sp).
  { intros tt n Hn. unfold spaces_at.
    destruct n as [| [| [| n]]]; cbn [lookup list_lookup]; eauto. lia. }
  destruct (Hex t _ Hi) as [spm Em]. destruct (Hex t _ Hj) as [spn En].
  destruct (Hex t' _ Hi) as [spm' Em']. destruct (Hex t' _ Hj) as [spn' En'].
  apply (biform_matrix_same _ _ _ _ xp yp xp' yp' tm tm spm spn spm' spn').
  - rewrite !spaces_at_elements. reflexivity.
  - exact Em.
  - exact En.
  - exact Em'.
  - exact En'.
  - exact (Hal _ _ _ Em Em').
  - exact (Hal _ _ _ En En').
  - intros e. rewrite !spaces_at_shapes. reflexivity.
  - intros k e fu fv ru rv. apply Hk.
Qed.

(** The matrix of the second diagonal term is the matrix of the first
    one, moved behind the x-velocity unknowns. *)
Lemma diagonal_terms_shifted (t : double) (xp yp : Solution)
    (tm tm' : BiForm) :
  bf_i tm = 0%nat -> bf_j tm = 0%nat -> bf_i tm' = 1%nat -> bf_j tm' = 1%nat ->
  bf_sym tm = bf_sym tm' -> bf_fn tm = bf_fn tm' ->
  shifted (vel_unknowns p mesh)
    (biform_matrix (spaces_at p mesh t) sys_pss xp yp tm)
    (biform_matrix (spaces_at p mesh t) sys_pss xp yp tm').
Proof.
  intros Ei Ej Ei' Ej' Es Ef.
  apply (biform_matrix_shifted _ _ _ _ _ xp yp xp yp tm tm'
           (xvel_at p mesh t) (xvel_at p mesh t)
           (yvel_at p mesh t) (yvel_at p mesh t)).
  - reflexivity.
  - rewrite Ei. reflexivity.
  - rewrite Ej. reflexivity.
  - rewrite Ei'. reflexivity.
  - rewrite Ej'. reflexivity.
  - apply vel_numbered_alike.
  - apply vel_numbered_alike.
  - intros e. rewrite !spaces_at_shapes. unfold term_pairs.
    rewrite Es, Ei, Ej, Ei', Ej'. reflexivity.
  - intros k e fu fv ru rv. rewrite Ef. reflexivity.
Qed.

End Blocks.

Section SystemBlocks.

Variable p : Params.
Variable spsolve : LinSystem -> SolveResult.
Variable mesh : Mesh.

Lemma run_sys_at (k : nat) :
  let w := run p spsolve k (init p mesh) in
  let w' := run p spsolve (S k) (init p mesh) in
  sys w' = assemble (main_weak_form p) (spaces_at p mesh (TIME w')) sys_pss
             (xprev w) (yprev w)
  /\ sys_spaces w' = spaces_at p mesh (TIME w')
  /\ xvel w' = xvel_at p mesh (TIME w')
  /\ yvel w' = yvel_at p mesh (TIME w')
  /\ press w' = press_at p mesh (TIME w').
Proof.
  cbv zeta. split; [apply (run_sys p spsolve mesh k) |].
  destruct (run_spaces_at p spsolve mesh (S k)) as (Ex & Ey & Eq).
  cbv zeta in *. split; [| auto].
  unfold sys_spaces, spaces_at. rewrite <- Ex, <- Ey, <- Eq.
  reflexivity.
Qed.

End SystemBlocks.

Ltac spaces_ranges :=
  rewrite ?xvel_at_range, ?yvel_at_range, ?press_at_range in *.

Ltac term_zero :=
  match goal with
  | |- context [biform_matrix (spaces_at ?p ?mesh ?t) sys_pss ?xp ?yp ?tm ?i ?j] =>
      rewrite (term_outside p mesh t xp yp tm _ _ i j eq_refl eq_refl)
        by (spaces_ranges; lia)
  end.

(** X7. The block structure of every matrix assembled by the main loop:
    no entry couples an x-velocity unknown with a y-velocity unknown (in
    either order), no entry couples two pressure unknowns, and no entry
    lies in a row or column outside the index range of the system. *)
Theorem matrix_block_structure (p : Params)
    (spsolve : LinSystem -> SolveResult) (mesh : Mesh) (k : nat) (i j : Z) :
  let w := run p spsolve (S k) (init p mesh) in
  (i ∈ free_dofs (sp_dofs (xvel w)) -> j ∈ free_dofs (sp_dofs (yvel w)) ->
   ls_A (sys w) i j = 0 /\ ls_A (sys w) j i = 0)
  /\ (i ∈ free_dofs (sp_dofs (press w)) -> j ∈ free_dofs (sp_dofs (press w)) ->
      ls_A (sys w) i j = 0)
  /\ ((i < 0 \/ ls_n (sys w) <= i)%Z ->
      ls_A (sys w) i j = 0 /\ ls_A (sys w) j i = 0).
Proof.
  cbv zeta.
  destruct (run_sys_at p spsolve mesh k) as (Es & _ & Ex & Ey & Eq).
  cbv zeta in *. rewrite Ex, Ey, Eq, Es.
  set (t := TIME (run p spsolve (S k) (init p mesh))) in *.
  set (xp := xprev (run p spsolve k (init p mesh))).
  set (yp := yprev (run p spsolve k (init p mesh))).
  rewrite assemble_ls_n, spaces_at_total.
  pose proof (vel_unknowns_nonneg p mesh) as Hnv.
  rewrite !main_matrix_terms. unfold convection_matrix.
  split; [| split].
  - intros Hi Hj. spaces_ranges. split; repeat term_zero; ring.
  - intros Hi Hj. spaces_ranges. repeat term_zero. ring.
  - intros Hi. split; repeat term_zero; ring.
Qed.

(** X8. Both velocity components get the same operator: in every matrix
    assembled by the main loop the diagonal block of the y-velocity
    unknowns is an exact copy of the diagonal block of the x-velocity
    unknowns, moved along the diagonal by the number of x-velocity
    unknowns. *)
Theorem velocity_blocks_identical (p : Params)
    (spsolve : LinSystem -> SolveResult) (mesh : Mesh) (k : nat) (i j : Z) :
  let w := run p spsolve (S k) (init p mesh) in
  i ∈ free_dofs (sp_dofs (xvel w)) -> j ∈ free_dofs (sp_dofs (xvel w)) ->
  ls_A (sys w) (i + sp_ndofs (xvel w)) (j + sp_ndofs (xvel w))
  = ls_A (sys w) i j.
Proof.
  cbv zeta.
  destruct (run_sys_at p spsolve mesh k) as (Es & _ & Ex & _ & _).
  cbv zeta in *. rewrite Ex, Es.
  set (t := TIME (run p spsolve (S k) (init p mesh))) in *.
  set (xp := xprev (run p spsolve k (init p mesh))).
  set (yp := yprev (run p spsolve k (init p mesh))).
  rewrite xvel_at_ndofs.
  pose proof (vel_unknowns_nonneg p mesh) as Hnv.
  intros Hi Hj. spaces_ranges.
  rewrite !main_matrix_terms. unfold convection_matrix.
  repeat term_zero.
  rewrite (diagonal_terms_shifted p mesh t xp yp (viscous_term p 0)
             (viscous_term p 1) eq_refl eq_refl eq_refl eq_refl eq_refl
             eq_refl i j).
  rewrite (diagonal_terms_shifted p mesh t xp yp (convective_term 0)
             (convective_term 1) eq_refl eq_refl eq_refl eq_refl eq_refl
             eq_refl i j).
  ring.
Qed.

Lemma velocity_blocks_identical_witness :
  let w := run source_params rhs_solver 2 (init source_params toy_mesh) in
  ls_A (sys w) (1 + sp_ndofs (xvel w)) (0 + sp_ndofs (xvel w))
  = ls_A (sys w) 1 0.
Proof.
  cbv zeta.
  apply (velocity_blocks_identical source_params rhs_solver toy_mesh 1 1 0).
  - apply list_elem_of_In. vm_compute. auto.
  - apply list_elem_of_In. vm_compute. auto.
Defined.

(** X9. In the first time step the previous-step velocities are zero,
    so the two convective terms contribute nothing and the velocity part
    of the matrix is symmetric: entries whose row and column are both
    velocity unknowns are equal at [(i, j)] and [(j, i)]. *)
Theorem first_step_matrix_symmetric (p : Params)
    (spsolve : LinSystem -> SolveResult) (mesh : Mesh) (i j : Z) :
  let w := run p spsolve 1 (init p mesh) in
  ~ i ∈ free_dofs (sp_dofs (press w)) ->
  ~ j ∈ free_dofs (sp_dofs (press w)) ->
  convection_matrix (sys_spaces w) (set_zero mesh) (set_zero mesh) i j = 0
  /\ ls_A (sys w) i j = ls_A (sys w) j i.
Proof.
  cbv zeta.
  destruct (run_sys_at p spsolve mesh 0) as (Es & Esp & _ & _ & Eq).
  cbv zeta in *. rewrite Esp, Es, Eq.
  rewrite run_0. destruct (init_prev p mesh) as [-> ->].
  set (t := TIME (run p spsolve 1 (init p mesh))) in *.
  intros Hi Hj. spaces_ranges.
  assert (Hc : forall a b,
             convection_matrix (spaces_at p mesh t) (set_zero mesh)
               (set_zero mesh) a b = 0).
  { intros a b. unfold convection_matrix.
    rewrite !biform_matrix_zero_kernel
      by (intros; apply convective_kernel_zero).
    ring. }
  split; [apply Hc |].
  rewrite !main_matrix_terms, !Hc.
  repeat term_zero.
  rewrite (biform_matrix_symmetric _ _ _ _ (viscous_term p 0) eq_refl i j).
  rewrite (biform_matrix_symmetric _ _ _ _ (viscous_term p 1) eq_refl i j).
  ring.
Qed.

Lemma first_step_matrix_symmetric_witness :
  let w := run source_params rhs_solver 1 (init source_params toy_mesh) in
  convection_matrix (sys_spaces w) (set_zero toy_mesh) (set_zero toy_mesh) 0 1
  = 0
  /\ ls_A (sys w) 0 1 = ls_A (sys w) 1 0.
Proof.
  cbv zeta.
  apply (first_step_matrix_symmetric source_params rhs_solver toy_mesh 0 1).
  - rewrite list_elem_of_In. vm_compute. intros [E | []]. discriminate E.
  - rewrite list_elem_of_In. vm_compute. intros [E | []]. discriminate E.
Defined.

(** X10. Only the convective terms make the matrix change from one time
    step to the next: every matrix assembled by the main loop is the
    matrix of the first step plus the contribution of the two convective
    terms evaluated with the previous-step velocities of that iteration,
    and this contribution has entries only inside the two diagonal
    velocity blocks. *)
Theorem matrix_is_first_plus_convection (p : Params)
    (spsolve : LinSystem -> SolveResult) (mesh : Mesh) (k : nat) (i j : Z) :
  let w := run p spsolve k (init p mesh) in
  let w' := run p spsolve (S k) (init p mesh) in
  let C := convection_matrix (sys_spaces w') (xprev w) (yprev w) in
  ls_A (sys w') i j = ls_A (sys (run p spsolve 1 (init p mesh))) i j + C i j
  /\ (~ (i ∈ free_dofs (sp_dofs (xvel w')) /\ j ∈ free_dofs (sp_dofs (xvel w'))) ->
      ~ (i ∈ free_dofs (sp_dofs (yvel w')) /\ j ∈ free_dofs (sp_dofs (yvel w'))) ->
      C i j = 0).
Proof.
  cbv zeta.
  destruct (run_sys_at p spsolve mesh k) as (Es & Esp & Ex & Ey & _).
  destruct (run_sys_at p spsolve mesh 0) as (Es1 & _). cbv zeta in *.
  rewrite Esp, Es, Es1, Ex, Ey.
  rewrite run_0. destruct (init_prev p mesh) as [-> ->].
  set (t := TIME (run p spsolve (S k) (init p mesh))) in *.
  set (t1 := TIME (run p spsolve 1 (init p mesh))) in *.
  set (xp := xprev (run p spsolve k (init p mesh))).
  set (yp := yprev (run p spsolve k (init p mesh))).
  split.
  - rewrite !main_matrix_terms.
    assert (Hc : convection_matrix (spaces_at p mesh t1) (set_zero mesh)
                   (set_zero mesh) i j = 0).
    { unfold convection_matrix.
      rewrite !biform_matrix_zero_kernel
        by (intros; apply convective_kernel_zero).
      ring. }
    rewrite Hc.
    rewrite (static_term_fixed p mesh t1 t (set_zero mesh) (set_zero mesh)
               xp yp (viscous_term p 0)) by (cbn; first [lia | reflexivity]).
    rewrite (static_term_fixed p mesh t1 t (set_zero mesh) (set_zero mesh)
               xp yp (viscous_term p 1)) by (cbn; first [lia | reflexivity]).
    rewrite (static_term_fixed p mesh t1 t (set_zero mesh) (set_zero mesh)
               xp yp pressure_term_x) by (cbn; first [lia | reflexivity]).
    rewrite (static_term_fixed p mesh t1 t (set_zero mesh) (set_zero mesh)
               xp yp pressure_term_y) by (cbn; first [lia | reflexivity]).
    ring.
  - intros Hx Hy. unfold convection_matrix.
    rewrite (term_outside p mesh t xp yp (convective_term 0) _ _ i j
               eq_refl eq_refl) by tauto.
    rewrite (term_outside p mesh t xp yp (convective_term 1) _ _ i j
               eq_refl eq_refl) by tauto.
    ring.
Qed.

(** ** What is fed forward *)

Lemma eval_at_ext (sp : Space) (X X' : Vec) (shapes : list Shape) (q : nat) :
  (forall i, i ∈ free_dofs (sp_dofs sp) -> X i = X' i) ->
  eval_at sp X shapes q = eval_at sp X' shapes q.
Proof.
  intros HX. unfold eval_at. induction shapes as [| sh shapes IH];
    [reflexivity |].
  cbn [foldr]. rewrite IH. f_equal.
  unfold coef. destruct (dof_of sp (fst sh)) as [[k | g] |] eqn:Ed;
    try reflexivity.
  apply HX. eapply dof_of_free. exact Ed.
Qed.

(** Decoding reads the flat vector only at the indices of the space. *)
Lemma set_fe_solution_ext (sp : Space) (pss : ShapesetKind) (X X' : Vec) :
  (forall i, i ∈ free_dofs (sp_dofs sp) -> X i = X' i) ->
  set_fe_solution sp pss X = set_fe_solution sp pss X'.
Proof.
  intros HX. unfold set_fe_solution. apply map_ext. intros e. f_equal.
  apply map_ext. intros q. apply eval_at_ext. exact HX.
Qed.

Section FedForward.

Variable p : Params.
Variables s1 s2 : LinSystem -> SolveResult.
Variable mesh : Mesh.
Hypothesis same_velocities :
  forall (s : LinSystem) (i : Z),
    i ∈ free_dofs (sp_dofs (xvel (init p mesh)))
    \/ i ∈ free_dofs (sp_dofs (yvel (init p mesh))) ->
    solve_x (s1 s) i = solve_x (s2 s) i.

Lemma run_velocities_only (k : nat) :
  let w1 := run p s1 k (init p mesh) in
  let w2 := run p s2 k (init p mesh) in
  TIME w1 = TIME w2 /\ xprev w1 = xprev w2 /\ yprev w1 = yprev w2
  /\ xvel w1 = xvel w2 /\ yvel w1 = yvel w2 /\ press w1 = press w2
  /\ sys w1 = sys w2
  /\ anchors (trace w1) = anchors (trace w2)
  /\ decoded Xvel (trace w1) = decoded Xvel (trace w2)
  /\ decoded Yvel (trace w1) = decoded Yvel (trace w2).
Proof.
  cbv zeta. induction k as [| k IH].
  - rewrite !run_0. repeat split; reflexivity.
  - destruct IH as (Ht & Hx & Hy & Hxv & Hyv & Hpr & _ & Han & Hdx & Hdy).
    destruct (run_spaces_at p s2 mesh k) as (Ex & Ey & Eq).
    destruct (init_spaces_at p mesh) as (Ex0 & Ey0 & _).
    cbv zeta in *.
    rewrite !run_S, !time_step_spec.
    cbn [TIME xprev yprev xvel yvel press sys trace].
    set (w1 := run p s1 k (init p mesh)) in *.
    set (w2 := run p s2 k (init p mesh)) in *.
    assert (Est : step_time p w1 = step_time p w2)
      by (unfold step_time; rewrite Ht; reflexivity).
    assert (Exv : step_xvel p w1 = step_xvel p w2)
      by (unfold step_xvel; rewrite Est, Hxv; reflexivity).
    assert (Eyv : step_yvel p w1 = step_yvel p w2)
      by (unfold step_yvel; rewrite Est, Exv, Hyv; reflexivity).
    assert (Epr : step_press p w1 = step_press p w2)
      by (unfold step_press; rewrite Est, Exv, Eyv, Hpr; reflexivity).
    assert (Esy : step_system p w1 = step_system p w2)
      by (unfold step_system; rewrite Exv, Eyv, Epr, Hx, Hy; reflexivity).
    destruct (step_spaces_at p mesh w2 _ Ex Ey Eq) as (Ax & Ay & _).
    assert (Exs : step_xsln p s1 w1 = step_xsln p s2 w2).
    { unfold step_xsln, step_solve. rewrite Esy, Exv.
      apply set_fe_solution_ext. intros i Hi. apply same_velocities.
      left. rewrite Ex0. rewrite Ax in Hi.
      rewrite xvel_at_range in *. exact Hi. }
    assert (Eys : step_ysln p s1 w1 = step_ysln p s2 w2).
    { unfold step_ysln, step_solve. rewrite Esy, Eyv.
      apply set_fe_solution_ext. intros i Hi. apply same_velocities.
      right. rewrite Ey0. rewrite Ay in Hi.
      rewrite yvel_at_range in *. exact Hi. }
    repeat (split; [assumption |]).
    unfold anchors, decoded in *. rewrite !omap_app.
    rewrite Han, Hdx, Hdy. cbn [omap step_events].
    unfold step_events. cbn.
    rewrite Hx, Hy, Exs, Eys. repeat split; reflexivity.
Qed.

End FedForward.

(** X11. The pressure part of the solution vector is never fed forward.
    If two solve services return arrays that agree at the indices of the
    velocity unknowns (whatever they hold at the pressure indices and
    beyond), the two runs go through the same times, spaces and linear
    systems, decode the same velocity fields and use the same linearization
    anchors in every iteration. *)
Theorem pressure_not_fed_forward (p : Params)
    (s1 s2 : LinSystem -> SolveResult) (mesh : Mesh) (k : nat) :
  (forall (s : LinSystem) (i : Z),
      i ∈ free_dofs (sp_dofs (xvel (init p mesh)))
      \/ i ∈ free_dofs (sp_dofs (yvel (init p mesh))) ->
      solve_x (s1 s) i = solve_x (s2 s) i) ->
  let w1 := run p s1 k (init p mesh) in
  let w2 := run p s2 k (init p mesh) in
  TIME w1 = TIME w2 /\ xprev w1 = xprev w2 /\ yprev w1 = yprev w2
  /\ xvel w1 = xvel w2 /\ yvel w1 = yvel w2 /\ press w1 = press w2
  /\ sys w1 = sys w2
  /\ anchors (trace w1) = anchors (trace w2)
  /\ decoded Xvel (trace w1) = decoded Xvel (trace w2)
  /\ decoded Yvel (trace w1) = decoded Yvel (trace w2).
Proof.
  intros Hsame. exact (run_velocities_only p s1 s2 mesh Hsame k).
Qed.

Lemma pressure_not_fed_forward_witness :
  let w1 := run source_params rhs_solver 2 (init source_params toy_mesh) in
  let w2 := run source_params (spoiled_solver 4) 2
              (init source_params toy_mesh) in
  xprev w1 = xprev w2 /\ yprev w1 = yprev w2 /\ sys w1 = sys w2.
Proof.
  cbv zeta.
  destruct (pressure_not_fed_forward source_params rhs_solver
              (spoiled_solver 4) toy_mesh 2)
    as (_ & Hx & Hy & _ & _ & _ & Hs & _).
  - intros s i Hi. unfold rhs_solver, spoiled_solver. cbn [solve_x].
    destruct (decide (4 <= i)%Z) as [Hge | _]; [| reflexivity].
    exfalso. rewrite !list_elem_of_In in Hi. vm_compute in Hi.
    destruct Hi as [[E | [E | []]] | [E | [E | []]]]; subst i;
      apply Hge; reflexivity.
  - split; [exact Hx | split; [exact Hy | exact Hs]].
Defined.

(** ** The symmetric tag *)

Lemma Qcsum_app (l1 l2 : list scalar) :
  Qcsum (l1 ++ l2) = Qcsum l1 + Qcsum l2.
Proof.
  induction l1 as [| x l1 IH]; cbn [app Qcsum]; [ring | rewrite IH; ring].
Qed.

Lemma quad_zip_with_flip (w : RefMap) (f g : Sample -> Sample -> scalar)
    (fu fv : RealFunction) :
  (forall u v, f u v = g v u) ->
  quad w (zip_with f fu fv) = quad w (zip_with g fv fu).
Proof.
  intros Hfg. revert fu fv. induction w as [| wi w IH]; intros fu fv.
  - reflexivity.
  - destruct fu as [| u fu], fv as [| v fv]; try reflexivity.
    cbn [zip_with quad]. rewrite Hfg, IH. reflexivity.
Qed.

(** The kernel tagged [SYM] in [main] is symmetric in its two
    functions. *)
Lemma viscous_kernel_symmetric (p : Params) (env env' : KernelEnv)
    (fu fv : RealFunction) (ru rv rv' : RefMap) :
  bilinear_form_sym_0_0_1_1 p env fu fv ru rv
  = bilinear_form_sym_0_0_1_1 p env' fv fu ru rv'.
Proof.
  unfold bilinear_form_sym_0_0_1_1, int_grad_u_grad_v, int_u_v.
  rewrite (quad_zip_with_flip ru
             (fun u v => dx u * dx v + dy u * dy v)
             (fun u v => dx u * dx v + dy u * dy v) fu fv)
    by (intros; ring).
  rewrite (quad_zip_with_flip ru
             (fun u v => val u * val v) (fun u v => val u * val v) fu fv)
    by (intros; ring).
  reflexivity.
Qed.

Lemma all_pairs_cons_trial (c : LocalPair -> scalar) (m : Mirror)
    (x : Shape) (tests trials : list Shape) :
  Qcsum (map c (all_pairs m tests (x :: trials)))
  = Qcsum (map (fun t => c (t, x, m)) tests)
    + Qcsum (map c (all_pairs m tests trials)).
Proof.
  unfold all_pairs. induction tests as [| t tests IH].
  - cbn. ring.
  - cbn [flat_map]. rewrite !map_app, !Qcsum_app, IH.
    cbn [map Qcsum]. ring.
Qed.

(** Summing over the triangle with mirroring is summing over all
    pairs. *)
Lemma triangle_sum (c : LocalPair -> scalar) (l : list Shape) :
  (forall y x, c (y, x, MirrorSame) = c (y, x, NoMirror) + c (x, y, NoMirror)) ->
  Qcsum (map c (triangle l)) = Qcsum (map c (all_pairs NoMirror l l)).
Proof.
  intros Hc. induction l as [| x l IH]; [reflexivity |].
  cbn [triangle map Qcsum]. rewrite map_app, Qcsum_app, IH, map_map.
  rewrite (Qcsum_ext (fun y => c (y, x, MirrorSame))
             (fun y => c (y, x, NoMirror) + c (x, y, NoMirror)))
    by (intros y; apply Hc).
  rewrite Qcsum_add.
  rewrite all_pairs_cons_trial. cbn [map Qcsum].
  unfold all_pairs at 2. cbn [flat_map]. rewrite map_app, Qcsum_app, map_map.
  fold (all_pairs NoMirror l l). ring.
Qed.

(** A term on a diagonal block whose kernel is symmetric contributes the
    same matrix whether it is tagged [SYM] or not. *)
Lemma sym_tag_exact spaces pss xp yp (t : BiForm) (i j : Z) :
  bf_sym t = SYM -> bf_i t = bf_j t ->
  (forall env fu fv r, bf_fn t env fu fv r r = bf_fn t env fv fu r r) ->
  biform_matrix spaces pss xp yp t i j
  = biform_matrix spaces pss xp yp (untagged t) i j.
Proof.
  intros Hs Hij Hk. unfold biform_matrix. rewrite !assemble_ls_A.
  apply Qcsum_ext. intros [k e].
  rewrite !(proj2 (assemble_element_additive _ _ _ _ _ (k, e))).
  cbn [wf_biforms map Qcsum fst snd]. f_equal.
  set (env := {| env_xprev := activate xp k e; env_yprev := activate yp k e |}).
  unfold assemble_biform, term_pairs. cbn [untagged bf_i bf_j bf_sym].
  rewrite Hs, <- Hij.
  destruct (decide (bf_i t = bf_i t)) as [_ | N]; [| contradiction].
  destruct (spaces !! bf_i t) as [sp |]; [| reflexivity].
  set (L := shapes_on spaces pss (bf_i t) e).
  destruct (additive_fold (add_pair env t e sp sp) (triangle L)) as [_ H1];
    [intros pr; apply add_pair_additive |].
  destruct (additive_fold (add_pair env (untagged t) e sp sp)
              (all_pairs NoMirror L L)) as [_ H2];
    [intros pr; apply add_pair_additive |].
  rewrite H1, H2.
  change (fun x => ls_A (add_pair env (untagged t) e sp sp (zero_system 0) x) i j)
    with (fun x => ls_A (add_pair env t e sp sp (zero_system 0) x) i j).
  apply (triangle_sum
           (fun pr => ls_A (add_pair env t e sp sp (zero_system 0) pr) i j)).
  intros y x. unfold add_pair.
  rewrite (scatter_additive (dof_of sp (fst x)) (dof_of sp (fst y)) _
             (scatter _ _ _ _) i j).
  rewrite (Hk env (snd y) (snd x)). reflexivity.
Qed.

(** X12. The tag [SYM] of the two diagonal terms is sound: their kernel
    [bilinear_form_sym_0_0_1_1] gives the same value when its two
    functions are exchanged, and therefore computing one triangle and
    mirroring it yields, entry by entry, the matrix that computing every
    local value separately would yield. *)
Theorem symmetric_tag_is_exact (p : Params) :
  (forall (env env' : KernelEnv) (fu fv : RealFunction) (ru rv rv' : RefMap),
      bilinear_form_sym_0_0_1_1 p env fu fv ru rv
      = bilinear_form_sym_0_0_1_1 p env' fv fu ru rv')
  /\ (forall spaces pss xp yp (n : nat) (i j : Z),
        biform_matrix spaces pss xp yp (viscous_term p n) i j
        = biform_matrix spaces pss xp yp (untagged (viscous_term p n)) i j).
Proof.
  split; [apply viscous_kernel_symmetric |].
  intros spaces pss xp yp n i j.
  apply sym_tag_exact; [reflexivity | reflexivity |].
  intros env fu fv r. cbn [viscous_term bf_fn].
  apply viscous_kernel_symmetric.
Qed.

(** ** The loop counter *)

Section Counter.

Variable p : Params.
Variable spsolve : LinSystem -> SolveResult.

(** The loop counter enters the body only through the info line. *)
Lemma step_same_state (i1 i2 : Z) (w1 w2 : World) :
  same_state w1 w2 ->
  same_state (exec (time_step p spsolve i1) w1)
             (exec (time_step p spsolve i2) w2)
  /\ map forget_step_number (step_events p spsolve i1 w1)
     = map forget_step_number (step_events p spsolve i2 w2).
Proof.
  intros (Ht & Hx & Hy & Hxv & Hyv & Hpr & _).
  rewrite !time_step_spec. unfold same_state.
  cbn [TIME xprev yprev xvel yvel press sys trace].
  assert (Est : step_time p w1 = step_time p w2)
    by (unfold step_time; rewrite Ht; reflexivity).
  assert (Exv : step_xvel p w1 = step_xvel p w2)
    by (unfold step_xvel; rewrite Est, Hxv; reflexivity).
  assert (Eyv : step_yvel p w1 = step_yvel p w2)
    by (unfold step_yvel; rewrite Est, Exv, Hyv; reflexivity).
  assert (Epr : step_press p w1 = step_press p w2)
    by (unfold step_press; rewrite Est, Exv, Eyv, Hpr; reflexivity).
  assert (Esy : step_system p w1 = step_system p w2)
    by (unfold step_system; rewrite Exv, Eyv, Epr, Hx, Hy; reflexivity).
  assert (Eso : step_solve p spsolve w1 = step_solve p spsolve w2)
    by (unfold step_solve; rewrite Esy; reflexivity).
  assert (Exs : step_xsln p spsolve w1 = step_xsln p spsolve w2)
    by (unfold step_xsln; rewrite Eso, Exv; reflexivity).
  assert (Eys : step_ysln p spsolve w1 = step_ysln p spsolve w2)
    by (unfold step_ysln; rewrite Eso, Eyv; reflexivity).
  assert (Eps : step_psln p spsolve w1 = step_psln p spsolve w2)
    by (unfold step_psln; rewrite Eso, Epr; reflexivity).
  split; [repeat (split; [assumption |]); assumption |].
  unfold step_events. cbn [map forget_step_number].
  rewrite Est, Exv, Eyv, Eso, Exs, Eys, Eps, Hx, Hy. reflexivity.
Qed.

Lemma run_resume (j k : nat) (w : World) :
  same_state (run p spsolve (j + k) w) (run p spsolve k (run p spsolve j w))
  /\ map forget_step_number (trace (run p spsolve (j + k) w))
     = map forget_step_number (trace (run p spsolve k (run p spsolve j w))).
Proof.
  induction k as [| k [IHs IHt]].
  - rewrite Nat.add_0_r, run_0. split; [repeat split; reflexivity | reflexivity].
  - rewrite Nat.add_succ_r, !run_S.
    destruct (step_same_state (Z.of_nat (S (j + k))) (Z.of_nat (S k))
                _ _ IHs) as [Hs He].
    split; [exact Hs |].
    rewrite !time_step_spec. cbn [trace]. rewrite !map_app, IHt, He.
    reflexivity.
Qed.

End Counter.

(** X13. The loop counter is used for nothing but the number printed in
    the info line.  Stopping a run after [j] iterations and running [k]
    more iterations from the state reached (the counter starting again
    at 1) gives the same time, previous-step fields, spaces and linear
    system as [j + k] iterations in one go, and the same calls in the
    same order up to the printed step numbers. *)
Theorem loop_counter_only_printed (p : Params)
    (spsolve : LinSystem -> SolveResult) (j k : nat) (w : World) :
  let a := run p spsolve (j + k) w in
  let b := run p spsolve k (run p spsolve j w) in
  TIME a = TIME b /\ xprev a = xprev b /\ yprev a = yprev b
  /\ xvel a = xvel b /\ yvel a = yvel b /\ press a = press b
  /\ sys a = sys b
  /\ map forget_step_number (trace a) = map forget_step_number (trace b).
Proof.
  cbv zeta. destruct (run_resume p spsolve j k w) as [Hs Ht].
  destruct Hs as (H1 & H2 & H3 & H4 & H5 & H6 & H7).
  repeat (split; [assumption |]). exact Ht.
Qed.

(** ** The right-hand side of the continuity rows *)

Lemma scatter_rhs_other (row col : option DofRef) (v : scalar)
    (s : LinSystem) (i : Z) :
  row <> Some (Free i) -> ls_rhs (scatter row col v s) i = ls_rhs s i.
Proof.
  intros Hr. unfold scatter.
  destruct row as [[r | g] |]; try reflexivity.
  destruct col as [[c | g'] |]; try reflexivity.
  cbn [ls_rhs]. unfold vec_add.
  case_decide as E; [subst r; contradiction | reflexivity].
Qed.

Lemma scatter_rhs_congr (row col : option DofRef) (v : scalar)
    (s s' : LinSystem) (i : Z) :
  ls_rhs s i = ls_rhs s' i ->
  ls_rhs (scatter row col v s) i = ls_rhs (scatter row col v s') i.
Proof.
  intros Hs. unfold scatter.
  destruct row as [[r | g] |]; try exact Hs.
  destruct col as [[c | g'] |]; try exact Hs.
  cbn [ls_rhs]. unfold vec_add. rewrite Hs. reflexivity.
Qed.

Lemma dof_of_not_free (sp : Space) (c : nat) (i : Z) :
  ~ i ∈ free_dofs (sp_dofs sp) -> dof_of sp c <> Some (Free i).
Proof. intros Hi Hd. apply Hi. eapply dof_of_free. exact Hd. Qed.

Lemma add_pair_rhs_other env t e spm spn s pr (i : Z) :
  ~ i ∈ free_dofs (sp_dofs spm) -> ~ i ∈ free_dofs (sp_dofs spn) ->
  ls_rhs (add_pair env t e spm spn s pr) i = ls_rhs s i.
Proof.
  intros Hm Hn. destruct pr as [[test trial] mirror]. unfold add_pair.
  destruct mirror;
    rewrite ?scatter_rhs_other by (apply dof_of_not_free; assumption);
    reflexivity.
Qed.

Lemma add_pair_rhs_congr env env' t e spm spn s s' pr (i : Z) :
  (forall fu fv ru rv, bf_fn t env fu fv ru rv = bf_fn t env' fu fv ru rv) ->
  ls_rhs s i = ls_rhs s' i ->
  ls_rhs (add_pair env t e spm spn s pr) i
  = ls_rhs (add_pair env' t e spm spn s' pr) i.
Proof.
  intros Hk Hs. destruct pr as [[test trial] mirror]. unfold add_pair.
  rewrite <- Hk.
  destruct mirror; repeat apply scatter_rhs_congr; exact Hs.
Qed.

Lemma assemble_biform_rhs_other spaces pss env e s t spm spn (i : Z) :
  spaces !! bf_i t = Some spm -> spaces !! bf_j t = Some spn ->
  ~ i ∈ free_dofs (sp_dofs spm) -> ~ i ∈ free_dofs (sp_dofs spn) ->
  ls_rhs (assemble_biform spaces pss env e s t) i = ls_rhs s i.
Proof.
  intros Em En Hm Hn. unfold assemble_biform. rewrite Em, En.
  apply (fold_left_invariant (fun s' => ls_rhs s' i = ls_rhs s i));
    [| reflexivity].
  intros a pr _ Ha. rewrite add_pair_rhs_other by assumption. exact Ha.
Qed.

Lemma assemble_biform_rhs_congr spaces pss env env' e s s' t (i : Z) :
  (forall fu fv ru rv, bf_fn t env fu fv ru rv = bf_fn t env' fu fv ru rv) ->
  ls_rhs s i = ls_rhs s' i ->
  ls_rhs (assemble_biform spaces pss env e s t) i
  = ls_rhs (assemble_biform spaces pss env' e s' t) i.
Proof.
  intros Hk Hs. unfold assemble_biform.
  destruct (spaces !! bf_i t) as [spm |]; [| exact Hs].
  destruct (spaces !! bf_j t) as [spn |]; [| exact Hs].
  apply (fold_left_related (fun a a' => ls_rhs a i = ls_rhs a' i));
    [| exact Hs].
  intros a a' pr _ Ha. apply add_pair_rhs_congr; assumption.
Qed.

Lemma assemble_liform_rhs_other spaces pss env e s t spm (i : Z) :
  spaces !! lf_i t = Some spm -> ~ i ∈ free_dofs (sp_dofs spm) ->
  ls_rhs (assemble_liform spaces pss env e s t) i = ls_rhs s i.
Proof.
  intros Em Hm. unfold assemble_liform. rewrite Em.
  apply (fold_left_invariant (fun s' => ls_rhs s' i = ls_rhs s i));
    [| reflexivity].
  intros a test _ Ha. unfold add_load.
  destruct (dof_of spm (fst test)) as [[r | g] |] eqn:Ed; try exact Ha.
  cbn [ls_rhs]. unfold vec_add.
  case_decide as E; [| exact Ha].
  subst r. exfalso. apply Hm. eapply dof_of_free. exact Ed.
Qed.

(** In the continuity rows the right-hand side assembled by [main] does
    not depend on the previous-step fields. *)
Lemma continuity_rhs_fixed (p : Params) (mesh : Mesh) (t : double)
    (xp yp xp' yp' : Solution) (i : Z) :
  i ∈ free_dofs (sp_dofs (press_at p mesh t)) ->
  ls_rhs (assemble (main_weak_form p) (spaces_at p mesh t) sys_pss xp yp) i
  = ls_rhs (assemble (main_weak_form p) (spaces_at p mesh t) sys_pss xp' yp') i.
Proof.
  intros Hi.
  assert (Hx : ~ i ∈ free_dofs (sp_dofs (xvel_at p mesh t)))
    by (spaces_ranges; lia).
  assert (Hy : ~ i ∈ free_dofs (sp_dofs (yvel_at p mesh t)))
    by (spaces_ranges; lia).
  unfold assemble.
  apply (fold_left_related (fun a a' => ls_rhs a i = ls_rhs a' i));
    [| reflexivity].
  intros a a' [k e] _ Ha. unfold assemble_element.
  rewrite main_weak_form_terms.
  change (wf_liforms (main_weak_form p))
    with [ {| lf_i := 0; lf_fn := linear_form_0 p; lf_ext := [Xprev] |};
           {| lf_i := 1; lf_fn := linear_form_1 p; lf_ext := [Yprev] |} ].
  cbn [fold_left].
  assert (Hl0 : forall env s,
             ls_rhs (assemble_liform (spaces_at p mesh t) sys_pss env e s
                       {| lf_i := 0; lf_fn := linear_form_0 p;
                          lf_ext := [Xprev] |}) i = ls_rhs s i)
    by (intros; apply (assemble_liform_rhs_other _ _ _ _ _ _
                         (xvel_at p mesh t)); [reflexivity | exact Hx]).
  assert (Hl1 : forall env s,
             ls_rhs (assemble_liform (spaces_at p mesh t) sys_pss env e s
                       {| lf_i := 1; lf_fn := linear_form_1 p;
                          lf_ext := [Yprev] |}) i = ls_rhs s i)
    by (intros; apply (assemble_liform_rhs_other _ _ _ _ _ _
                         (yvel_at p mesh t)); [reflexivity | exact Hy]).
  assert (Hb0 : forall env s tm,
             bf_i tm = 0%nat -> bf_j tm = 0%nat ->
             ls_rhs (assemble_biform (spaces_at p mesh t) sys_pss env e s tm) i
             = ls_rhs s i).
  { intros env s tm Ei Ej.
    apply (assemble_biform_rhs_other _ _ _ _ _ _ (xvel_at p mesh t)
             (xvel_at p mesh t)); [rewrite Ei | rewrite Ej | |];
      first [reflexivity | exact Hx]. }
  assert (Hb1 : forall env s tm,
             bf_i tm = 1%nat -> bf_j tm = 1%nat ->
             ls_rhs (assemble_biform (spaces_at p mesh t) sys_pss env e s tm) i
             = ls_rhs s i).
  { intros env s tm Ei Ej.
    apply (assemble_biform_rhs_other _ _ _ _ _ _ (yvel_at p mesh t)
             (yvel_at p mesh t)); [rewrite Ei | rewrite Ej | |];
      first [reflexivity | exact Hy]. }
  rewrite !Hl1, !Hl0.
  apply assemble_biform_rhs_congr; [reflexivity |].
  apply assemble_biform_rhs_congr; [reflexivity |].
  rewrite !(Hb1 _ _ (convective_term 1) eq_refl eq_refl).
  rewrite !(Hb1 _ _ (viscous_term p 1) eq_refl eq_refl).
  rewrite !(Hb0 _ _ (convective_term 0) eq_refl eq_refl).
  rewrite !(Hb0 _ _ (viscous_term p 0) eq_refl eq_refl).
  exact Ha.
Qed.

(** X14. The right-hand side of the continuity equation does not depend
    on the previous time step: in every system assembled by the main
    loop, the entries of the right-hand side in the rows of the pressure
    unknowns are those that any other pair of previous-step fields would
    have given (only the boundary values at the current time enter
    them). *)
Theorem continuity_rhs_independent_of_previous_step (p : Params)
    (spsolve : LinSystem -> SolveResult) (mesh : Mesh) (k : nat) (i : Z)
    (xp yp : Solution) :
  let w := run p spsolve (S k) (init p mesh) in
  i ∈ free_dofs (sp_dofs (press w)) ->
  ls_rhs (sys w) i
  = ls_rhs (assemble (main_weak_form p) (sys_spaces w) sys_pss xp yp) i.
Proof.
  cbv zeta.
  destruct (run_sys_at p spsolve mesh k) as (Es & Esp & _ & _ & Eq).
  cbv zeta in *. rewrite Es, Esp, Eq.
  apply continuity_rhs_fixed.
Qed.

Lemma continuity_rhs_independent_of_previous_step_witness :
  let w := run source_params ones_solver 2 (init source_params toy_mesh) in
  ls_rhs (sys w) 4
  = ls_rhs (assemble (main_weak_form source_params) (sys_spaces w) sys_pss
              (set_zero toy_mesh) (set_zero toy_mesh)) 4.
Proof.
  cbv zeta.
  apply (continuity_rhs_independent_of_previous_step source_params
           ones_solver toy_mesh 1 4).
  apply list_elem_of_In. vm_compute. auto.
Defined.

(** ** The discrete divergence *)

Lemma Qcsum_ext_in {B : Type} (f g : B -> scalar) (l : list B) :
  (forall x, x ∈ l -> f x = g x) -> Qcsum (map f l) = Qcsum (map g l).
Proof.
  intros Hfg. induction l as [| x l IH]; [reflexivity |].
  cbn [map Qcsum]. rewrite IH, Hfg.
  - reflexivity.
  - left.
  - intros y Hy. apply Hfg. right. exact Hy.
Qed.

Lemma Qcsum_all_pairs (d : LocalPair -> scalar) (m : Mirror)
    (tests trials : list Shape) :
  Qcsum (map d (all_pairs m tests trials))
  = Qcsum (map (fun t => Qcsum (map (fun u => d (t, u, m)) trials)) tests).
Proof.
  unfold all_pairs. induction tests as [| t tests IH]; [reflexivity |].
  cbn [flat_map map Qcsum]. rewrite map_app, Qcsum_app, IH, map_map.
  reflexivity.
Qed.

Lemma quad_nil_r (w : RefMap) : quad w [] = 0.
Proof. destruct w; reflexivity. Qed.

(** *** Quadrature is linear in the decoded field *)

Section Linear.

Context {A : Type}.
Variable f : A -> Sample -> scalar.
Hypothesis f_zero : forall q, f q zero_sample = 0.
Hypothesis f_axpy :
  forall q a s acc, f q (sample_axpy a s acc) = a * f q s + f q acc.

Lemma quad_axpy (c : scalar) (tab : RealFunction) (g : nat -> Sample)
    (ru : RefMap) (qt : list A) (a : nat) :
  quad ru (zip_with f qt
             (map (fun k => sample_axpy c (nth k tab zero_sample) (g k))
                  (seq a (length ru))))
  = c * quad ru (zip_with f qt (drop a tab))
    + quad ru (zip_with f qt (map g (seq a (length ru)))).
Proof.
  revert qt a. induction ru as [| wi ru IH]; intros qt a.
  - cbn. ring.
  - cbn [length seq map]. destruct qt as [| q0 qt].
    + cbn. ring.
    + cbn [zip_with quad]. rewrite IH, f_axpy.
      rewrite nth_lookup.
      destruct (tab !! a) as [s |] eqn:Ea.
      * rewrite (drop_S tab s a Ea). cbn [zip_with quad default].
        change (id s) with s. ring.
      * cbn [default]. rewrite f_zero.
        rewrite (drop_ge tab a) by (apply lookup_ge_None; exact Ea).
        rewrite (drop_ge tab (S a))
          by (apply lookup_ge_None in Ea; lia).
        rewrite !zip_with_nil_r. cbn [zip_with]. rewrite !quad_nil_r. ring.
Qed.

Lemma quad_zero_table (ru : RefMap) (qt : list A) (a : nat) :
  quad ru (zip_with f qt (map (fun _ => zero_sample) (seq a (length ru))))
  = 0.
Proof.
  revert qt a. induction ru as [| wi ru IH]; intros qt a; [reflexivity |].
  cbn [length seq map]. destruct qt as [| q0 qt]; [reflexivity |].
  cbn [zip_with quad]. rewrite IH, f_zero. ring.
Qed.

(** Integrating against the decoded field is summing, over the shape
    functions, the coefficient times the integral against the shape. *)
Lemma quad_eval_at (sp : Space) (X : Vec) (shapes : list Shape)
    (ru : RefMap) (qt : list A) :
  quad ru (zip_with f qt (map (eval_at sp X shapes) (seq 0 (length ru))))
  = Qcsum (map (fun sh => coef X (dof_of sp (fst sh))
                          * quad ru (zip_with f qt (snd sh)))
               shapes).
Proof.
  induction shapes as [| sh shapes IH].
  - cbn [map Qcsum]. apply quad_zero_table.
  - cbn [map Qcsum]. rewrite <- IH.
    change (eval_at sp X (sh :: shapes))
      with (fun q => sample_axpy (coef X (dof_of sp (fst sh)))
                       (nth q (snd sh) zero_sample)
                       (eval_at sp X shapes q)).
    rewrite quad_axpy. rewrite drop_0. reflexivity.
Qed.

End Linear.

Lemma int_u_dvdx_eval_at (sp : Space) (X : Vec) (shapes : list Shape)
    (ru rv : RefMap) (qt : RealFunction) :
  int_u_dvdx qt (map (eval_at sp X shapes) (seq 0 (length ru))) ru rv
  = Qcsum (map (fun sh => coef X (dof_of sp (fst sh))
                          * int_u_dvdx qt (snd sh) ru rv) shapes).
Proof.
  unfold int_u_dvdx. apply quad_eval_at.
  - intros q. cbn. ring.
  - intros q a s acc. cbn. ring.
Qed.

Lemma int_u_dvdy_eval_at (sp : Space) (X : Vec) (shapes : list Shape)
    (ru rv : RefMap) (qt : RealFunction) :
  int_u_dvdy qt (map (eval_at sp X shapes) (seq 0 (length ru))) ru rv
  = Qcsum (map (fun sh => coef X (dof_of sp (fst sh))
                          * int_u_dvdy qt (snd sh) ru rv) shapes).
Proof.
  unfold int_u_dvdy. apply quad_eval_at.
  - intros q. cbn. ring.
  - intros q a s acc. cbn. ring.
Qed.

(** *** What an assembly step adds to the residual of a row *)

Lemma fold_left_sum {B : Type} (rho : LinSystem -> scalar)
    (f : LinSystem -> B -> LinSystem) (d : B -> scalar) (l : list B)
    (s : LinSystem) :
  (forall s x, x ∈ l -> rho (f s x) = rho s + d x) ->
  rho (fold_left f l s) = rho s + Qcsum (map d l).
Proof.
  revert s. induction l as [| x l IH]; intros s Hf.
  - cbn. ring.
  - cbn [fold_left map Qcsum]. rewrite IH.
    + rewrite Hf by left. ring.
    + intros s' y Hy. apply Hf. right. exact Hy.
Qed.

Section Residual.

Variable n : Z.
Variable X : Vec.
Variable r : Z.

Lemma residual_zero_system (m : Z) :
  residual_upto n X r (zero_system m) = 0.
Proof.
  unfold residual_upto. cbn [zero_system ls_A ls_rhs].
  rewrite (Qcsum_ext (fun c => 0 * X c) (fun _ => 0)) by (intros; ring).
  rewrite Qcsum_zero. ring.
Qed.

Lemma sum_mat_add_other (r0 c : Z) (v : scalar) (A : Z -> Z -> scalar)
    (l : list Z) :
  r0 <> r ->
  Qcsum (map (fun c' => mat_add r0 c v A r c' * X c') l)
  = Qcsum (map (fun c' => A r c' * X c') l).
Proof.
  intros Hr. apply Qcsum_ext. intros c'. unfold mat_add.
  case_decide as E; [destruct E; congruence | reflexivity].
Qed.

Lemma sum_mat_add_absent (c : Z) (v : scalar) (A : Z -> Z -> scalar)
    (l : list Z) :
  ~ c ∈ l ->
  Qcsum (map (fun c' => mat_add r c v A r c' * X c') l)
  = Qcsum (map (fun c' => A r c' * X c') l).
Proof.
  intros Hc. apply Qcsum_ext_in. intros c' Hc'. unfold mat_add.
  case_decide as E; [destruct E; congruence | reflexivity].
Qed.

Lemma sum_mat_add_row (c : Z) (v : scalar) (A : Z -> Z -> scalar)
    (l : list Z) :
  NoDup l -> c ∈ l ->
  Qcsum (map (fun c' => mat_add r c v A r c' * X c') l)
  = Qcsum (map (fun c' => A r c' * X c') l) + v * X c.
Proof.
  intros Hnd. induction Hnd as [| x l Hx Hnd IH]; intros Hc.
  - inversion Hc.
  - cbn [map Qcsum]. apply elem_of_cons in Hc. destruct Hc as [-> | Hc].
    + rewrite sum_mat_add_absent by exact Hx. unfold mat_add at 1.
      case_decide as E; [ring | exfalso; apply E; split; reflexivity].
    + rewrite IH by exact Hc. unfold mat_add at 1.
      case_decide as E; [destruct E as [_ ->]; contradiction | ring].
Qed.

Lemma scatter_residual_other (row col : option DofRef) (v : scalar)
    (s : LinSystem) :
  row <> Some (Free r) ->
  residual_upto n X r (scatter row col v s) = residual_upto n X r s.
Proof.
  intros Hr. unfold residual_upto.
  rewrite scatter_rhs_other by exact Hr. f_equal.
  rewrite scatter_ls_A.
  destruct row as [[r0 | g] |]; try reflexivity.
  destruct col as [[c | g'] |]; try reflexivity.
  apply sum_mat_add_other. congruence.
Qed.

Lemma scatter_residual_row (col : option DofRef) (v : scalar)
    (s : LinSystem) :
  (forall c, col = Some (Free c) -> (0 <= c < n)%Z) ->
  residual_upto n X r (scatter (Some (Free r)) col v s)
  = residual_upto n X r s + v * coef X col.
Proof.
  intros Hc. unfold residual_upto, scatter, coef.
  destruct col as [[c | g] |]; cbn [ls_A ls_rhs].
  - rewrite sum_mat_add_row; [ring | apply NoDup_seqZ |].
    apply elem_of_seqZ. specialize (Hc c eq_refl). lia.
  - unfold vec_add. case_decide as E; [ring | contradiction].
  - ring.
Qed.

Lemma add_load_residual env t e spm s test :
  ~ r ∈ free_dofs (sp_dofs spm) ->
  residual_upto n X r (add_load env t e spm s test) = residual_upto n X r s.
Proof.
  intros Hm. unfold add_load.
  destruct (dof_of spm (fst test)) as [[r0 | g] |] eqn:Ed; try reflexivity.
  unfold residual_upto. cbn [ls_A ls_rhs]. unfold vec_add.
  case_decide as E; [| reflexivity].
  subst r0. exfalso. apply Hm. eapply dof_of_free. exact Ed.
Qed.

Lemma assemble_liform_residual spaces pss env e s t spm :
  spaces !! lf_i t = Some spm -> ~ r ∈ free_dofs (sp_dofs spm) ->
  residual_upto n X r (assemble_liform spaces pss env e s t)
  = residual_upto n X r s.
Proof.
  intros Em Hm. unfold assemble_liform. rewrite Em.
  apply (fold_left_invariant
           (fun s' => residual_upto n X r s' = residual_upto n X r s));
    [| reflexivity].
  intros a test _ Ha. rewrite add_load_residual by exact Hm. exact Ha.
Qed.

Lemma add_pair_residual_other env t e spm spn s pr :
  ~ r ∈ free_dofs (sp_dofs spm) -> ~ r ∈ free_dofs (sp_dofs spn) ->
  residual_upto n X r (add_pair env t e spm spn s pr) = residual_upto n X r s.
Proof.
  intros Hm Hn. destruct pr as [[test trial] mirror]. unfold add_pair.
  destruct mirror;
    rewrite ?scatter_residual_other by (apply dof_of_not_free; assumption);
    reflexivity.
Qed.

Lemma assemble_biform_residual_other spaces pss env e s t spm spn :
  spaces !! bf_i t = Some spm -> spaces !! bf_j t = Some spn ->
  ~ r ∈ free_dofs (sp_dofs spm) -> ~ r ∈ free_dofs (sp_dofs spn) ->
  residual_upto n X r (assemble_biform spaces pss env e s t)
  = residual_upto n X r s.
Proof.
  intros Em En Hm Hn. unfold assemble_biform. rewrite Em, En.
  apply (fold_left_invariant
           (fun s' => residual_upto n X r s' = residual_upto n X r s));
    [| reflexivity].
  intros a pr _ Ha. rewrite add_pair_residual_other by assumption. exact Ha.
Qed.

(** What a pair of an antisymmetric coupling adds to the residual of a
    row of its column field. *)
Lemma add_pair_residual_coupling env t e spm spn s test trial :
  ~ r ∈ free_dofs (sp_dofs spm) ->
  (forall c, c ∈ free_dofs (sp_dofs spm) -> (0 <= c < n)%Z) ->
  residual_upto n X r
    (add_pair env t e spm spn s (test, trial, MirrorNegated))
  = residual_upto n X r s
    + match dof_of spn (fst trial) with
      | Some (Free r') =>
          if decide (r' = r)
          then - bf_fn t env (snd trial) (snd test) (el_refmap e) (el_refmap e)
               * coef X (dof_of spm (fst test))
          else 0
      | _ => 0
      end.
Proof.
  intros Hm Hrange. unfold add_pair.
  destruct (dof_of spn (fst trial)) as [[r' | g] |] eqn:En.
  - destruct (decide (r' = r)) as [-> | Hne].
    + rewrite scatter_residual_row.
      * rewrite scatter_residual_other
          by (apply dof_of_not_free; exact Hm).
        reflexivity.
      * intros c Hc. apply Hrange. eapply dof_of_free. exact Hc.
    + rewrite !scatter_residual_other;
        [ring | apply dof_of_not_free; exact Hm | congruence].
  - rewrite !scatter_residual_other;
      [ring | apply dof_of_not_free; exact Hm | congruence].
  - rewrite !scatter_residual_other;
      [ring | apply dof_of_not_free; exact Hm | congruence].
Qed.

Lemma assemble_biform_residual_coupling spaces pss env e s t spm spn :
  bf_sym t = ANTISYM ->
  spaces !! bf_i t = Some spm -> spaces !! bf_j t = Some spn ->
  ~ r ∈ free_dofs (sp_dofs spm) ->
  (forall c, c ∈ free_dofs (sp_dofs spm) -> (0 <= c < n)%Z) ->
  residual_upto n X r (assemble_biform spaces pss env e s t)
  = residual_upto n X r s
    + Qcsum (map (fun test =>
         Qcsum (map (fun trial =>
            match dof_of spn (fst trial) with
            | Some (Free r') =>
                if decide (r' = r)
                then - bf_fn t env (snd trial) (snd test)
                         (el_refmap e) (el_refmap e)
                     * coef X (dof_of spm (fst test))
                else 0
            | _ => 0
            end)
           (shapes_on spaces pss (bf_j t) e)))
        (shapes_on spaces pss (bf_i t) e)).
Proof.
  intros Hs Em En Hm Hrange. unfold assemble_biform, term_pairs.
  rewrite Em, En, Hs.
  rewrite <- (Qcsum_all_pairs
                (fun pr : nat * list Sample * (nat * list Sample) * Mirror =>
                   match dof_of spn (fst (snd (fst pr))) with
                   | Some (Free r') =>
                       if decide (r' = r)
                       then - bf_fn t env (snd (snd (fst pr)))
                                (snd (fst (fst pr)))
                                (el_refmap e) (el_refmap e)
                            * coef X (dof_of spm (fst (fst (fst pr))))
                       else 0
                   | _ => 0
                   end)
                MirrorNegated).
  apply (fold_left_sum (residual_upto n X r)).
  intros a [[test trial] mirror] Hin.
  apply all_pairs_mirror in Hin. cbn [snd] in Hin. subst mirror.
  cbn [fst snd].
  apply add_pair_residual_coupling; assumption.
Qed.

End Residual.

Lemma zip_seq_lookup {B : Type} (l : list B) (a k : nat) (e : B) :
  (k, e) ∈ zip (seq a (length l)) l -> (a <= k)%nat /\ l !! (k - a)%nat = Some e.
Proof.
  revert a. induction l as [| x l IH]; intros a Hin.
  - inversion Hin.
  - cbn [length seq zip zip_with] in Hin. apply elem_of_cons in Hin.
    destruct Hin as [[= -> ->] | Hin].
    + rewrite Nat.sub_diag. split; [lia | reflexivity].
    + apply IH in Hin as [Hle Hl]. split; [lia |].
      replace (k - a)%nat with (S (k - S a)) by lia. exact Hl.
Qed.

(** A decoded field, activated on an element of its mesh. *)
Lemma activate_set_fe_solution (sp : Space) (pss : ShapesetKind) (X : Vec)
    (k : nat) (e : Element) :
  (k, e) ∈ zip (seq 0 (length (elements (sp_mesh sp)))) (elements (sp_mesh sp)) ->
  as_fn (activate (set_fe_solution sp pss X) k e)
  = map (eval_at sp X (el_shapes e pss (sp_order sp)))
        (seq 0 (length (el_refmap e))).
Proof.
  intros Hin. apply zip_seq_lookup in Hin as [_ Hl].
  rewrite Nat.sub_0_r in Hl.
  unfold activate, set_fe_solution. rewrite lookup_map, Hl. reflexivity.
Qed.

Section Divergence.

Variable p : Params.
Variable mesh : Mesh.
Variable t : double.
Variable X : Vec.
Variable r : Z.
Hypothesis r_pressure : r ∈ free_dofs (sp_dofs (press_at p mesh t)).

(** What one element adds to the residual of a continuity row: the
    discrete divergence of the decoded velocity, integrated against the
    pressure shapes of the row. *)
Lemma element_residual (xp yp : Solution) (s : LinSystem) (k : nat)
    (e : Element) :
  residual_upto (total_dofs (spaces_at p mesh t)) X r
    (assemble_element (main_weak_form p) (spaces_at p mesh t) sys_pss
       xp yp s (k, e))
  = residual_upto (total_dofs (spaces_at p mesh t)) X r s
    + Qcsum (map (fun q : nat * list Sample =>
         match dof_of (press_at p mesh t) (fst q) with
         | Some (Free r') =>
             if decide (r' = r) then
               int_u_dvdx (snd q)
                 (map (eval_at (xvel_at p mesh t) X
                         (el_shapes e H1ShapesetBeuchler (P_INIT_VEL p)))
                      (seq 0 (length (el_refmap e))))
                 (el_refmap e) (el_refmap e)
               + int_u_dvdy (snd q)
                   (map (eval_at (yvel_at p mesh t) X
                           (el_shapes e H1ShapesetBeuchler (P_INIT_VEL p)))
                        (seq 0 (length (el_refmap e))))
                   (el_refmap e) (el_refmap e)
             else 0
         | _ => 0
         end)
        (el_shapes e L2Shapeset (P_INIT_PRESSURE p))).
Proof.
  pose proof (vel_unknowns_nonneg p mesh) as Hnv.
  assert (Hx : ~ r ∈ free_dofs (sp_dofs (xvel_at p mesh t)))
    by (spaces_ranges; lia).
  assert (Hy : ~ r ∈ free_dofs (sp_dofs (yvel_at p mesh t)))
    by (spaces_ranges; lia).
  assert (Rx : forall c, c ∈ free_dofs (sp_dofs (xvel_at p mesh t)) ->
                 (0 <= c < total_dofs (spaces_at p mesh t))%Z)
    by (intros c Hc; rewrite spaces_at_total; spaces_ranges; lia).
  assert (Ry : forall c, c ∈ free_dofs (sp_dofs (yvel_at p mesh t)) ->
                 (0 <= c < total_dofs (spaces_at p mesh t))%Z)
    by (intros c Hc; rewrite spaces_at_total; spaces_ranges; lia).
  set (N := total_dofs (spaces_at p mesh t)) in *.
  unfold assemble_element. rewrite main_weak_form_terms.
  change (wf_liforms (main_weak_form p))
    with [ {| lf_i := 0; lf_fn := linear_form_0 p; lf_ext := [Xprev] |};
           {| lf_i := 1; lf_fn := linear_form_1 p; lf_ext := [Yprev] |} ].
  set (env := {| env_xprev := activate xp k e; env_yprev := activate yp k e |}).
  cbn [fold_left].
  rewrite (assemble_liform_residual N X r _ _ _ _ _ _ (yvel_at p mesh t))
    by (first [reflexivity | exact Hy]).
  rewrite (assemble_liform_residual N X r _ _ _ _ _ _ (xvel_at p mesh t))
    by (first [reflexivity | exact Hx]).
  rewrite (assemble_biform_residual_coupling N X r (spaces_at p mesh t) _ _ _ _ pressure_term_y
             (yvel_at p mesh t) (press_at p mesh t) eq_refl eq_refl eq_refl
             Hy Ry).
  rewrite (assemble_biform_residual_coupling N X r (spaces_at p mesh t) _ _ _ _ pressure_term_x
             (xvel_at p mesh t) (press_at p mesh t) eq_refl eq_refl eq_refl
             Hx Rx).
  rewrite (assemble_biform_residual_other N X r (spaces_at p mesh t) _ _ _ _ (convective_term 1)
             (yvel_at p mesh t) (yvel_at p mesh t) eq_refl eq_refl Hy Hy).
  rewrite (assemble_biform_residual_other N X r (spaces_at p mesh t) _ _ _ _ (viscous_term p 1)
             (yvel_at p mesh t) (yvel_at p mesh t) eq_refl eq_refl Hy Hy).
  rewrite (assemble_biform_residual_other N X r (spaces_at p mesh t) _ _ _ _ (convective_term 0)
             (xvel_at p mesh t) (xvel_at p mesh t) eq_refl eq_refl Hx Hx).
  rewrite (assemble_biform_residual_other N X r (spaces_at p mesh t) _ _ _ _ (viscous_term p 0)
             (xvel_at p mesh t) (xvel_at p mesh t) eq_refl eq_refl Hx Hx).
  rewrite <- Qcplus_assoc. f_equal.
  cbn [pressure_term_x pressure_term_y bf_i bf_j bf_fn].
  rewrite !spaces_at_shapes.
  rewrite !(Qcsum_swap
              (fun (test trial : nat * list Sample) =>
                 match dof_of (press_at p mesh t) (fst trial) with
                 | Some (Free r') => _
                 | _ => 0
                 end)).
  rewrite <- Qcsum_add. apply Qcsum_ext. intros q.
  destruct (dof_of (press_at p mesh t) (fst q)) as [[r' | g] |];
    try (rewrite !Qcsum_zero; ring).
  destruct (decide (r' = r)) as [_ | _];
    [| rewrite !Qcsum_zero; ring].
  rewrite int_u_dvdx_eval_at, int_u_dvdy_eval_at.
  unfold bilinear_form_unsym_0_2, bilinear_form_unsym_1_2.
  f_equal; apply Qcsum_ext; intros sh; ring.
Qed.

(** The residual of a continuity row of the assembled system is the
    discrete divergence of the decoded velocity. *)
Lemma assemble_residual (xp yp : Solution) :
  residual_upto (total_dofs (spaces_at p mesh t)) X r
    (assemble (main_weak_form p) (spaces_at p mesh t) sys_pss xp yp)
  = weak_divergence (elements mesh) (press_at p mesh t)
      (set_fe_solution (xvel_at p mesh t) H1ShapesetBeuchler X)
      (set_fe_solution (yvel_at p mesh t) H1ShapesetBeuchler X) r.
Proof.
  unfold assemble. rewrite spaces_at_elements.
  rewrite (fold_left_sum
             (residual_upto (total_dofs (spaces_at p mesh t)) X r)
             (assemble_element (main_weak_form p) (spaces_at p mesh t)
                sys_pss xp yp)
             (fun ke : nat * Element =>
                Qcsum (map (fun q : nat * list Sample =>
                   match dof_of (press_at p mesh t) (fst q) with
                   | Some (Free r') =>
                       if decide (r' = r) then
                         int_u_dvdx (snd q)
                           (map (eval_at (xvel_at p mesh t) X
                                   (el_shapes (snd ke) H1ShapesetBeuchler
                                      (P_INIT_VEL p)))
                                (seq 0 (length (el_refmap (snd ke)))))
                           (el_refmap (snd ke)) (el_refmap (snd ke))
                         + int_u_dvdy (snd q)
                             (map (eval_at (yvel_at p mesh t) X
                                     (el_shapes (snd ke) H1ShapesetBeuchler
                                        (P_INIT_VEL p)))
                                  (seq 0 (length (el_refmap (snd ke)))))
                             (el_refmap (snd ke)) (el_refmap (snd ke))
                       else 0
                   | _ => 0
                   end)
                  (el_shapes (snd ke) L2Shapeset (P_INIT_PRESSURE p)))))
    by (intros s [k e] _; apply element_residual).
  rewrite residual_zero_system, Qcplus_0_l.
  unfold weak_divergence. apply Qcsum_ext_in. intros [k e] Hin.
  cbn [fst snd].
  assert (Eo : sp_order (press_at p mesh t) = P_INIT_PRESSURE p).
  { unfold press_at.
    destruct (assign_dofs_config t (press_setup p mesh)
                (sp_ndofs (xvel_at p mesh t) + sp_ndofs (yvel_at p mesh t)))
      as (_ & _ & -> & _).
    reflexivity. }
  assert (Ex : sp_mesh (xvel_at p mesh t) = mesh
               /\ sp_order (xvel_at p mesh t) = P_INIT_VEL p).
  { unfold xvel_at.
    destruct (assign_dofs_config t (xvel_setup p mesh) 0)
      as (-> & _ & -> & _).
    split; reflexivity. }
  assert (Ey : sp_mesh (yvel_at p mesh t) = mesh
               /\ sp_order (yvel_at p mesh t) = P_INIT_VEL p).
  { unfold yvel_at.
    destruct (assign_dofs_config t (yvel_setup p mesh)
                (sp_ndofs (xvel_at p mesh t))) as (-> & _ & -> & _).
    split; reflexivity. }
  rewrite Eo.
  rewrite (activate_set_fe_solution (xvel_at p mesh t) _ X k e)
    by (rewrite (proj1 Ex); exact Hin).
  rewrite (activate_set_fe_solution (yvel_at p mesh t) _ X k e)
    by (rewrite (proj1 Ey); exact Hin).
  rewrite (proj2 Ex), (proj2 Ey). reflexivity.
Qed.

End Divergence.

(** X15. The decoded velocity is discretely divergence-free as far as
    the solve is exact.  In every iteration, for every pressure unknown
    [r], the residual of row [r] of the assembled system at the array
    returned by the solve (the row applied to the array, minus the
    right-hand side) equals the divergence of the decoded velocity field
    [(xsln, ysln)] integrated against the pressure basis function of [r];
    so whenever the array solves the continuity rows, the integral of
    [q * div(velocity)] vanishes for every pressure basis function [q],
    the essential boundary values included. *)
Theorem discretely_divergence_free (p : Params)
    (spsolve : LinSystem -> SolveResult) (mesh : Mesh) (k : nat) (r : Z) :
  let w := run p spsolve (S k) (init p mesh) in
  let X := solve_x (spsolve (sys w)) in
  r ∈ free_dofs (sp_dofs (press w)) ->
  row_residual X r (sys w)
  = weak_divergence (elements mesh) (press w) (xprev w) (yprev w) r
  /\ (solves_row X r (sys w) ->
      weak_divergence (elements mesh) (press w) (xprev w) (yprev w) r = 0).
Proof.
  cbv zeta. intros Hr.
  assert (Hx : xprev (run p spsolve (S k) (init p mesh))
               = set_fe_solution (xvel (run p spsolve (S k) (init p mesh)))
                   H1ShapesetBeuchler
                   (solve_x (spsolve (sys (run p spsolve (S k) (init p mesh))))))
    by (rewrite run_S, time_step_spec; reflexivity).
  assert (Hy : yprev (run p spsolve (S k) (init p mesh))
               = set_fe_solution (yvel (run p spsolve (S k) (init p mesh)))
                   H1ShapesetBeuchler
                   (solve_x (spsolve (sys (run p spsolve (S k) (init p mesh))))))
    by (rewrite run_S, time_step_spec; reflexivity).
  destruct (run_sys_at p spsolve mesh k) as (Es & _ & Ex & Ey & Eq).
  cbv zeta in *.
  assert (E : row_residual
                (solve_x (spsolve (sys (run p spsolve (S k) (init p mesh)))))
                r (sys (run p spsolve (S k) (init p mesh)))
              = weak_divergence (elements mesh)
                  (press (run p spsolve (S k) (init p mesh)))
                  (xprev (run p spsolve (S k) (init p mesh)))
                  (yprev (run p spsolve (S k) (init p mesh))) r).
  { rewrite Hx, Hy, Ex, Ey. rewrite Eq in *.
    set (X := solve_x (spsolve (sys (run p spsolve (S k) (init p mesh))))).
    unfold row_residual. rewrite Es, assemble_ls_n.
    apply assemble_residual. exact Hr. }
  split; [exact E |].
  unfold solves_row. rewrite E. auto.
Qed.

Lemma discretely_divergence_free_witness :
  let w := run source_params halves_solver 1 (init source_params toy_mesh) in
  weak_divergence (elements toy_mesh) (press w) (xprev w) (yprev w) 4 = 0.
Proof.
  cbv zeta.
  apply (discretely_divergence_free source_params halves_solver toy_mesh 0 4).
  - apply list_elem_of_In. vm_compute. auto.
  - unfold solves_row. apply Qc_is_canon. vm_compute. reflexivity.
Defined.

(** ** The momentum rows *)

(** *** Quadrature is linear in a decoded trial function *)

Lemma quad_eval_at_l (g : Sample -> Sample -> scalar) (sp : Space) (X : Vec)
    (shapes : list Shape) (ru : RefMap) (fv : RealFunction) :
  (forall q, g zero_sample q = 0) ->
  (forall q a s acc, g (sample_axpy a s acc) q = a * g s q + g acc q) ->
  quad ru (zip_with g (map (eval_at sp X shapes) (seq 0 (length ru))) fv)
  = Qcsum (map (fun sh => coef X (dof_of sp (fst sh))
                          * quad ru (zip_with g (snd sh) fv)) shapes).
Proof.
  intros Hz Ha.
  rewrite (quad_zip_with_flip ru g (fun v u => g u v)) by reflexivity.
  rewrite (quad_eval_at (fun v u => g u v)) by (intros; auto).
  apply Qcsum_ext. intros sh. f_equal.
  apply quad_zip_with_flip. reflexivity.
Qed.

Lemma int_u_v_eval_at (sp : Space) (X : Vec) (shapes : list Shape)
    (ru rv : RefMap) (fv : RealFunction) :
  int_u_v (map (eval_at sp X shapes) (seq 0 (length ru))) fv ru rv
  = Qcsum (map (fun sh => coef X (dof_of sp (fst sh))
                          * int_u_v (snd sh) fv ru rv) shapes).
Proof.
  unfold int_u_v. apply quad_eval_at_l.
  - intros q. cbn. ring.
  - intros q a s acc. cbn. ring.
Qed.

Lemma int_grad_u_grad_v_eval_at (sp : Space) (X : Vec) (shapes : list Shape)
    (ru rv : RefMap) (fv : RealFunction) :
  int_grad_u_grad_v (map (eval_at sp X shapes) (seq 0 (length ru))) fv ru rv
  = Qcsum (map (fun sh => coef X (dof_of sp (fst sh))
                          * int_grad_u_grad_v (snd sh) fv ru rv) shapes).
Proof.
  unfold int_grad_u_grad_v. apply quad_eval_at_l.
  - intros q. cbn. ring.
  - intros q a s acc. cbn. ring.
Qed.

Lemma int_u_dvdx_eval_at_l (sp : Space) (X : Vec) (shapes : list Shape)
    (ru rv : RefMap) (fv : RealFunction) :
  int_u_dvdx (map (eval_at sp X shapes) (seq 0 (length ru))) fv ru rv
  = Qcsum (map (fun sh => coef X (dof_of sp (fst sh))
                          * int_u_dvdx (snd sh) fv ru rv) shapes).
Proof.
  unfold int_u_dvdx. apply quad_eval_at_l.
  - intros q. cbn. ring.
  - intros q a s acc. cbn. ring.
Qed.

Lemma int_u_dvdy_eval_at_l (sp : Space) (X : Vec) (shapes : list Shape)
    (ru rv : RefMap) (fv : RealFunction) :
  int_u_dvdy (map (eval_at sp X shapes) (seq 0 (length ru))) fv ru rv
  = Qcsum (map (fun sh => coef X (dof_of sp (fst sh))
                          * int_u_dvdy (snd sh) fv ru rv) shapes).
Proof.
  unfold int_u_dvdy. apply quad_eval_at_l.
  - intros q. cbn. ring.
  - intros q a s acc. cbn. ring.
Qed.

Lemma zip_with_nested {A B C D E : Type} (g : A -> B -> D) (h : D -> C -> E)
    (W : list A) (U : list B) (V : list C) :
  zip_with h (zip_with g W U) V
  = zip_with (fun (t : A * C) u => h (g (fst t) u) (snd t)) (zip W V) U.
Proof.
  revert U V. induction W as [| w W IH]; intros U V; [reflexivity |].
  destruct U as [| u U], V as [| v V]; try reflexivity.
  cbn [zip_with zip fst snd]. rewrite IH. reflexivity.
Qed.

Lemma int_w_nabla_u_v_eval_at (w1 w2 : RealFunction) (sp : Space) (X : Vec)
    (shapes : list Shape) (ru rv : RefMap) (fv : RealFunction) :
  int_w_nabla_u_v w1 w2 (map (eval_at sp X shapes) (seq 0 (length ru))) fv ru rv
  = Qcsum (map (fun sh => coef X (dof_of sp (fst sh))
                          * int_w_nabla_u_v w1 w2 (snd sh) fv ru rv) shapes).
Proof.
  unfold int_w_nabla_u_v.
  rewrite (zip_with_nested
             (fun (w : Sample * Sample) u => val (fst w) * dx u + val (snd w) * dy u)
             (fun wu v => wu * val v) (zip w1 w2)).
  rewrite (quad_eval_at
             (fun (t : Sample * Sample * Sample) u =>
                (val (fst (fst t)) * dx u + val (snd (fst t)) * dy u)
                * val (snd t))).
  - apply Qcsum_ext. intros sh.
    rewrite (zip_with_nested
               (fun (w : Sample * Sample) u =>
                  val (fst w) * dx u + val (snd w) * dy u)
               (fun wu v => wu * val v) (zip w1 w2) (snd sh) fv).
    reflexivity.
  - intros q. cbn. ring.
  - intros q a s acc. cbn. ring.
Qed.

(** *** What an assembly step adds to the residual of any row *)

Lemma at_row_not_free (sp : Space) (c : nat) (i : Z) :
  ~ i ∈ free_dofs (sp_dofs sp) -> at_row i (dof_of sp c) = 0.
Proof.
  intros Hi. unfold at_row.
  destruct (dof_of sp c) as [[i' | g] |] eqn:Ed; try reflexivity.
  destruct (decide (i' = i)) as [-> | _]; [| reflexivity].
  exfalso. apply Hi. eapply dof_of_free. exact Ed.
Qed.

Section RowResidual.

Variable n : Z.
Variable X : Vec.
Variable r : Z.

Lemma scatter_residual (row col : option DofRef) (v : scalar)
    (s : LinSystem) :
  (forall c, col = Some (Free c) -> (0 <= c < n)%Z) ->
  residual_upto n X r (scatter row col v s)
  = residual_upto n X r s + at_row r row * (v * coef X col).
Proof.
  intros Hc. unfold at_row.
  destruct row as [[i' | g] |].
  - destruct (decide (i' = r)) as [-> | Hne].
    + rewrite scatter_residual_row by exact Hc. ring.
    + rewrite scatter_residual_other by congruence. ring.
  - rewrite scatter_residual_other by congruence. ring.
  - rewrite scatter_residual_other by congruence. ring.
Qed.

Lemma add_pair_residual env t e spm spn s test trial mirror :
  (forall c, c ∈ free_dofs (sp_dofs spm) -> (0 <= c < n)%Z) ->
  (forall c, c ∈ free_dofs (sp_dofs spn) -> (0 <= c < n)%Z) ->
  residual_upto n X r (add_pair env t e spm spn s (test, trial, mirror))
  = residual_upto n X r s
    + at_row r (dof_of spm (fst test))
      * (bf_fn t env (snd trial) (snd test) (el_refmap e) (el_refmap e)
         * coef X (dof_of spn (fst trial)))
    + match mirror with
      | NoMirror => 0
      | MirrorSame =>
          at_row r (dof_of spn (fst trial))
          * (bf_fn t env (snd trial) (snd test) (el_refmap e) (el_refmap e)
             * coef X (dof_of spm (fst test)))
      | MirrorNegated =>
          at_row r (dof_of spn (fst trial))
          * (- bf_fn t env (snd trial) (snd test) (el_refmap e) (el_refmap e)
             * coef X (dof_of spm (fst test)))
      end.
Proof.
  intros Hm Hn. unfold add_pair.
  assert (Cm : forall c, dof_of spm (fst test) = Some (Free c) ->
                 (0 <= c < n)%Z)
    by (intros c Hc; apply Hm; eapply dof_of_free; exact Hc).
  assert (Cn : forall c, dof_of spn (fst trial) = Some (Free c) ->
                 (0 <= c < n)%Z)
    by (intros c Hc; apply Hn; eapply dof_of_free; exact Hc).
  destruct mirror; rewrite !scatter_residual by assumption; ring.
Qed.

(** A term without tag: every local value goes to its row. *)
Lemma assemble_biform_residual_unsym spaces pss env e s t spm spn :
  bf_sym t = UNSYM ->
  spaces !! bf_i t = Some spm -> spaces !! bf_j t = Some spn ->
  (forall c, c ∈ free_dofs (sp_dofs spm) -> (0 <= c < n)%Z) ->
  (forall c, c ∈ free_dofs (sp_dofs spn) -> (0 <= c < n)%Z) ->
  residual_upto n X r (assemble_biform spaces pss env e s t)
  = residual_upto n X r s
    + Qcsum (map (fun test =>
         Qcsum (map (fun trial =>
            at_row r (dof_of spm (fst test))
            * (bf_fn t env (snd trial) (snd test) (el_refmap e) (el_refmap e)
               * coef X (dof_of spn (fst trial))))
           (shapes_on spaces pss (bf_j t) e)))
        (shapes_on spaces pss (bf_i t) e)).
Proof.
  intros Hs Em En Hm Hn. unfold assemble_biform, term_pairs.
  rewrite Em, En, Hs.
  rewrite <- (Qcsum_all_pairs
                (fun pr : nat * list Sample * (nat * list Sample) * Mirror =>
                   at_row r (dof_of spm (fst (fst (fst pr))))
                   * (bf_fn t env (snd (snd (fst pr))) (snd (fst (fst pr)))
                        (el_refmap e) (el_refmap e)
                      * coef X (dof_of spn (fst (snd (fst pr))))))
                NoMirror).
  apply (fold_left_sum (residual_upto n X r)).
  intros a [[test trial] mirror] Hin.
  apply all_pairs_mirror in Hin. cbn [snd] in Hin. subst mirror.
  cbn [fst snd]. rewrite add_pair_residual by assumption. ring.
Qed.

(** An antisymmetric coupling, seen from a row of its row field. *)
Lemma assemble_biform_residual_antisym spaces pss env e s t spm spn :
  bf_sym t = ANTISYM ->
  spaces !! bf_i t = Some spm -> spaces !! bf_j t = Some spn ->
  ~ r ∈ free_dofs (sp_dofs spn) ->
  (forall c, c ∈ free_dofs (sp_dofs spm) -> (0 <= c < n)%Z) ->
  (forall c, c ∈ free_dofs (sp_dofs spn) -> (0 <= c < n)%Z) ->
  residual_upto n X r (assemble_biform spaces pss env e s t)
  = residual_upto n X r s
    + Qcsum (map (fun test =>
         Qcsum (map (fun trial =>
            at_row r (dof_of spm (fst test))
            * (bf_fn t env (snd trial) (snd test) (el_refmap e) (el_refmap e)
               * coef X (dof_of spn (fst trial))))
           (shapes_on spaces pss (bf_j t) e)))
        (shapes_on spaces pss (bf_i t) e)).
Proof.
  intros Hs Em En Hr Hm Hn. unfold assemble_biform, term_pairs.
  rewrite Em, En, Hs.
  rewrite <- (Qcsum_all_pairs
                (fun pr : nat * list Sample * (nat * list Sample) * Mirror =>
                   at_row r (dof_of spm (fst (fst (fst pr))))
                   * (bf_fn t env (snd (snd (fst pr))) (snd (fst (fst pr)))
                        (el_refmap e) (el_refmap e)
                      * coef X (dof_of spn (fst (snd (fst pr))))))
                MirrorNegated).
  apply (fold_left_sum (residual_upto n X r)).
  intros a [[test trial] mirror] Hin.
  apply all_pairs_mirror in Hin. cbn [snd] in Hin. subst mirror.
  cbn [fst snd]. rewrite add_pair_residual by assumption.
  rewrite (at_row_not_free spn _ r Hr). ring.
Qed.

(** A symmetric term on a diagonal block with a symmetric kernel. *)
Lemma assemble_biform_residual_sym spaces pss env e s t sp :
  bf_sym t = SYM -> bf_i t = bf_j t ->
  spaces !! bf_i t = Some sp ->
  (forall c, c ∈ free_dofs (sp_dofs sp) -> (0 <= c < n)%Z) ->
  (forall fu fv,
      bf_fn t env fu fv (el_refmap e) (el_refmap e)
      = bf_fn t env fv fu (el_refmap e) (el_refmap e)) ->
  residual_upto n X r (assemble_biform spaces pss env e s t)
  = residual_upto n X r s
    + Qcsum (map (fun test =>
         Qcsum (map (fun trial =>
            at_row r (dof_of sp (fst test))
            * (bf_fn t env (snd trial) (snd test) (el_refmap e) (el_refmap e)
               * coef X (dof_of sp (fst trial))))
           (shapes_on spaces pss (bf_i t) e)))
        (shapes_on spaces pss (bf_i t) e)).
Proof.
  intros Hs Hij Em Hm Hk. unfold assemble_biform, term_pairs.
  rewrite <- Hij, Em, Hs.
  destruct (decide (bf_i t = bf_i t)) as [_ | N]; [| contradiction].
  set (L := shapes_on spaces pss (bf_i t) e).
  set (c := fun pr : nat * list Sample * (nat * list Sample) * Mirror =>
              at_row r (dof_of sp (fst (fst (fst pr))))
              * (bf_fn t env (snd (snd (fst pr))) (snd (fst (fst pr)))
                   (el_refmap e) (el_refmap e)
                 * coef X (dof_of sp (fst (snd (fst pr)))))
              + match snd pr with
                | NoMirror => 0
                | MirrorSame =>
                    at_row r (dof_of sp (fst (snd (fst pr))))
                    * (bf_fn t env (snd (snd (fst pr))) (snd (fst (fst pr)))
                         (el_refmap e) (el_refmap e)
                       * coef X (dof_of sp (fst (fst (fst pr)))))
                | MirrorNegated => 0
                end).
  rewrite (fold_left_sum (residual_upto n X r) _ c).
  - f_equal. rewrite (triangle_sum c).
    + rewrite Qcsum_all_pairs. apply Qcsum_ext. intros test.
      apply Qcsum_ext. intros trial. unfold c. cbn [fst snd]. ring.
    + intros y x. unfold c. cbn [fst snd]. rewrite (Hk (snd x) (snd y)). ring.
  - intros a [[test trial] mirror] Hin.
    apply triangle_pairs in Hin.
    rewrite add_pair_residual by assumption. unfold c. cbn [fst snd].
    destruct Hin as [(x & Hx) | Hx].
    + injection Hx as -> -> ->. ring.
    + cbn [snd] in Hx. subst mirror. ring.
Qed.

(** A load term: it lowers the residual by the load of the row. *)
Lemma assemble_liform_residual_row spaces pss env e s t spm :
  spaces !! lf_i t = Some spm ->
  residual_upto n X r (assemble_liform spaces pss env e s t)
  = residual_upto n X r s
    + Qcsum (map (fun test =>
         at_row r (dof_of spm (fst test))
         * - lf_fn t env (snd test) (el_refmap e))
        (shapes_on spaces pss (lf_i t) e)).
Proof.
  intros Em. unfold assemble_liform. rewrite Em.
  apply (fold_left_sum (residual_upto n X r)).
  intros a test _. unfold add_load, at_row.
  destruct (dof_of spm (fst test)) as [[i' | g] |]; try ring.
  unfold residual_upto. cbn [ls_A ls_rhs]. unfold vec_add.
  destruct (decide (i' = r)) as [-> | Hne].
  - case_decide as E; [ring | contradiction].
  - case_decide as E; [congruence | ring].
Qed.

End RowResidual.

Lemma Qcsum_scale {B : Type} (a : scalar) (f : B -> scalar) (l : list B) :
  Qcsum (map (fun x => a * f x) l) = a * Qcsum (map f l).
Proof.
  induction l as [| x l IH]; cbn [map Qcsum]; [ring | rewrite IH; ring].
Qed.

Section Momentum.

Variable p : Params.
Variable mesh : Mesh.
Variable t : double.
Variable X : Vec.

Lemma spaces_at_config :
  sp_mesh (xvel_at p mesh t) = mesh
  /\ sp_order (xvel_at p mesh t) = P_INIT_VEL p
  /\ sp_mesh (yvel_at p mesh t) = mesh
  /\ sp_order (yvel_at p mesh t) = P_INIT_VEL p
  /\ sp_mesh (press_at p mesh t) = mesh
  /\ sp_order (press_at p mesh t) = P_INIT_PRESSURE p.
Proof.
  unfold press_at, yvel_at, xvel_at.
  destruct (assign_dofs_config t (xvel_setup p mesh) 0) as (-> & _ & -> & _).
  destruct (assign_dofs_config t (yvel_setup p mesh)
              (sp_ndofs (fst (assign_dofs t (xvel_setup p mesh) 0))))
    as (-> & _ & -> & _).
  destruct (assign_dofs_config t (press_setup p mesh)
              (sp_ndofs (fst (assign_dofs t (xvel_setup p mesh) 0))
               + sp_ndofs (fst (assign_dofs t (yvel_setup p mesh)
                    (sp_ndofs (fst (assign_dofs t (xvel_setup p mesh) 0)))))))
    as (-> & _ & -> & _).
  repeat split; reflexivity.
Qed.

Lemma spaces_at_in_range (c : Z) :
  c ∈ free_dofs (sp_dofs (xvel_at p mesh t))
  \/ c ∈ free_dofs (sp_dofs (yvel_at p mesh t))
  \/ c ∈ free_dofs (sp_dofs (press_at p mesh t)) ->
  (0 <= c < total_dofs (spaces_at p mesh t))%Z.
Proof.
  pose proof (vel_unknowns_nonneg p mesh) as Hnv.
  rewrite spaces_at_total. spaces_ranges. lia.
Qed.

(** The sum over the trial functions of a local value times the
    coefficient, for each of the kernels of [main], is the kernel at the
    decoded field. *)
Lemma viscous_sum (sp : Space) (shapes : list Shape) (e : Element)
    (env : KernelEnv) (fv : RealFunction) :
  Qcsum (map (fun trial : nat * list Sample =>
           bilinear_form_sym_0_0_1_1 p env (snd trial) fv
             (el_refmap e) (el_refmap e)
           * coef X (dof_of sp (fst trial))) shapes)
  = int_grad_u_grad_v
      (map (eval_at sp X shapes) (seq 0 (length (el_refmap e)))) fv
      (el_refmap e) (el_refmap e) / ideal (RE p)
    + int_u_v (map (eval_at sp X shapes) (seq 0 (length (el_refmap e)))) fv
        (el_refmap e) (el_refmap e) / ideal (TAU p).
Proof.
  rewrite int_grad_u_grad_v_eval_at, int_u_v_eval_at.
  unfold Qcdiv.
  rewrite (Qcmult_comm (Qcsum _) (/ ideal (RE p))), (Qcmult_comm (Qcsum _) (/ ideal (TAU p))).
  rewrite <- !Qcsum_scale, <- Qcsum_add.
  apply Qcsum_ext. intros sh. unfold bilinear_form_sym_0_0_1_1, Qcdiv. ring.
Qed.

Lemma convective_sum (sp : Space) (shapes : list Shape) (e : Element)
    (env : KernelEnv) (fv : RealFunction) :
  Qcsum (map (fun trial : nat * list Sample =>
           bilinear_form_unsym_0_0_1_1 env (snd trial) fv
             (el_refmap e) (el_refmap e)
           * coef X (dof_of sp (fst trial))) shapes)
  = int_w_nabla_u_v (env_xprev env) (env_yprev env)
      (map (eval_at sp X shapes) (seq 0 (length (el_refmap e)))) fv
      (el_refmap e) (el_refmap e).
Proof.
  rewrite int_w_nabla_u_v_eval_at.
  apply Qcsum_ext. intros sh. unfold bilinear_form_unsym_0_0_1_1. ring.
Qed.

Lemma pressure_sum_x (sp : Space) (shapes : list Shape) (e : Element)
    (env : KernelEnv) (fv : RealFunction) :
  Qcsum (map (fun trial : nat * list Sample =>
           bilinear_form_unsym_0_2 env (snd trial) fv
             (el_refmap e) (el_refmap e)
           * coef X (dof_of sp (fst trial))) shapes)
  = - int_u_dvdx
        (map (eval_at sp X shapes) (seq 0 (length (el_refmap e)))) fv
        (el_refmap e) (el_refmap e).
Proof.
  rewrite int_u_dvdx_eval_at_l.
  replace (- Qcsum (map (fun sh : nat * list Sample =>
               coef X (dof_of sp (fst sh))
               * int_u_dvdx (snd sh) fv (el_refmap e) (el_refmap e)) shapes))
    with (- (1) * Qcsum (map (fun sh : nat * list Sample =>
               coef X (dof_of sp (fst sh))
               * int_u_dvdx (snd sh) fv (el_refmap e) (el_refmap e)) shapes))
    by ring.
  rewrite <- Qcsum_scale.
  apply Qcsum_ext. intros sh. unfold bilinear_form_unsym_0_2. ring.
Qed.

Lemma pressure_sum_y (sp : Space) (shapes : list Shape) (e : Element)
    (env : KernelEnv) (fv : RealFunction) :
  Qcsum (map (fun trial : nat * list Sample =>
           bilinear_form_unsym_1_2 env (snd trial) fv
             (el_refmap e) (el_refmap e)
           * coef X (dof_of sp (fst trial))) shapes)
  = - int_u_dvdy
        (map (eval_at sp X shapes) (seq 0 (length (el_refmap e)))) fv
        (el_refmap e) (el_refmap e).
Proof.
  rewrite int_u_dvdy_eval_at_l.
  replace (- Qcsum (map (fun sh : nat * list Sample =>
               coef X (dof_of sp (fst sh))
               * int_u_dvdy (snd sh) fv (el_refmap e) (el_refmap e)) shapes))
    with (- (1) * Qcsum (map (fun sh : nat * list Sample =>
               coef X (dof_of sp (fst sh))
               * int_u_dvdy (snd sh) fv (el_refmap e) (el_refmap e)) shapes))
    by ring.
  rewrite <- Qcsum_scale.
  apply Qcsum_ext. intros sh. unfold bilinear_form_unsym_1_2. ring.
Qed.

End Momentum.

Section MomentumRows.

Variable p : Params.
Variable mesh : Mesh.
Variable t : double.
Variable X : Vec.

(** What one element adds to the residual of a row of the x-momentum
    equation. *)
Lemma element_residual_x (r : Z) (xp yp : Solution) (s : LinSystem)
    (k : nat) (e : Element) :
  r ∈ free_dofs (sp_dofs (xvel_at p mesh t)) ->
  (k, e) ∈ zip (seq 0 (length (elements mesh))) (elements mesh) ->
  residual_upto (total_dofs (spaces_at p mesh t)) X r
    (assemble_element (main_weak_form p) (spaces_at p mesh t) sys_pss
       xp yp s (k, e))
  = residual_upto (total_dofs (spaces_at p mesh t)) X r s
    + momentum_element p int_u_dvdx (xvel_at p mesh t)
        (set_fe_solution (xvel_at p mesh t) H1ShapesetBeuchler X)
        (set_fe_solution (press_at p mesh t) L2Shapeset X)
        xp xp yp r (k, e).
Proof.
  intros Hr Hin.
  pose proof (vel_unknowns_nonneg p mesh) as Hnv.
  destruct (spaces_at_config p mesh t) as (Mx & Ox & My & Oy & Mq & Oq).
  assert (Hy : ~ r ∈ free_dofs (sp_dofs (yvel_at p mesh t)))
    by (spaces_ranges; lia).
  assert (Hq : ~ r ∈ free_dofs (sp_dofs (press_at p mesh t)))
    by (spaces_ranges; lia).
  assert (Rx : forall c, c ∈ free_dofs (sp_dofs (xvel_at p mesh t)) ->
                 (0 <= c < total_dofs (spaces_at p mesh t))%Z)
    by (intros c Hc; apply spaces_at_in_range; auto).
  assert (Rq : forall c, c ∈ free_dofs (sp_dofs (press_at p mesh t)) ->
                 (0 <= c < total_dofs (spaces_at p mesh t))%Z)
    by (intros c Hc; apply spaces_at_in_range; auto).
  set (N := total_dofs (spaces_at p mesh t)) in *.
  unfold assemble_element. rewrite main_weak_form_terms.
  change (wf_liforms (main_weak_form p))
    with [ {| lf_i := 0; lf_fn := linear_form_0 p; lf_ext := [Xprev] |};
           {| lf_i := 1; lf_fn := linear_form_1 p; lf_ext := [Yprev] |} ].
  set (env := {| env_xprev := activate xp k e; env_yprev := activate yp k e |}).
  cbn [fold_left].
  rewrite (assemble_liform_residual N X r (spaces_at p mesh t) _ _ _ _ _
             (yvel_at p mesh t)) by (first [reflexivity | exact Hy]).
  rewrite (assemble_liform_residual_row N X r (spaces_at p mesh t) _ _ _ _
             {| lf_i := 0; lf_fn := linear_form_0 p; lf_ext := [Xprev] |}
             (xvel_at p mesh t) eq_refl).
  rewrite (assemble_biform_residual_other N X r (spaces_at p mesh t) _ _ _ _
             pressure_term_y (yvel_at p mesh t) (press_at p mesh t)
             eq_refl eq_refl Hy Hq).
  rewrite (assemble_biform_residual_antisym N X r (spaces_at p mesh t) _ _ _ _
             pressure_term_x (xvel_at p mesh t) (press_at p mesh t)
             eq_refl eq_refl eq_refl Hq Rx Rq).
  rewrite (assemble_biform_residual_other N X r (spaces_at p mesh t) _ _ _ _
             (convective_term 1) (yvel_at p mesh t) (yvel_at p mesh t)
             eq_refl eq_refl Hy Hy).
  rewrite (assemble_biform_residual_other N X r (spaces_at p mesh t) _ _ _ _
             (viscous_term p 1) (yvel_at p mesh t) (yvel_at p mesh t)
             eq_refl eq_refl Hy Hy).
  rewrite (assemble_biform_residual_unsym N X r (spaces_at p mesh t) _ _ _ _
             (convective_term 0) (xvel_at p mesh t) (xvel_at p mesh t)
             eq_refl eq_refl eq_refl Rx Rx).
  rewrite (assemble_biform_residual_sym N X r (spaces_at p mesh t) _ _ _ _
             (viscous_term p 0) (xvel_at p mesh t)
             eq_refl eq_refl eq_refl Rx)
    by (intros; apply viscous_kernel_symmetric).
  rewrite <- !Qcplus_assoc. f_equal.
  unfold momentum_element.
  cbn [fst snd viscous_term convective_term pressure_term_x bf_i bf_j bf_fn
       lf_i lf_fn].
  rewrite !spaces_at_shapes, Ox.
  rewrite <- !Qcsum_add. apply Qcsum_ext. intros phi.
  rewrite !Qcsum_scale.
  rewrite viscous_sum, convective_sum, pressure_sum_x.
  rewrite (activate_set_fe_solution (xvel_at p mesh t) _ X k e)
    by (rewrite Mx; exact Hin).
  rewrite (activate_set_fe_solution (press_at p mesh t) _ X k e)
    by (rewrite Mq; exact Hin).
  rewrite Ox, Oq.
  unfold linear_form_0, env. cbn [env_xprev env_yprev].
  unfold Qcdiv, Qcminus. ring.
Qed.

(** What one element adds to the residual of a row of the y-momentum
    equation. *)
Lemma element_residual_y (r : Z) (xp yp : Solution) (s : LinSystem)
    (k : nat) (e : Element) :
  r ∈ free_dofs (sp_dofs (yvel_at p mesh t)) ->
  (k, e) ∈ zip (seq 0 (length (elements mesh))) (elements mesh) ->
  residual_upto (total_dofs (spaces_at p mesh t)) X r
    (assemble_element (main_weak_form p) (spaces_at p mesh t) sys_pss
       xp yp s (k, e))
  = residual_upto (total_dofs (spaces_at p mesh t)) X r s
    + momentum_element p int_u_dvdy (yvel_at p mesh t)
        (set_fe_solution (yvel_at p mesh t) H1ShapesetBeuchler X)
        (set_fe_solution (press_at p mesh t) L2Shapeset X)
        yp xp yp r (k, e).
Proof.
  intros Hr Hin.
  pose proof (vel_unknowns_nonneg p mesh) as Hnv.
  destruct (spaces_at_config p mesh t) as (Mx & Ox & My & Oy & Mq & Oq).
  assert (Hx : ~ r ∈ free_dofs (sp_dofs (xvel_at p mesh t)))
    by (spaces_ranges; lia).
  assert (Hq : ~ r ∈ free_dofs (sp_dofs (press_at p mesh t)))
    by (spaces_ranges; lia).
  assert (Ry : forall c, c ∈ free_dofs (sp_dofs (yvel_at p mesh t)) ->
                 (0 <= c < total_dofs (spaces_at p mesh t))%Z)
    by (intros c Hc; apply spaces_at_in_range; auto).
  assert (Rq : forall c, c ∈ free_dofs (sp_dofs (press_at p mesh t)) ->
                 (0 <= c < total_dofs (spaces_at p mesh t))%Z)
    by (intros c Hc; apply spaces_at_in_range; auto).
  set (N := total_dofs (spaces_at p mesh t)) in *.
  unfold assemble_element. rewrite main_weak_form_terms.
  change (wf_liforms (main_weak_form p))
    with [ {| lf_i := 0; lf_fn := linear_form_0 p; lf_ext := [Xprev] |};
           {| lf_i := 1; lf_fn := linear_form_1 p; lf_ext := [Yprev] |} ].
  set (env := {| env_xprev := activate xp k e; env_yprev := activate yp k e |}).
  cbn [fold_left].
  rewrite (assemble_liform_residual_row N X r (spaces_at p mesh t) _ _ _ _
             {| lf_i := 1; lf_fn := linear_form_1 p; lf_ext := [Yprev] |}
             (yvel_at p mesh t) eq_refl).
  rewrite (assemble_liform_residual N X r (spaces_at p mesh t) _ _ _ _ _
             (xvel_at p mesh t)) by (first [reflexivity | exact Hx]).
  rewrite (assemble_biform_residual_antisym N X r (spaces_at p mesh t) _ _ _ _
             pressure_term_y (yvel_at p mesh t) (press_at p mesh t)
             eq_refl eq_refl eq_refl Hq Ry Rq).
  rewrite (assemble_biform_residual_other N X r (spaces_at p mesh t) _ _ _ _
             pressure_term_x (xvel_at p mesh t) (press_at p mesh t)
             eq_refl eq_refl Hx Hq).
  rewrite (assemble_biform_residual_unsym N X r (spaces_at p mesh t) _ _ _ _
             (convective_term 1) (yvel_at p mesh t) (yvel_at p mesh t)
             eq_refl eq_refl eq_refl Ry Ry).
  rewrite (assemble_biform_residual_sym N X r (spaces_at p mesh t) _ _ _ _
             (viscous_term p 1) (yvel_at p mesh t)
             eq_refl eq_refl eq_refl Ry)
    by (intros; apply viscous_kernel_symmetric).
  rewrite (assemble_biform_residual_other N X r (spaces_at p mesh t) _ _ _ _
             (convective_term 0) (xvel_at p mesh t) (xvel_at p mesh t)
             eq_refl eq_refl Hx Hx).
  rewrite (assemble_biform_residual_other N X r (spaces_at p mesh t) _ _ _ _
             (viscous_term p 0) (xvel_at p mesh t) (xvel_at p mesh t)
             eq_refl eq_refl Hx Hx).
  rewrite <- !Qcplus_assoc. f_equal.
  unfold momentum_element.
  cbn [fst snd viscous_term convective_term pressure_term_y bf_i bf_j bf_fn
       lf_i lf_fn].
  rewrite !spaces_at_shapes, Oy.
  rewrite <- !Qcsum_add. apply Qcsum_ext. intros phi.
  rewrite !Qcsum_scale.
  rewrite viscous_sum, convective_sum, pressure_sum_y.
  rewrite (activate_set_fe_solution (yvel_at p mesh t) _ X k e)
    by (rewrite My; exact Hin).
  rewrite (activate_set_fe_solution (press_at p mesh t) _ X k e)
    by (rewrite Mq; exact Hin).
  rewrite Oy, Oq.
  unfold linear_form_1, env. cbn [env_xprev env_yprev].
  unfold Qcdiv, Qcminus. ring.
Qed.

(** The residual of a momentum row of the assembled system is the weak
    form of the implicit Euler step at the decoded fields. *)
Lemma assemble_residual_x (r : Z) (xp yp : Solution) :
  r ∈ free_dofs (sp_dofs (xvel_at p mesh t)) ->
  residual_upto (total_dofs (spaces_at p mesh t)) X r
    (assemble (main_weak_form p) (spaces_at p mesh t) sys_pss xp yp)
  = momentum_form p int_u_dvdx (elements mesh) (xvel_at p mesh t)
      (set_fe_solution (xvel_at p mesh t) H1ShapesetBeuchler X)
      (set_fe_solution (press_at p mesh t) L2Shapeset X)
      xp xp yp r.
Proof.
  intros Hr. unfold assemble, momentum_form. rewrite spaces_at_elements.
  rewrite (fold_left_sum
             (residual_upto (total_dofs (spaces_at p mesh t)) X r) _
             (momentum_element p int_u_dvdx (xvel_at p mesh t)
                (set_fe_solution (xvel_at p mesh t) H1ShapesetBeuchler X)
                (set_fe_solution (press_at p mesh t) L2Shapeset X)
                xp xp yp r))
    by (intros s [k e] Hin; apply element_residual_x; assumption).
  rewrite residual_zero_system. ring.
Qed.

Lemma assemble_residual_y (r : Z) (xp yp : Solution) :
  r ∈ free_dofs (sp_dofs (yvel_at p mesh t)) ->
  residual_upto (total_dofs (spaces_at p mesh t)) X r
    (assemble (main_weak_form p) (spaces_at p mesh t) sys_pss xp yp)
  = momentum_form p int_u_dvdy (elements mesh) (yvel_at p mesh t)
      (set_fe_solution (yvel_at p mesh t) H1ShapesetBeuchler X)
      (set_fe_solution (press_at p mesh t) L2Shapeset X)
      yp xp yp r.
Proof.
  intros Hr. unfold assemble, momentum_form. rewrite spaces_at_elements.
  rewrite (fold_left_sum
             (residual_upto (total_dofs (spaces_at p mesh t)) X r) _
             (momentum_element p int_u_dvdy (yvel_at p mesh t)
                (set_fe_solution (yvel_at p mesh t) H1ShapesetBeuchler X)
                (set_fe_solution (press_at p mesh t) L2Shapeset X)
                yp xp yp r))
    by (intros s [k e] Hin; apply element_residual_y; assumption).
  rewrite residual_zero_system. ring.
Qed.

End MomentumRows.



(** ** The anchor inside the assembled system *)

Lemma last_of_snoc_cons {A : Type} (l l' : list A) (x z : A) :
  l ++ [x] = z :: l' -> x = List.last l' z.
Proof.
  intros E. apply (f_equal (fun l0 => List.last l0 z)) in E.
  rewrite last_last in E. rewrite E. destruct l'; reflexivity.
Qed.

Section AnchorInSystem.

Variable p : Params.
Variable spsolve : LinSystem -> SolveResult.
Variable mesh : Mesh.

(** The system left by iteration [k + 1] is the assembly over the
    spaces of that iteration, with the previous-step fields as they
    were when the iteration began. *)
Lemma run_sys_anchor (k : nat) :
  sys (run p spsolve (S k) (init p mesh))
  = assemble (main_weak_form p)
      (sys_spaces (run p spsolve (S k) (init p mesh))) sys_pss
      (xprev (run p spsolve k (init p mesh)))
      (yprev (run p spsolve k (init p mesh))).
Proof.
  destruct (run_sys_at p spsolve mesh k) as (Es & Esp & _).
  cbv zeta in *. rewrite Esp. exact Es.
Qed.

(** Apart from the convective contribution, the matrix assembled over
    the spaces of an iteration does not depend on the fields the
    kernels are given. *)
Lemma matrix_static_part (k : nat) (xp yp xp' yp' : Solution) (i j : Z) :
  let spaces := sys_spaces (run p spsolve (S k) (init p mesh)) in
  ls_A (assemble (main_weak_form p) spaces sys_pss xp yp) i j
  - convection_matrix spaces xp yp i j
  = ls_A (assemble (main_weak_form p) spaces sys_pss xp' yp') i j
    - convection_matrix spaces xp' yp' i j.
Proof.
  cbv zeta.
  destruct (run_sys_at p spsolve mesh k) as (_ & Esp & _).
  cbv zeta in *. rewrite Esp.
  set (t := TIME (run p spsolve (S k) (init p mesh))).
  rewrite !main_matrix_terms.
  rewrite (static_term_fixed p mesh t t xp yp xp' yp' (viscous_term p 0))
    by (cbn; first [lia | reflexivity]).
  rewrite (static_term_fixed p mesh t t xp yp xp' yp' (viscous_term p 1))
    by (cbn; first [lia | reflexivity]).
  rewrite (static_term_fixed p mesh t t xp yp xp' yp' pressure_term_x)
    by (cbn; first [lia | reflexivity]).
  rewrite (static_term_fixed p mesh t t xp yp xp' yp' pressure_term_y)
    by (cbn; first [lia | reflexivity]).
  ring.
Qed.

(** Between velocity unknowns the matrix of an iteration is symmetric
    up to the convective contribution. *)
Lemma velocity_block_symmetric_part (k : nat) (i j : Z) :
  let w := run p spsolve k (init p mesh) in
  let w' := run p spsolve (S k) (init p mesh) in
  ~ i ∈ free_dofs (sp_dofs (press w')) ->
  ~ j ∈ free_dofs (sp_dofs (press w')) ->
  ls_A (sys w') i j
  - convection_matrix (sys_spaces w') (xprev w) (yprev w) i j
  = ls_A (sys w') j i
    - convection_matrix (sys_spaces w') (xprev w) (yprev w) j i.
Proof.
  cbv zeta.
  destruct (run_sys_at p spsolve mesh k) as (Es & Esp & _ & _ & Eq).
  cbv zeta in *. rewrite Esp, Es, Eq.
  set (t := TIME (run p spsolve (S k) (init p mesh))) in *.
  set (xp := xprev (run p spsolve k (init p mesh))).
  set (yp := yprev (run p spsolve k (init p mesh))).
  intros Hi Hj. spaces_ranges.
  rewrite !main_matrix_terms.
  repeat term_zero.
  rewrite (biform_matrix_symmetric _ _ _ _ (viscous_term p 0) eq_refl i j).
  rewrite (biform_matrix_symmetric _ _ _ _ (viscous_term p 1) eq_refl i j).
  ring.
Qed.

(** With zero previous-step fields the convective terms contribute
    nothing. *)
Lemma convection_matrix_at_rest (spaces : list Space) (i j : Z) :
  convection_matrix spaces (set_zero mesh) (set_zero mesh) i j = 0.
Proof.
  unfold convection_matrix.
  rewrite !biform_matrix_zero_kernel
    by (intros; apply convective_kernel_zero).
  ring.
Qed.

(** The rows of the pressure unknowns are the negated columns. *)
Lemma run_pressure_blocks (k : nat) (r c : Z) :
  let w := run p spsolve (S k) (init p mesh) in
  c ∈ free_dofs (sp_dofs (press w)) ->
  ls_A (sys w) c r = - ls_A (sys w) r c.
Proof.
  cbv zeta.
  rewrite run_S, time_step_spec. cbn [press sys]. unfold step_system.
  destruct (step_ranges p (run p spsolve k (init p mesh)))
    as ((H0 & H1 & H2) & Hx & Hy & Hq).
  cbv zeta in *. intros Hc.
  apply main_matrix_pressure_blocks; [| | exact Hc].
  - rewrite Hx, Hq. apply seqZ_disjoint. lia.
  - rewrite Hy, Hq. apply seqZ_disjoint. lia.
Qed.

End AnchorInSystem.

(** C4. The system assembled in iteration [n] is the assembly of the
    weak form over the spaces of that iteration with, as the fields its
    kernels read, the previous-step velocities as they are when the
    iteration begins; these are the velocity fields decoded in iteration
    [n-1], and the all-zero fields in the first iteration (the anchors of
    the successive assemblies, followed by the final previous-step
    fields, are the zero field followed by the successive decoded
    fields).  The convective kernel is the integral of [(w . nabla) u v]
    with exactly these two fields as [w]; apart from the convective
    contribution the matrix does not depend on the fields at all.  The
    system of an iteration does not depend on the solve of that
    iteration, whose result is decoded into the anchor of the next
    one. *)
Theorem anchor_is_previous_decode (p : Params)
    (spsolve : LinSystem -> SolveResult) (mesh : Mesh) (k : nat) :
  let w := run p spsolve k (init p mesh) in
  let w' := run p spsolve (S k) (init p mesh) in
  sys w' = assemble (main_weak_form p) (sys_spaces w') sys_pss
             (xprev w) (yprev w)
  /\ xprev w = List.last (decoded Xvel (trace w)) (set_zero mesh)
  /\ yprev w = List.last (decoded Yvel (trace w)) (set_zero mesh)
  /\ (map fst (anchors (trace w)) ++ [xprev w]
      = set_zero mesh :: decoded Xvel (trace w))
  /\ (map snd (anchors (trace w)) ++ [yprev w]
      = set_zero mesh :: decoded Yvel (trace w))
  /\ length (anchors (trace w)) = k
  /\ (forall env fu fv ru rv,
        bilinear_form_unsym_0_0_1_1 env fu fv ru rv
        = int_w_nabla_u_v (env_xprev env) (env_yprev env) fu fv ru rv)
  /\ (forall (xp yp : Solution) (i j : Z),
        ls_A (sys w') i j
        - convection_matrix (sys_spaces w') (xprev w) (yprev w) i j
        = ls_A (assemble (main_weak_form p) (sys_spaces w') sys_pss xp yp) i j
          - convection_matrix (sys_spaces w') xp yp i j)
  /\ (forall (other : LinSystem -> SolveResult) (i : Z),
        sys (exec (time_step p other i) w)
        = sys (exec (time_step p spsolve i) w))
  /\ xprev w' = set_fe_solution (xvel w') H1ShapesetBeuchler
                  (solve_x (spsolve (sys w')))
  /\ yprev w' = set_fe_solution (yvel w') H1ShapesetBeuchler
                  (solve_x (spsolve (sys w'))).
Proof.
  cbv zeta.
  destruct (run_anchors p spsolve mesh k) as (Hx & Hy & Hn).
  split; [apply run_sys_anchor |].
  split; [exact (last_of_snoc_cons _ _ _ _ Hx) |].
  split; [exact (last_of_snoc_cons _ _ _ _ Hy) |].
  split; [exact Hx |]. split; [exact Hy |]. split; [exact Hn |].
  split; [reflexivity |].
  split.
  { intros xp yp i j. rewrite (run_sys_anchor p spsolve mesh k).
    apply (matrix_static_part p spsolve mesh k). }
  split; [intros other i; rewrite !time_step_spec; reflexivity |].
  rewrite run_S, time_step_spec. split; reflexivity.
Qed.

(** The output of an iteration does reach the next system: two solve
    services that leave different arrays after the first step lead to
    different matrices in the second. *)
Lemma next_matrix_depends_on_decode :
  ls_A (sys (run source_params rhs_solver 2 (init source_params toy_mesh))) 0 1
  <> ls_A (sys (run source_params ones_solver 2
                  (init source_params toy_mesh))) 0 1.
Proof. vm_compute. discriminate. Qed.

(** ** Symmetry tags in the assembled matrix *)

Lemma Qc_diff_swap (a b c d : scalar) : a - c = b - d -> a - b = c - d.
Proof.
  intros E. replace (a - b) with ((a - c) - (b - d) + (c - d)) by ring.
  rewrite E. ring.
Qed.

Lemma Qc_diff_zero (a b : scalar) : a - b = 0 - 0 -> a = b.
Proof.
  intros E. replace a with ((a - b) + b) by ring. rewrite E. ring.
Qed.

(** C6 (as amended).  In every assembled matrix the part contributed by
    a term tagged symmetric has equal entries at [(i, j)] and [(j, i)],
    the part contributed by a term tagged antisymmetric has at [(j, i)]
    the exact negation of its entry at [(i, j)], and the global matrix is
    the sum of these parts.  In the weak form of [main] the blocks (0,0)
    and (1,1) hold a symmetric term next to an unsymmetric convective
    term, so in the matrices of the main loop the entries at [(i, j)] and
    [(j, i)] of two velocity unknowns are equal only up to the convective
    contribution: they differ by exactly what the convective
    contributions at [(i, j)] and [(j, i)] differ by, and they are equal
    in the first step, where that contribution vanishes.  The rows of the
    pressure unknowns, which hold the velocity-pressure couplings (0,2)
    and (1,2) tagged antisymmetric, are the exact negation of their
    columns. *)
Theorem tagged_blocks_mirror_up_to_convection :
  (forall spaces pss xp yp (t : BiForm),
      bf_sym t = SYM -> symmetric (biform_matrix spaces pss xp yp t))
  /\ (forall spaces pss xp yp (t : BiForm),
        bf_sym t = ANTISYM -> antisymmetric (biform_matrix spaces pss xp yp t))
  /\ (forall wf spaces pss xp yp (i j : Z),
        ls_A (assemble wf spaces pss xp yp) i j
        = Qcsum (map (fun t => biform_matrix spaces pss xp yp t i j)
                     (wf_biforms wf)))
  /\ (forall p : Params,
        map (fun t => (bf_i t, bf_j t, bf_sym t))
            (wf_biforms (main_weak_form p))
        = [(0, 0, SYM); (0, 0, UNSYM); (1, 1, SYM); (1, 1, UNSYM);
           (0, 2, ANTISYM); (1, 2, ANTISYM)]%nat)
  /\ (forall (p : Params) (spsolve : LinSystem -> SolveResult) (mesh : Mesh)
             (k : nat) (i j : Z),
        let w := run p spsolve k (init p mesh) in
        let w' := run p spsolve (S k) (init p mesh) in
        let C := convection_matrix (sys_spaces w') (xprev w) (yprev w) in
        (~ i ∈ free_dofs (sp_dofs (press w')) ->
         ~ j ∈ free_dofs (sp_dofs (press w')) ->
         ls_A (sys w') i j - ls_A (sys w') j i = C i j - C j i)
        /\ (k = 0%nat ->
            ~ i ∈ free_dofs (sp_dofs (press w')) ->
            ~ j ∈ free_dofs (sp_dofs (press w')) ->
            ls_A (sys w') i j = ls_A (sys w') j i)
        /\ (j ∈ free_dofs (sp_dofs (press w')) ->
            ls_A (sys w') j i = - ls_A (sys w') i j)).
Proof.
  split; [intros; apply biform_matrix_symmetric; assumption |].
  split; [intros; apply biform_matrix_antisymmetric; assumption |].
  split; [intros; apply assemble_sum_of_terms |].
  split; [intros p; reflexivity |].
  intros p spsolve mesh k i j. cbv zeta.
  assert (Hsym : ~ i ∈ free_dofs (sp_dofs (press (run p spsolve (S k)
                                                    (init p mesh)))) ->
                 ~ j ∈ free_dofs (sp_dofs (press (run p spsolve (S k)
                                                    (init p mesh)))) ->
                 ls_A (sys (run p spsolve (S k) (init p mesh))) i j
                 - ls_A (sys (run p spsolve (S k) (init p mesh))) j i
                 = convection_matrix
                     (sys_spaces (run p spsolve (S k) (init p mesh)))
                     (xprev (run p spsolve k (init p mesh)))
                     (yprev (run p spsolve k (init p mesh))) i j
                   - convection_matrix
                       (sys_spaces (run p spsolve (S k) (init p mesh)))
                       (xprev (run p spsolve k (init p mesh)))
                       (yprev (run p spsolve k (init p mesh))) j i).
  { intros Hi Hj. apply Qc_diff_swap.
    apply (velocity_block_symmetric_part p spsolve mesh k i j Hi Hj). }
  split; [exact Hsym |].
  split; [| apply run_pressure_blocks].
  intros -> Hi Hj. specialize (Hsym Hi Hj).
  rewrite run_0 in Hsym. destruct (init_prev p mesh) as [Ex Ey].
  rewrite Ex, Ey, !convection_matrix_at_rest in Hsym.
  apply Qc_diff_zero. exact Hsym.
Qed.

(** In the second step of a run with the constants of the source the
    entries of the x-velocity unknowns 0 and 1 differ by what the
    convective contributions differ by. *)
Lemma tagged_blocks_mirror_up_to_convection_witness :
  let w := run source_params rhs_solver 1 (init source_params toy_mesh) in
  let w' := run source_params rhs_solver 2 (init source_params toy_mesh) in
  ls_A (sys w') 0 1 - ls_A (sys w') 1 0
  = convection_matrix (sys_spaces w') (xprev w) (yprev w) 0 1
    - convection_matrix (sys_spaces w') (xprev w) (yprev w) 1 0.
Proof.
  cbv zeta.
  apply (proj1 (proj2 (proj2 (proj2 (proj2
           tagged_blocks_mirror_up_to_convection)))
           source_params rhs_solver toy_mesh 1%nat 0%Z 1%Z)).
  - rewrite list_elem_of_In. vm_compute. intros [E | []]. discriminate E.
  - rewrite list_elem_of_In. vm_compute. intros [E | []]. discriminate E.
Defined.

(** In the second step of a run with the constants of the source, the
    unknowns 0 and 1 both belong to the x-velocity, whose block (0,0)
    holds the term tagged symmetric, and the assembled matrix has
    different entries at [(0, 1)] and [(1, 0)]. *)
Lemma symmetric_block_counterexample :
  let w := run source_params rhs_solver 2 (init source_params toy_mesh) in
  free_dofs (sp_dofs (xvel w)) = [0; 1]%Z
  /\ map (fun t => (bf_i t, bf_j t, bf_sym t))
         (firstn 1 (wf_biforms (main_weak_form source_params)))
     = [(0, 0, SYM)]%nat
  /\ ls_A (sys w) 0 1 = qfrac 999 1000
  /\ ls_A (sys w) 1 0 = qfrac 2997 4000
  /\ ls_A (sys w) 0 1 <> ls_A (sys w) 1 0.
Proof.
  cbv zeta.
  split; [vm_compute; reflexivity |].
  split; [reflexivity |].
  split; [apply Qc_is_canon; vm_compute; reflexivity |].
  split; [apply Qc_is_canon; vm_compute; reflexivity |].
  vm_compute. discriminate.
Qed.
